(** * ku-cli-progress: the BarItem rendering engine (src/lib/bar-item.ts)

    A shallow embedding of the [BarItem] class and of the JavaScript
    built-ins it calls, followed by the properties of [render], [bar] and
    [renderBars].

    Conventions of the embedding.
    - A JavaScript [number] is [NaN], an infinity, or a finite rational.
      The results of [+], [-], [*] and [/] are rounded as binary64 rounds
      them, to the nearest number with a significand of 53 bits and an
      exponent of -1074 at least, ties to even; a result of magnitude 2^53
      or more is kept as it is (there is no overflow), and the sign of zero
      is not represented.
    - A string is a [string] of one-byte characters standing for UTF-16 code
      units, of any length.
    - An object used as a dictionary ([payload], [formatters],
      [dataProviders]) is a plain object: a [gmap string _] of its own
      properties, and behind them the members of [Object.prototype].
    - A call that can throw returns a [Completion]. *)

From Stdlib Require Import ZArith QArith Qround Qpower Lia Lqa Ascii DecimalString.
From stdpp Require Import base option list gmap strings sorting.

Local Open Scope Z_scope.

(** ** Completions: a value, a thrown error, or the end of the embedding *)

Inductive Error : Type :=
  | RangeError
  | TypeError.

(** Where the embedding stops following the engine: a member that a
    dictionary inherits from [Object.prototype] is used as a value or
    called, or [sort] is given a comparison function that is not
    consistent and the order is the engine's own. *)
Inductive Limit : Type :=
  | InheritedMember (name : string)
  | InconsistentComparator.

Inductive Completion (A : Type) : Type :=
  | Normal (a : A)
  | Throw (e : Error)
  | Unfollowed (why : Limit).
Arguments Normal {A} a.
Arguments Throw {A} e.
Arguments Unfollowed {A} why.

#[global] Instance Completion_ret : MRet Completion := fun A a => Normal a.
#[global] Instance Completion_bind : MBind Completion := fun A B f m =>
  match m with
  | Normal a => f a
  | Throw e => Throw e
  | Unfollowed why => Unfollowed why
  end.
#[global] Instance Completion_fmap : FMap Completion := fun A B f m =>
  match m with
  | Normal a => Normal (f a)
  | Throw e => Throw e
  | Unfollowed why => Unfollowed why
  end.

(** ** JavaScript numbers *)

Module JS.

Inductive number : Type :=
  | NaN
  | Infinity
  | NegInfinity
  | Num (q : Q).

Definition of_Z (z : Z) : number := Num (inject_Z z).

(** Sign of a number that is not [NaN]: -1, 0 or 1. *)
Definition sgn (x : number) : Z :=
  match x with
  | NaN => 0
  | Infinity => 1
  | NegInfinity => -1
  | Num q => Z.sgn (Qnum q)
  end.

Definition of_sign (s : Z) : number :=
  if s =? 0 then NaN else if 0 <? s then Infinity else NegInfinity.

Definition neg (x : number) : number :=
  match x with
  | NaN => NaN
  | Infinity => NegInfinity
  | NegInfinity => Infinity
  | Num q => Num (- q)
  end.

(** *** Rounding to binary64 *)

Definition two : Q := 2 # 1.

(** [floor (log2 x)] for a positive rational. *)
Definition ilog2 (x : Q) : Z :=
  if Qle_bool 1 x then Z.log2 (Qfloor x) else - Z.log2_up (Qceiling (/ x)).

(** The nearest integer, ties to the even one. *)
Definition rne (s : Q) : Z :=
  let f := Qfloor s in
  match (s - inject_Z f ?= 1 # 2)%Q with
  | Lt => f
  | Gt => f + 1
  | Eq => if Z.even f then f else f + 1
  end.

(** The exponent of the last bit of the significand of a positive
    number: 52 below its leading bit, and -1074 at least. *)
Definition fexp (x : Q) : Z := Z.max (ilog2 x - 52) (-1074).

Definition round_pos (x : Q) : Q :=
  if Qle_bool (two ^ 53) x then x
  else (inject_Z (rne (x / two ^ fexp x)) * two ^ fexp x)%Q.

(** The binary64 number that a real result is rounded to, in lowest
    terms. *)
Definition binary64 (x : Q) : Q :=
  let x := Qred x in
  match (x ?= 0)%Q with
  | Eq => 0%Q
  | Gt => Qred (round_pos x)
  | Lt => Qred (- round_pos (- x))
  end.

Definition add (x y : number) : number :=
  match x, y with
  | NaN, _ | _, NaN => NaN
  | Infinity, NegInfinity | NegInfinity, Infinity => NaN
  | Infinity, _ | _, Infinity => Infinity
  | NegInfinity, _ | _, NegInfinity => NegInfinity
  | Num a, Num b => Num (binary64 (a + b))
  end.

Definition sub (x y : number) : number := add x (neg y).

Definition mul (x y : number) : number :=
  match x, y with
  | NaN, _ | _, NaN => NaN
  | Num a, Num b => Num (binary64 (a * b))
  | _, _ => of_sign (sgn x * sgn y)
  end.

Definition div (x y : number) : number :=
  match x, y with
  | NaN, _ | _, NaN => NaN
  | Num a, Num b =>
      if Qeq_bool b 0 then of_sign (sgn x) else Num (binary64 (a / b))
  | Num _, _ => Num 0
  | _, Num b => of_sign (sgn x * (if Qeq_bool b 0 then 1 else sgn y))
  | _, _ => NaN
  end.

(** [x > y]; false as soon as one side is [NaN]. *)
Definition gt (x y : number) : bool :=
  match x, y with
  | NaN, _ | _, NaN => false
  | NegInfinity, _ | _, Infinity => false
  | Infinity, _ | _, NegInfinity => true
  | Num a, Num b => negb (Qle_bool a b)
  end.

Definition Number_isNaN (x : number) : bool :=
  match x with
  | NaN => true
  | _ => false
  end.

(** [Math.round]: the nearest integer, halves towards +Infinity. *)
Definition Math_round (x : number) : number :=
  match x with
  | Num q => of_Z (Qfloor (q + (1 # 2)))
  | _ => x
  end.

Definition Math_sign (x : number) : number :=
  match x with
  | NaN => NaN
  | _ => of_Z (sgn x)
  end.

(** [ToIntegerOrInfinity] on a finite number: truncation towards zero. *)
Definition truncate (q : Q) : Z := Z.quot (Qnum q) (Z.pos (Qden q)).

Definition Z_toString (z : Z) : string := NilZero.string_of_int (Z.to_int z).

Section ToString.
(** [Number::toString] prints an integer of magnitude 2^53 at most as
    its decimal digits.  For every other finite number the digits are
    those of the shortest decimal that reads back as the same binary64
    value; that conversion is a parameter of the model. *)
Variable Number_toString_digits : Q -> string.

Definition Number_toString (x : number) : string :=
  match x with
  | NaN => "NaN"
  | Infinity => "Infinity"
  | NegInfinity => "-Infinity"
  | Num q =>
      let r := Qred q in
      if Pos.eqb (Qden r) 1 && (Z.abs (Qnum r) <=? 2 ^ 53)
      then Z_toString (Qnum r)
      else Number_toString_digits q
  end.
End ToString.

(** ** Strings and arrays *)

Fixpoint repeat_nat (s : string) (n : nat) : string :=
  match n with
  | O => ""
  | S n' => s +:+ repeat_nat s n'
  end.

(** [String.prototype.repeat]: the count goes through
    [ToIntegerOrInfinity]; a negative or infinite count throws. *)
Definition String_repeat (s : string) (count : number) : Completion string :=
  match count with
  | NaN => Normal ""
  | Infinity | NegInfinity => Throw RangeError
  | Num q =>
      let n := truncate q in
      if n <? 0 then Throw RangeError else Normal (repeat_nat s (Z.to_nat n))
  end.

(** [Array.prototype.join] on an array of strings. *)
Fixpoint Array_join (sep : string) (l : list string) : string :=
  match l with
  | [] => ""
  | [s] => s
  | s :: l' => s +:+ sep +:+ Array_join sep l'
  end.

(** [Array.prototype.findIndex]: the first position whose element passes
    the test, or -1. *)
Fixpoint Array_findIndex {A} (f : A -> bool) (l : list A) : Z :=
  match l with
  | [] => -1
  | x :: l' =>
      if f x then 0
      else let i := Array_findIndex f l' in if i <? 0 then -1 else i + 1
  end.

(** [String.prototype.split] with a string separator and no limit.  The
    separator is looked for from left to right; [skip] counts the
    characters of a separator just found that are still to be passed
    over, [cur] is the piece read so far. *)
Fixpoint split_from (sep : string) (skip : nat) (cur s : string) : list string :=
  match s with
  | "" => [cur]
  | String c s' =>
      match skip with
      | S k => split_from sep k cur s'
      | O =>
          if String.prefix sep s
          then cur :: split_from sep (Nat.pred (String.length sep)) "" s'
          else split_from sep O (cur +:+ String c "") s'
      end
  end.

Fixpoint code_units (s : string) : list string :=
  match s with
  | "" => []
  | String c s' => String c "" :: code_units s'
  end.

Definition String_split (s sep : string) : list string :=
  match sep with
  | "" => code_units s
  | _ => split_from sep O "" s
  end.

(** The pieces of a string under the global pattern [/{([^{}]+)}/g]: the
    characters outside the matches, and for each match its capture group. *)
Inductive piece : Type :=
  | Text (c : ascii)
  | Match (group : string).

Fixpoint text (s : string) : list piece :=
  match s with
  | "" => []
  | String c s' => Text c :: text s'
  end.

Definition is_open (c : ascii) : bool := Ascii.eqb c "{"%char.
Definition is_close (c : ascii) : bool := Ascii.eqb c "}"%char.

(** [pending] is [Some g] after an opening brace followed by the
    characters [g], none of which is a brace: the only place where a match
    can still be completed. *)
Fixpoint matchAll (pending : option string) (s : string) : list piece :=
  match s with
  | "" =>
      match pending with
      | None => []
      | Some g => Text "{"%char :: text g
      end
  | String c s' =>
      match pending with
      | None =>
          if is_open c then matchAll (Some "") s'
          else Text c :: matchAll None s'
      | Some g =>
          if is_open c then (Text "{"%char :: text g) ++ matchAll (Some "") s'
          else if is_close c then
            match g with
            | "" => Text "{"%char :: Text "}"%char :: matchAll None s'
            | _ => Match g :: matchAll None s'
            end
          else matchAll (Some (g +:+ String c "")) s'
      end
  end.

(** The text of a match, from its capture group. *)
Definition matched (group : string) : string := "{" +:+ group +:+ "}".

(** [Array.prototype.sort] with a comparison function.  The sort is
    stable; a comparison result of [NaN] counts as +0.  Insertion from the
    right is one such sort, and for a consistent comparison function every
    stable sort returns the same array. *)
Section Sort.
Context {A : Type} (comparefn : A -> A -> number).

Definition comes_after (x y : A) : bool := gt (comparefn x y) (of_Z 0).

Fixpoint sort_insert (x : A) (l : list A) : list A :=
  match l with
  | [] => [x]
  | y :: l' => if comes_after x y then y :: sort_insert x l' else x :: l
  end.

Fixpoint Array_sort (l : list A) : list A :=
  match l with
  | [] => []
  | x :: l' => sort_insert x (Array_sort l')
  end.
End Sort.

(** A comparison function [(a, b) => Math.sign(a.size - b.size)] is
    consistent on sizes unless one of them is [NaN], which it finds equal
    to every size, and two others differ. *)
Definition consistent (sizes : list number) : bool :=
  negb (existsb Number_isNaN sizes
        && existsb (fun a => existsb (fun b => gt a b) sizes) sizes).

End JS.

Import JS.

(** ** The collaborators of BarItem

    [IProgress], [IEta] and [IBarOptions] are interfaces: a value of the
    record is what the getters of one object return at the time of a
    call. *)

Record IEta : Type := {
  getSpeed : number;
  getEtaS : number;
  getDurationMs : number;
}.

Record IProgress : Type := {
  getTag : option string;
  getPayload : gmap string string;
  getProgress : number;
  getValue : number;
  getTotal : number;
  getEta : IEta;
}.

(** [width] counts character cells and is an integer. *)
Record IBarOptions : Type := {
  completeChar : string;
  resumeChar : string;
  width : Z;
  glue : string;
}.

Record PartialBarOptions : Type := {
  opt_completeChar : option string;
  opt_resumeChar : option string;
  opt_width : option Z;
  opt_glue : option string;
}.

Abbreviation IFormatter := (string -> IProgress -> list IProgress -> string).
Abbreviation IDataProvider := (IProgress -> list IProgress -> string).

Record IParams : Type := {
  params_tagDelimiter : option string;
  params_template : option string;
  params_options : option PartialBarOptions;
  params_formatters : option (gmap string IFormatter);
  params_dataProviders : option (gmap string IDataProvider);
}.

(** ** Dictionaries

    [payload], [formatters] and [dataProviders] are plain objects read
    with [obj[key]]: the own property when there is one, and otherwise
    the member of [Object.prototype] of that name when there is one. *)

(** The names of the members of [Object.prototype]. *)
Definition inherited : list string :=
  ["constructor"; "__defineGetter__"; "__defineSetter__"; "hasOwnProperty";
   "__lookupGetter__"; "__lookupSetter__"; "isPrototypeOf";
   "propertyIsEnumerable"; "toString"; "valueOf"; "__proto__"; "toLocaleString"].

Inductive Lookup (A : Type) : Type :=
  | Own (a : A)
  | Proto (name : string)
  | Absent.
Arguments Own {A} a.
Arguments Proto {A} name.
Arguments Absent {A}.

(** [obj[key]] *)
Definition get {A} (obj : gmap string A) (key : string) : Lookup A :=
  match obj !! key with
  | Some a => Own a
  | None => if bool_decide (key ∈ inherited) then Proto key else Absent
  end.

(** What [getDataValue] returns when it is not [null]: a string, or the
    member of [Object.prototype] of some name. *)
Inductive Value : Type :=
  | Str (s : string)
  | Member (name : string).

(** ** The BarItem class *)

(** The fields of a BarItem.  [customProviders] are the data providers
    given to the constructor; the built-in ones close over the object and
    are looked up by [dataProviders] below. *)
Record BarItem : Type := {
  template : string;
  tagDelimiter : string;
  options : IBarOptions;
  formatters : gmap string IFormatter;
  customProviders : gmap string IDataProvider;
  progresses : list IProgress;
}.

(** The same BarItem with other progresses in its array. *)
Definition with_progresses (this : BarItem) (ps : list IProgress) : BarItem :=
  {| template := template this;
     tagDelimiter := tagDelimiter this;
     options := options this;
     formatters := formatters this;
     customProviders := customProviders this;
     progresses := ps |}.

Record BarParts : Type := {
  left : string;
  done : string;
}.

(** One element of the array that [renderBars] sorts. *)
Record Entry : Type := {
  size : number;
  item : IProgress;
  index : nat;
}.

(** The template literal [`${item.getTag()}`]. *)
Definition tagText (tag : option string) : string := default "undefined" tag.

(** [reduce] with a callback that can throw. *)
Fixpoint Array_reduce {A B} (f : B -> A -> Completion B) (l : list A) (init : B)
    : Completion B :=
  match l with
  | [] => Normal init
  | x :: l' => f init x ≫= Array_reduce f l'
  end.

(** [String.prototype.replace] over the pieces found by the pattern: the
    callback is run once per match, from left to right, on the match and
    its group; [st] is the state its closure carries from one call to the
    next. *)
Fixpoint String_replace {S} (f : string -> string -> S -> Completion (string * S))
    (pieces : list piece) (st : S) : Completion string :=
  match pieces with
  | [] => Normal ""
  | Text c :: rest => String c <$> String_replace f rest st
  | Match g :: rest =>
      f (matched g) g st ≫= fun '(r, st') =>
      String_replace f rest st' ≫= fun s => Normal (r +:+ s)
  end.

Section Methods.
(** The digits of a number that is not a small integer; see
    [Number_toString]. *)
Variable digits : Q -> string.

Abbreviation toString := (Number_toString digits).

(** [getBarParts]: both parts are built, the complete one first. *)
Definition getBarParts (this : BarItem) (size : number) (progress : IProgress)
    : Completion BarParts :=
  d ← String_repeat (completeChar (options this)) size;
  l ← String_repeat (resumeChar (options this))
        (sub (of_Z (width (options this))) size);
  mret {| left := l; done := d |}.

Definition bar (this : BarItem) (done_ : number) (progress : IProgress)
    : Completion string :=
  let size := Math_round (mul done_ (of_Z (width (options this)))) in
  parts ← getBarParts this size progress;
  mret (done parts +:+ glue (options this) +:+ left parts).

(** The formatter of a segment of the combined bar: the one registered
    for the tag of [item], or else the one registered for [bar].  No
    member of [Object.prototype] has a name that ends in [bar], so the
    two lookups find own properties only. *)
Definition segment_formatter (this : BarItem) (item : IProgress) : option IFormatter :=
  match formatters this !! (tagText (getTag item) +:+ tagDelimiter this +:+ "bar") with
  | Some f => Some f
  | None => formatters this !! "bar"
  end.

Definition renderBarsLine (this : BarItem) (length : number) (item : IProgress)
    (progresses : list IProgress) : Completion string :=
  parts ← getBarParts this length item;
  let line := done parts in
  let formatter := segment_formatter this item in
  mret (match formatter with
        | Some f => f line item progresses
        | None => line
        end).

(** The callback of [reduce] in [renderBars]: the accumulator is the
    size of the previous entry, together with the [lines] pushed so
    far. *)
Definition renderBars_step (this : BarItem) (progresses : list IProgress)
    (acc : number * list string) (current : Entry)
    : Completion (number * list string) :=
  let '(prev, lines) := acc in
  let length := sub (size current) prev in
  if gt length (of_Z 0) then
    line ← renderBarsLine this length (item current) progresses;
    mret (size current, lines ++ [line])
  else mret (size current, lines).

Definition renderBars_entries (this : BarItem) (progresses : list IProgress)
    : list Entry :=
  imap (fun index item =>
          {| size := Math_round (mul (getProgress item) (of_Z (width (options this))));
             item := item;
             index := index |}) progresses.

Definition renderBars_sorted (this : BarItem) (progresses : list IProgress)
    : list Entry :=
  Array_sort (fun a b => Math_sign (sub (size a) (size b)))
    (renderBars_entries this progresses).

(** The [lines] array of [renderBars] as it stands before the final
    [join].  The comparison function of the sort is consistent unless a
    size is [NaN] beside two sizes that differ. *)
Definition renderBars_lines (this : BarItem) (progresses : list IProgress)
    : Completion (list string) :=
  let w := of_Z (width (options this)) in
  if consistent (size <$> renderBars_entries this progresses) then
    '(leftLength, lines) ←
      Array_reduce (renderBars_step this progresses)
        (renderBars_sorted this progresses) (of_Z 0, []);
    if gt (sub w leftLength) (of_Z 0) then
      fill ← String_repeat (resumeChar (options this)) (sub w leftLength);
      mret (lines ++ [fill])
    else mret lines
  else Unfollowed InconsistentComparator.

Definition renderBars (this : BarItem) (progresses : list IProgress)
    : Completion string :=
  lines ← renderBars_lines this progresses;
  mret (Array_join (glue (options this)) lines).

Definition formatNumber (num : number) (suffix : string) : string :=
  if Number_isNaN num then toString NaN else toString num +:+ suffix.

(** The providers set up by the constructor. *)
Definition builtinProviders (this : BarItem) (key : string)
    : option (IProgress -> list IProgress -> Completion string) :=
  if String.eqb key "bars" then
    Some (fun progress progresses => renderBars this progresses)
  else if String.eqb key "bar" then
    Some (fun progress _ => bar this (getProgress progress) progress)
  else if String.eqb key "speed" then
    Some (fun progress _ =>
            mret (formatNumber (Math_round (getSpeed (getEta progress))) "/s"))
  else if String.eqb key "eta" then
    Some (fun progress _ => mret (formatNumber (getEtaS (getEta progress)) "s"))
  else if String.eqb key "value" then
    Some (fun progress _ => mret (toString (getValue progress)))
  else if String.eqb key "total" then
    Some (fun progress _ => mret (toString (getTotal progress)))
  else if String.eqb key "percentage" then
    Some (fun progress _ =>
            mret (toString (Math_round (mul (getProgress progress) (of_Z 100))) +:+ "%"))
  else if String.eqb key "duration" then
    Some (fun progress _ =>
            mret (toString (Math_round (div (getDurationMs (getEta progress)) (of_Z 1000)))
                  +:+ "s"))
  else None.

(** [this.dataProviders[key]]: the providers given to the constructor
    are spread after the built-in ones and so replace them; behind both
    are the members of [Object.prototype]. *)
Definition dataProviders (this : BarItem) (key : string)
    : Lookup (IProgress -> list IProgress -> Completion string) :=
  match customProviders this !! key with
  | Some f => Own (fun progress progresses => mret (f progress progresses))
  | None =>
      match builtinProviders this key with
      | Some provider => Own provider
      | None => if bool_decide (key ∈ inherited) then Proto key else Absent
      end
  end.

(** [getDataValue]: [None] is [null].  [payload[key] ?? null] is not
    [null] when the payload inherits a member of that name, and the
    provider is then not called. *)
Definition getDataValue (this : BarItem) (key : string) (item : IProgress)
    : Completion (option Value) :=
  let payload := getPayload item in
  match get payload key with
  | Own value => mret (Some (Str value))
  | Proto name => mret (Some (Member name))
  | Absent =>
      match dataProviders this key with
      | Own provider => (fun s => Some (Str s)) <$> provider item (progresses this)
      | Proto name => Unfollowed (InheritedMember name)
      | Absent => mret None
      end
  end.

(** The closure returned by [getCounterByProperty]; [map] is its
    captured [Map]. *)
Definition getCounterByProperty (max : Z) (key : string) (map : gmap string Z)
    : Z * gmap string Z :=
  let index := default 0 (map !! key) in
  let map := <[key := index + 1]> map in
  if index >=? max then (-1, map) else (index, map).

(** [const [property, tag] = prop.split(this.tagDelimiter).reverse()].
    A tag that is missing or empty is falsy: [None]. *)
Definition property_and_tag (this : BarItem) (prop : string)
    : string * option string :=
  let parts := reverse (String_split prop (tagDelimiter this)) in
  let property := default "" (parts !! 0%nat) in
  let tag :=
    match parts !! 1%nat with
    | Some "" | None => None
    | Some t => Some t
    end in
  (property, tag).

Definition has_tag (tag : string) (p : IProgress) : bool :=
  bool_decide (getTag p = Some tag).

(** [tag ? this.progresses.findIndex(p => p.getTag() === tag) : next(property)] *)
Definition resolve_index (this : BarItem) (property : string) (tag : option string)
    (map : gmap string Z) : Z * gmap string Z :=
  match tag with
  | Some tag => (Array_findIndex (has_tag tag) (progresses this), map)
  | None => getCounterByProperty (Z.of_nat (length (progresses this))) property map
  end.

(** The last lines of the callback of [render], for a value that is not
    [null]: [this.formatters[prop]] is called when it is truthy, and the
    value is returned otherwise.  The inherited [toString] called on the
    dictionary returns "[object Object]", the inherited [__proto__] is an
    object that cannot be called; the other members of [Object.prototype],
    a formatter of the application called on such a member, and the text
    of a member returned to [replace] are not followed. *)
Definition format (this : BarItem) (prop : string) (value : Value)
    (progress : IProgress) : Completion string :=
  match get (formatters this) prop with
  | Own formatter =>
      match value with
      | Str s => mret (formatter s progress (progresses this))
      | Member name => Unfollowed (InheritedMember name)
      end
  | Proto name =>
      if String.eqb name "toString" then mret "[object Object]"
      else if String.eqb name "__proto__" then Throw TypeError
      else Unfollowed (InheritedMember name)
  | Absent =>
      match value with
      | Str s => mret s
      | Member name => Unfollowed (InheritedMember name)
      end
  end.

(** The callback that [render] passes to [replace]. *)
Definition render_callback (this : BarItem) (match_ prop : string)
    (map : gmap string Z) : Completion (string * gmap string Z) :=
  let '(property, tag) := property_and_tag this prop in
  let '(index, map) := resolve_index this property tag map in
  if index <? 0 then mret (match_, map)
  else
    match progresses this !! Z.to_nat index with
    | None => Throw TypeError
    | Some progress =>
        value ← getDataValue this property progress;
        match value with
        | None => mret (match_, map)
        | Some value =>
            r ← format this prop value progress;
            mret (r, map)
        end
    end.

Definition render (this : BarItem) : Completion string :=
  String_replace (render_callback this) (matchAll None (template this)) ∅.

Definition getProgresses (this : BarItem) : list IProgress := progresses this.

Definition getDefaultTemplate (progresses : list IProgress) : string :=
  if (1 <? length progresses)%nat then
    "[{bars}] " +:+ Array_join "/" ((fun _ => "{percentage}") <$> progresses)
    +:+ " ETA: " +:+ Array_join "/" ((fun _ => "{eta}") <$> progresses)
    +:+ " speed: " +:+ Array_join "/" ((fun _ => "{speed}") <$> progresses)
    +:+ " duration: " +:+ Array_join "/" ((fun _ => "{duration}") <$> progresses)
    +:+ " " +:+ Array_join " " ((fun _ => "{value}/{total}") <$> progresses)
  else "[{bar}] {percentage} ETA: {eta} speed: {speed} duration: {duration} {value}/{total}".

Definition defaultOptions : IBarOptions :=
  {| completeChar := "="; resumeChar := "-"; width := 40; glue := "" |}.

(** [{ ...this.options, ...params?.options }]. *)
Definition mergeOptions (base : IBarOptions) (over : option PartialBarOptions)
    : IBarOptions :=
  match over with
  | None => base
  | Some o =>
      {| completeChar := default (completeChar base) (opt_completeChar o);
         resumeChar := default (resumeChar base) (opt_resumeChar o);
         width := default (width base) (opt_width o);
         glue := default (glue base) (opt_glue o) |}
  end.

(** The constructor; a single progress is passed as [inl]. *)
Definition new_BarItem (progresses : IProgress + list IProgress)
    (params : option IParams) : BarItem :=
  let progresses :=
    match progresses with
    | inl p => [p]
    | inr ps => ps
    end in
  {| progresses := progresses;
     tagDelimiter := default "_" (params ≫= params_tagDelimiter);
     template := default (getDefaultTemplate progresses) (params ≫= params_template);
     options := mergeOptions defaultOptions (params ≫= params_options);
     formatters := default ∅ (params ≫= params_formatters);
     customProviders := default ∅ (params ≫= params_dataProviders) |}.

End Methods.

(** ** Progress objects, the clock and the calls of an application *)

(** Modelled from the spec: the [Progress] class and its [Eta] are not part
    of bar-item.ts.  A progress keeps its value, its total, its tag, its
    payload and the sample taken at construction; [getProgress] is
    value/total; the speed is the value gained per elapsed second, the
    remaining time is (total - value)/speed and is NaN when the speed is
    not positive, the duration is the time elapsed since construction, in
    milliseconds. *)
Record Progress : Type := {
  tag : option string;
  payload : gmap string string;
  value : number;
  total : number;
  startValue : number;
  startedAt : Z;
}.

(** Modelled from the spec: [increment(amount)] adds [amount] to the
    value, with no clamp. *)
Definition increment (amount : number) (p : Progress) : Progress :=
  {| tag := tag p; payload := payload p; value := add (value p) amount;
     total := total p; startValue := startValue p; startedAt := startedAt p |}.

(** Modelled from the spec: the Eta of a progress read when the clock
    shows [now] milliseconds. *)
Definition Progress_getEta (now : Z) (p : Progress) : IEta :=
  let elapsedMs := of_Z (now - startedAt p) in
  let speed := div (sub (value p) (startValue p)) (div elapsedMs (of_Z 1000)) in
  {| getSpeed := speed;
     getEtaS := if gt speed (of_Z 0) then div (sub (total p) (value p)) speed else NaN;
     getDurationMs := elapsedMs |}.

(** Modelled from the spec: what the getters of a progress return when
    the clock shows [now]. *)
Definition Progress_view (now : Z) (p : Progress) : IProgress :=
  {| getTag := tag p;
     getPayload := payload p;
     getProgress := div (value p) (total p);
     getValue := value p;
     getTotal := total p;
     getEta := Progress_getEta now p |}.

(** The objects an application shares with a BarItem, the [Map]s that
    the calls of [getCounterByProperty] have created, and the clock. *)
Record World : Type := {
  now : Z;
  heap : list Progress;
  maps : list (gmap string Z);
}.

(** A BarItem holds references to progresses of the heap; [fields] are
    its own fields, which only the constructor assigns. *)
Record Handle : Type := {
  fields : BarItem;
  refs : list nat;
}.

Inductive Call : Type :=
  | Increment (ref : nat) (amount : number)
  | Elapse (ms : Z)
  | Render.

(** [replace] with a callback that works on a store: the store is
    threaded through the calls from left to right, and is what the last
    call left it when one of them throws. *)
Fixpoint String_replace_in {S} (f : string -> string -> S -> S * Completion string)
    (pieces : list piece) (st : S) : S * Completion string :=
  match pieces with
  | [] => (st, Normal "")
  | Text c :: rest =>
      let '(st', out) := String_replace_in f rest st in
      (st', String c <$> out)
  | Match g :: rest =>
      let '(st1, r) := f (matched g) g st in
      match r with
      | Normal r =>
          let '(st2, out) := String_replace_in f rest st1 in
          (st2, (fun s => r +:+ s) <$> out)
      | Throw e => (st1, Throw e)
      | Unfollowed why => (st1, Unfollowed why)
      end
  end.

Section Calls.
Variable digits : Q -> string.

(** The referenced progresses as the heap has them, their views, and the
    handle that the constructor returns for them. *)
Definition referenced (w : World) (refs : list nat) : list Progress :=
  omap (fun r => heap w !! r) refs.

Definition views (w : World) (refs : list nat) : list IProgress :=
  Progress_view (now w) <$> referenced w refs.

Definition new_Handle (w : World) (refs : list nat) (params : option IParams) : Handle :=
  {| fields := new_BarItem (inr (views w refs)) params; refs := refs |}.

(** The BarItem as a method called in the world [w] finds it: its getters
    read the progresses of the heap and the clock. *)
Definition BarItem_at (w : World) (h : Handle) : BarItem :=
  with_progresses (fields h) (views w (refs h)).

(** [new Map()] in [getCounterByProperty]: the world with one more Map,
    which is empty, and the reference to it. *)
Definition new_Map (w : World) : World * nat :=
  ({| now := now w; heap := heap w; maps := maps w ++ [∅] |}, length (maps w)).

Definition Map_at (w : World) (counter : nat) : gmap string Z :=
  default ∅ (maps w !! counter).

(** The closure returned by [getCounterByProperty(max)], whose Map is at
    [counter]: [map.set] writes to that Map. *)
Definition next (max : Z) (counter : nat) (key : string) (w : World) : World * Z :=
  let '(index, map) := getCounterByProperty max key (Map_at w counter) in
  ({| now := now w; heap := heap w; maps := <[counter := map]> (maps w) |}, index).

(** The callback of [render] in a world: the counter is the only object
    it writes to. *)
Definition render_callback_in (h : Handle) (max : Z) (counter : nat)
    (match_ prop : string) (w : World) : World * Completion string :=
  let '(property, tag) := property_and_tag (fields h) prop in
  let '(w, index) :=
    match tag with
    | Some tag => (w, Array_findIndex (has_tag tag) (progresses (BarItem_at w h)))
    | None => next max counter property w
    end in
  let this := BarItem_at w h in
  (w, if index <? 0 then mret match_
      else
        match progresses this !! Z.to_nat index with
        | None => Throw TypeError
        | Some progress =>
            value ← getDataValue digits this property progress;
            match value with
            | None => mret match_
            | Some value => format this prop value progress
            end
        end).

(** [render] in a world: the world it leaves, and what it returns. *)
Definition render_in (h : Handle) (w : World) : World * Completion string :=
  let max := Z.of_nat (length (progresses (BarItem_at w h))) in
  let '(w, counter) := new_Map w in
  String_replace_in (render_callback_in h max counter)
    (matchAll None (template (fields h))) w.

(** One call: the world after it, and the string a [Render] returns. *)
Definition call (h : Handle) (w : World) (c : Call)
    : World * option (Completion string) :=
  match c with
  | Increment ref amount =>
      ({| now := now w; heap := alter (increment amount) ref (heap w); maps := maps w |},
       None)
  | Elapse ms => ({| now := now w + ms; heap := heap w; maps := maps w |}, None)
  | Render => let '(w', out) := render_in h w in (w', Some out)
  end.

(** The strings returned by the [Render] calls of a sequence. *)
Fixpoint outputs (h : Handle) (w : World) (cs : list Call)
    : list (Completion string) :=
  match cs with
  | [] => []
  | c :: cs' =>
      let '(w', out) := call h w c in
      match out with
      | Some o => o :: outputs h w' cs'
      | None => outputs h w' cs'
      end
  end.
End Calls.

(** The number of [Render] calls of a sequence. *)
Fixpoint renders (cs : list Call) : nat :=
  match cs with
  | [] => 0
  | Render :: cs' => S (renders cs')
  | _ :: cs' => renders cs'
  end.

(** A call that leaves the progresses of the BarItem and the clock as
    they are: a [render], or an [increment] of a progress that the
    BarItem has no reference to. *)
Definition keeps_referenced (h : Handle) (c : Call) : Prop :=
  match c with
  | Render => True
  | Increment ref _ => ref ∉ refs h
  | Elapse _ => False
  end.

(** A call that leaves the progresses of the BarItem as they are: one of
    the above, or time elapsing. *)
Definition keeps_progresses (h : Handle) (c : Call) : Prop :=
  match c with
  | Render | Elapse _ => True
  | Increment ref _ => ref ∉ refs h
  end.

(** ** Vocabulary of the statements *)

(** The total length of an array of strings. *)
Definition total_length (lines : list string) : nat :=
  sum_list_with String.length lines.

(** The number of cells that [Math.round(ratio * width)] gives for a
    finite ratio: the product as binary64 rounds it, then the nearest
    integer, halves up. *)
Definition cells (w : Z) (k : Q) : Z :=
  Qfloor (binary64 (k * inject_Z w) + (1 # 2)).

(** A progress whose ratio is a finite number. *)
Definition finite_ratio (p : IProgress) : Prop :=
  exists k, getProgress p = Num k.

(** A progress whose ratio is a finite number that is not negative. *)
Definition nonnegative_ratio (p : IProgress) : Prop :=
  exists k, getProgress p = Num k /\ (0 <= k)%Q.

(** A progress whose ratio lies between 0 and 1. *)
Definition unit_ratio (p : IProgress) : Prop :=
  exists k, getProgress p = Num k /\ (0 <= k)%Q /\ (k <= 1)%Q.

(** The size of an entry as an integer, when it is one. *)
Definition cellsOf (e : Entry) : Z :=
  match size e with
  | Num q => Qfloor q
  | _ => 0
  end.

(** [a] is placed before [b] by an ascending sort that keeps ties in
    their original order. *)
Definition ascending_stable (a b : Entry) : Prop :=
  gt (size a) (size b) = false /\ (size a = size b -> (index a < index b)%nat).

(** Order by an integer key, then by original position. *)
Definition precedes {A} (key : A -> Z) (idx : A -> nat) (a b : A) : Prop :=
  key a < key b \/ (key a = key b /\ (idx a < idx b)%nat).

(** No formatter applies to the segments that [renderBars] draws for the
    progresses [ps]. *)
Definition no_bar_formatter (this : BarItem) (ps : list IProgress) : Prop :=
  formatters this !! "bar" = None /\
  forall p, p ∈ ps ->
    formatters this !! (tagText (getTag p) +:+ tagDelimiter this +:+ "bar") = None.

(** The [Map] of the occurrence counter after the callbacks of [pieces]
    have run, starting from [map]. *)
Fixpoint counters_after (this : BarItem) (pieces : list piece) (map : gmap string Z)
    : gmap string Z :=
  match pieces with
  | [] => map
  | Text _ :: rest => counters_after this rest map
  | Match g :: rest =>
      let '(property, tag) := property_and_tag this g in
      counters_after this rest (snd (resolve_index this property tag map))
  end.

(** A piece that is an untagged placeholder of [property]. *)
Definition is_untagged (this : BarItem) (property : string) (p : piece) : bool :=
  match p with
  | Match g => bool_decide (property_and_tag this g = (property, None))
  | Text _ => false
  end.

(** A piece that is a placeholder with a tag. *)
Definition is_tagged (this : BarItem) (p : piece) : bool :=
  match p with
  | Match g => bool_decide (is_Some (snd (property_and_tag this g)))
  | Text _ => false
  end.

(** The number of untagged occurrences of [property] among [pieces]. *)
Definition occurrences (this : BarItem) (property : string) (pieces : list piece) : nat :=
  length (filter (fun p => is_untagged this property p) pieces).

(** What the callback of [render] returns for a placeholder bound to
    [progress]: the value of [property], formatted under the key [prop],
    or the placeholder itself when there is no value. *)
Definition bound_to (digits : Q -> string) (this : BarItem) (prop property : string)
    (progress : IProgress) : Completion string :=
  value ← getDataValue digits this property progress;
  match value with
  | None => mret (matched prop)
  | Some value => format this prop value progress
  end.

(** The placeholder syntax as the specification words it: the interior is
    cut once, at the last occurrence of the delimiter; the property is
    the text after it, the tag everything before it. *)
Fixpoint drop_chars (n : nat) (s : string) : string :=
  match n, s with
  | S n', String _ s' => drop_chars n' s'
  | _, _ => s
  end.

Fixpoint cut_at_last (delimiter s : string) : option (string * string) :=
  match s with
  | "" => None
  | String c s' =>
      match cut_at_last delimiter s' with
      | Some (before, after) => Some (String c before, after)
      | None =>
          if String.prefix delimiter s
          then Some ("", drop_chars (String.length delimiter) s)
          else None
      end
  end.

Definition split_once_from_right (delimiter s : string) : string * option string :=
  match cut_at_last delimiter s with
  | Some (tag, property) => (property, Some tag)
  | None => (s, None)
  end.

(** The text that a list of pieces was cut from. *)
Fixpoint source_text (pieces : list piece) : string :=
  match pieces with
  | [] => ""
  | Text c :: rest => String c (source_text rest)
  | Match g :: rest => matched g +:+ source_text rest
  end.

(** A string without braces. *)
Fixpoint brace_free (s : string) : bool :=
  match s with
  | "" => true
  | String c s' => negb (is_open c) && negb (is_close c) && brace_free s'
  end.

(** An Eta that shows no time elapsed, and a progress seen with it in
    place of its own. *)
Definition eta_at_rest : IEta :=
  {| getSpeed := of_Z 0; getEtaS := NaN; getDurationMs := of_Z 0 |}.

Definition still (p : IProgress) : IProgress :=
  {| getTag := getTag p; getPayload := getPayload p;
     getProgress := getProgress p; getValue := getValue p;
     getTotal := getTotal p; getEta := eta_at_rest |}.

(** The properties whose built-in providers read the Eta. *)
Definition clock_properties : list string := ["speed"; "eta"; "duration"].

(** A BarItem that shows nothing of the clock: its formatters and its own
    data providers do not look at the Eta of the progresses, and no
    placeholder of its template has one of the clock properties. *)
Definition clock_free (this : BarItem) : Prop :=
  (forall key f, formatters this !! key = Some f ->
     forall s p ps, f s p ps = f s (still p) (still <$> ps)) /\
  (forall key f, customProviders this !! key = Some f ->
     forall p ps, f p ps = f (still p) (still <$> ps)) /\
  Forall (fun piece => match piece with
                       | Match g => fst (property_and_tag this g) ∉ clock_properties
                       | Text _ => True
                       end)
    (matchAll None (template this)).

(** An entry for the same progress seen without its Eta. *)
Definition still_entry (e : Entry) : Entry :=
  {| size := size e; item := still (item e); index := index e |}.

(** The number of cells that [renderBars] gives a progress of width [w]:
    0 when its ratio is not a finite number. *)
Definition ratio_cells (w : Z) (p : IProgress) : Z :=
  match getProgress p with
  | Num k => cells w k
  | _ => 0
  end.

(** The runs of [c] drawn for sizes in ascending order, after [prev]
    cells: one run per size that exceeds the size before it, as long as
    the difference. *)
Fixpoint segments (c : string) (prev : Z) (sizes : list Z) : list string :=
  match sizes with
  | [] => []
  | z :: sizes =>
      (if prev <? z then [repeat_nat c (Z.to_nat (z - prev))] else [])
      ++ segments c z sizes
  end.

(** The run of [r] that fills the cells from [last] to [w], when there
    are any. *)
Definition trailing_fill (r : string) (w last : Z) : list string :=
  if last <? w then [repeat_nat r (Z.to_nat (w - last))] else [].

(** No run drawn for the sizes after [prev] cells is longer than [w]. *)
Fixpoint fits (w prev : Z) (sizes : list Z) : bool :=
  match sizes with
  | [] => true
  | z :: sizes => ((z <=? prev) || (z - prev <=? w)) && fits w z sizes
  end.

(** The lines that [renderBars] pushes for entries processed in this
    order, after [prev] cells: for each entry whose size exceeds the size
    of the entry before it, completeChar repeated as many times as the
    difference, as the formatter of the segment returns it; nothing for
    the other entries. *)
Fixpoint drawn (this : BarItem) (ps : list IProgress) (prev : Z) (entries : list Entry)
    : list string :=
  match entries with
  | [] => []
  | e :: entries =>
      (if prev <? cellsOf e
       then let line := repeat_nat (completeChar (options this))
                          (Z.to_nat (cellsOf e - prev)) in
            [match segment_formatter this (item e) with
             | Some f => f line (item e) ps
             | None => line
             end]
       else [])
      ++ drawn this ps (cellsOf e) entries
  end.

(** A length that a string can have in the engines that run the code:
    V8 allows 2^29 - 24 characters, and 2^28 - 16 on a 32-bit platform. *)
Definition string_limit : Z := 2 ^ 28 - 16.

(** No placeholder of the template is, or has as its property, the name
    of a member of [Object.prototype]. *)
Definition own_names (this : BarItem) : bool :=
  forallb (fun piece =>
             match piece with
             | Match g =>
                 negb (bool_decide (g ∈ inherited))
                 && negb (bool_decide (fst (property_and_tag this g) ∈ inherited))
             | Text _ => true
             end)
    (matchAll None (template this)).

(** A string in which the character [c] does not occur. *)
Fixpoint lacks (c : ascii) (s : string) : bool :=
  match s with
  | "" => true
  | String d s' => negb (Ascii.eqb d c) && lacks c s'
  end.

(** A piece as a template can be written from it: a character that is
    not a brace, or a placeholder whose name is not empty and has no
    brace. *)
Definition writable (p : piece) : bool :=
  match p with
  | Text c => negb (is_open c) && negb (is_close c)
  | Match g => negb (String.eqb g "") && brace_free g
  end.

(** [n] placeholders of the property [g] with the text [sep] between
    them: the pieces of [progresses.map(() => '{g}').join(sep)]. *)
Fixpoint placeholders (sep g : string) (n : nat) : list piece :=
  match n with
  | O => []
  | S O => [Match g]
  | S n' => Match g :: text sep ++ placeholders sep g n'
  end.

(** The pieces of [progresses.map(() => '{value}/{total}').join(' ')]. *)
Fixpoint value_total_pieces (n : nat) : list piece :=
  match n with
  | O => []
  | S O => [Match "value"; Text "/"; Match "total"]
  | S n' => Match "value" :: Text "/" :: Match "total" :: Text " " :: value_total_pieces n'
  end.

(** The pieces of the default template for [n] progresses, [n] above 1. *)
Definition default_pieces (n : nat) : list piece :=
  text "[" ++ [Match "bars"] ++ text "] " ++ placeholders "/" "percentage" n
  ++ text " ETA: " ++ placeholders "/" "eta" n
  ++ text " speed: " ++ placeholders "/" "speed" n
  ++ text " duration: " ++ placeholders "/" "duration" n
  ++ text " " ++ value_total_pieces n.

(** The properties that the default templates show. *)
Definition default_keys : list string :=
  ["bars"; "bar"; "percentage"; "eta"; "speed"; "duration"; "value"; "total"].

(** What a placeholder without a tag shows for a progress it is bound to,
    when [render] returns there. *)
Definition shown (digits : Q -> string) (this : BarItem) (key : string)
    (p : IProgress) : string :=
  match bound_to digits this key key p with
  | Normal s => s
  | _ => ""
  end.

(** ** Example objects *)

(** A progress at [value] of [total], as its getters show it. *)
Definition progress_of (tag : option string) (payload : gmap string string)
    (value total : Z) : IProgress :=
  {| getTag := tag; getPayload := payload;
     getProgress := div (of_Z value) (of_Z total);
     getValue := of_Z value; getTotal := of_Z total;
     getEta := eta_at_rest |}.

Definition params_of_template (template : string) : IParams :=
  {| params_tagDelimiter := None; params_template := Some template;
     params_options := None; params_formatters := None;
     params_dataProviders := None |}.

(** A progress at 15 of 100: its ratio is the binary64 number nearest to
    0.15. *)
Definition three_twentieths : IProgress := progress_of None ∅ 15 100.

(** A progress past its total: 1500 of 1000. *)
Definition overshoot : IProgress := progress_of None ∅ 1500 1000.

(** A formatter that puts a segment between angle brackets, and a BarItem
    of width 2 that draws its segments with it over one completed
    progress. *)
Definition bracket : IFormatter := fun str _ _ => "<" +:+ str +:+ ">".

Definition completed : IProgress := progress_of None ∅ 1000 1000.

Definition bracketed : BarItem :=
  new_BarItem (inl completed)
    (Some {| params_tagDelimiter := None; params_template := None;
             params_options :=
               Some {| opt_completeChar := None; opt_resumeChar := None;
                       opt_width := Some 2; opt_glue := None |};
             params_formatters := Some {[ "bar" := bracket ]};
             params_dataProviders := None |}).

(** Three progresses at 20%, 50% and 80%, the middle one first. *)
Definition three_progresses : list IProgress :=
  [progress_of None ∅ 500 1000; progress_of None ∅ 200 1000; progress_of None ∅ 800 1000].

Definition width_ten : IParams :=
  {| params_tagDelimiter := None; params_template := None;
     params_options :=
       Some {| opt_completeChar := None; opt_resumeChar := None;
               opt_width := Some 10; opt_glue := Some "|" |};
     params_formatters := None; params_dataProviders := None |}.

(** Two untagged progresses at 100 and 200 of 1000. *)
Definition two_progresses : list IProgress :=
  [progress_of None ∅ 100 1000; progress_of None ∅ 200 1000].

(** Progresses tagged "a" and "b", at 100 and 200 of 1000. *)
Definition tagged_pair : list IProgress :=
  [progress_of (Some "a") ∅ 100 1000; progress_of (Some "b") ∅ 200 1000].

(** A progress whose payload has an entry for "value", and one past its
    total whose payload has an entry for "bar". *)
Definition with_custom_value : IProgress :=
  progress_of None {[ "value" := "custom" ]} 300 1000.

Definition overshoot_with_bar : IProgress :=
  progress_of None {[ "bar" := "custom" ]} 1500 1000.

(** Two progresses whose tags are "x_a" and "a", at 1 and 2 of 10, under
    a template that names the first. *)
Definition nested_tags : BarItem :=
  new_BarItem
    (inr [progress_of (Some "x_a") ∅ 1 10; progress_of (Some "a") ∅ 2 10])
    (Some (params_of_template "{x_a_value}")).

(** A world with one progress created at time 0, and a BarItem over it
    that shows the duration. *)
Definition fresh_world : World :=
  {| now := 0;
     heap := [ {| tag := None; payload := ∅; value := of_Z 0; total := of_Z 1000;
                  startValue := of_Z 0; startedAt := 0 |} ];
     maps := [] |}.

(** A world with two progresses created at time 0. *)
Definition two_on_heap : World :=
  {| now := 0;
     heap := [ {| tag := None; payload := ∅; value := of_Z 0; total := of_Z 1000;
                  startValue := of_Z 0; startedAt := 0 |};
               {| tag := None; payload := ∅; value := of_Z 0; total := of_Z 10;
                  startValue := of_Z 0; startedAt := 0 |} ];
     maps := [] |}.

Definition stopwatch : Handle :=
  new_Handle fresh_world [0%nat] (Some (params_of_template "{duration}")).

(** The pieces of "{value} {value}" and of
    "{b_value} {value} {a_value} {value}" before their last placeholder. *)
Definition before_second_value : list piece :=
  [Match "value"; Text " "].

Definition before_last_value : list piece :=
  [Match "b_value"; Text " "; Match "value"; Text " "; Match "a_value"; Text " "].

(** A BarItem with no progress at all, and one whose template has no
    placeholder. *)
Definition no_progress : BarItem :=
  new_BarItem (inr []) (Some (params_of_template "{bar} {a_value} {value}")).

Definition plain_label : BarItem :=
  new_BarItem (inr three_progresses) (Some (params_of_template "loading...")).

(** Three progresses under the default template, with a formatter on the
    segments of the combined bar. *)
Definition three_bracketed : BarItem :=
  new_BarItem (inr three_progresses)
    (Some {| params_tagDelimiter := None; params_template := None;
             params_options := None;
             params_formatters := Some {[ "bar" := bracket ]};
             params_dataProviders := None |}).
(** * Properties *)

(** ** Strings *)

Lemma app_cons (c : ascii) (s t : string) : String c s +:+ t = String c (s +:+ t).
Proof. reflexivity. Qed.

Lemma app_empty_l (s : string) : "" +:+ s = s.
Proof. reflexivity. Qed.

Lemma app_empty_r (s : string) : s +:+ "" = s.
Proof. induction s as [|c s IH]; [done|]. by rewrite app_cons, IH. Qed.

Lemma app_assoc_string (s t u : string) : (s +:+ t) +:+ u = s +:+ t +:+ u.
Proof. induction s as [|c s IH]; [done|]. by rewrite !app_cons, IH. Qed.

Lemma length_app_string (s t : string) :
  String.length (s +:+ t) = (String.length s + String.length t)%nat.
Proof. induction s as [|c s IH]; [done|]. rewrite app_cons. simpl. by rewrite IH. Qed.

Lemma length_repeat_nat (s : string) (n : nat) :
  String.length (repeat_nat s n) = (n * String.length s)%nat.
Proof.
  induction n as [|n IH]; [done|].
  simpl. rewrite length_app_string, IH. lia.
Qed.

Lemma total_length_app (l1 l2 : list string) :
  total_length (l1 ++ l2) = (total_length l1 + total_length l2)%nat.
Proof. apply sum_list_with_app. Qed.

Lemma length_Array_join (sep : string) (lines : list string) :
  String.length (Array_join sep lines)
  = (total_length lines + String.length sep * Nat.pred (length lines))%nat.
Proof.
  induction lines as [|s [|s' lines] IH].
  - simpl. lia.
  - unfold total_length. simpl. lia.
  - change (Array_join sep (s :: s' :: lines))
      with (s +:+ sep +:+ Array_join sep (s' :: lines)).
    rewrite !length_app_string, IH. unfold total_length. simpl. lia.
Qed.

(** ** Rounding to binary64 *)

Lemma two_pos (e : Z) : (0 < two ^ e)%Q.
Proof. apply Qpower_0_lt. reflexivity. Qed.

Lemma two_plus (a b : Z) : (two ^ (a + b) == two ^ a * two ^ b)%Q.
Proof. apply Qpower_plus. discriminate. Qed.

Lemma two_le (a b : Z) : a <= b -> (two ^ a <= two ^ b)%Q.
Proof. intros H. apply Qpower_le_compat_l; [exact H|discriminate]. Qed.

Lemma two_lt (a b : Z) : a < b -> (two ^ a < two ^ b)%Q.
Proof. intros H. apply Qpower_lt_compat_l; [exact H|reflexivity..]. Qed.

Lemma two_lt_inv (a b : Z) : (two ^ a < two ^ b)%Q -> a < b.
Proof. intros H. eapply Qpower_lt_compat_l_inv; [exact H|reflexivity..]. Qed.

Lemma two_Z (n : Z) : 0 <= n -> (two ^ n == inject_Z (2 ^ n))%Q.
Proof. intros H. symmetry. apply (Zpower_Qpower 2 n H). Qed.

Lemma ilog2_spec (x : Q) :
  (0 < x)%Q -> (two ^ ilog2 x <= x)%Q /\ (x < two ^ (ilog2 x + 1))%Q.
Proof.
  intros Hx. unfold ilog2. destruct (Qle_bool 1 x) eqn:H1.
  - apply Qle_bool_iff in H1.
    assert (Hn : 0 < Qfloor x).
    { pose proof (Qfloor_resp_le _ _ H1) as H. change (Qfloor 1) with 1 in H. lia. }
    destruct (Z.log2_spec _ Hn) as [Hlo Hhi].
    pose proof (Z.log2_nonneg (Qfloor x)) as HL.
    split.
    + rewrite two_Z by lia. eapply Qle_trans; [|apply Qfloor_le].
      rewrite <- Zle_Qle. exact Hlo.
    + rewrite two_Z by lia. eapply Qlt_le_trans; [apply Qlt_floor|].
      rewrite <- Zle_Qle. lia.
  - assert (Hx1 : (x < 1)%Q).
    { apply Qnot_le_lt. intros H. apply Qle_bool_iff in H. congruence. }
    assert (Hxy : (x * / x == 1)%Q) by (apply Qmult_inv_r; lra).
    assert (Hy : (1 < / x)%Q).
    { apply Qlt_shift_inv_l; [exact Hx|]. lra. }
    set (y := (/ x)%Q) in *.
    assert (Hm : 1 < Qceiling y).
    { pose proof (Qle_ceiling y) as H. rewrite Zlt_Qlt. change (inject_Z 1) with 1%Q. lra. }
    destruct (Z.log2_up_spec _ Hm) as [Hlo Hhi].
    pose proof (Z.log2_up_pos _ Hm) as HU.
    set (U := Z.log2_up (Qceiling y)) in *.
    assert (HyU : (y <= two ^ U)%Q).
    { rewrite two_Z by lia. eapply Qle_trans; [apply Qle_ceiling|].
      rewrite <- Zle_Qle. exact Hhi. }
    assert (HUy : (two ^ (U - 1) < y)%Q).
    { rewrite two_Z by lia. eapply Qle_lt_trans; [|apply Qceiling_lt].
      rewrite <- Zle_Qle. replace (U - 1) with (Z.pred U) by lia. lia. }
    split.
    + rewrite Qpower_opp. apply Qle_shift_inv_r; [apply two_pos|].
      rewrite <- Hxy. apply Qmult_le_l; [exact Hx|exact HyU].
    + replace (- U + 1) with (- (U - 1)) by lia. rewrite Qpower_opp.
      apply Qlt_shift_inv_l; [apply two_pos|].
      rewrite <- Hxy. apply Qmult_lt_l; [exact Hx|exact HUy].
Qed.

Lemma ilog2_lt (x : Q) (n : Z) : (0 < x)%Q -> (x < two ^ n)%Q -> ilog2 x < n.
Proof.
  intros Hx Hn. destruct (ilog2_spec x Hx) as [Hlo _].
  apply two_lt_inv. lra.
Qed.

Lemma ilog2_ge (x : Q) (n : Z) : (0 < x)%Q -> (two ^ n <= x)%Q -> n <= ilog2 x.
Proof.
  intros Hx Hn. destruct (ilog2_spec x Hx) as [_ Hhi].
  assert (n < ilog2 x + 1); [|lia]. apply two_lt_inv. lra.
Qed.

Lemma ilog2_mono (x y : Q) : (0 < x)%Q -> (x <= y)%Q -> ilog2 x <= ilog2 y.
Proof.
  intros Hx Hxy. apply ilog2_ge; [lra|].
  destruct (ilog2_spec x Hx) as [Hlo _]. lra.
Qed.

(** *** Nearest integer *)

Lemma rne_bounds (s : Q) :
  (inject_Z (rne s) - (1 # 2) <= s)%Q /\ (s <= inject_Z (rne s) + (1 # 2))%Q.
Proof.
  unfold rne. pose proof (Qfloor_le s) as Hlo. pose proof (Qlt_floor s) as Hhi.
  rewrite inject_Z_plus in Hhi. change (inject_Z 1) with 1%Q in Hhi.
  destruct (Qcompare_spec (s - inject_Z (Qfloor s)) (1 # 2)) as [H|H|H].
  - destruct (Z.even (Qfloor s)); [|rewrite inject_Z_plus; change (inject_Z 1) with 1%Q];
      split; lra.
  - split; lra.
  - rewrite inject_Z_plus. change (inject_Z 1) with 1%Q. split; lra.
Qed.

Lemma rne_Z (n : Z) : rne (inject_Z n) = n.
Proof.
  unfold rne. rewrite Qfloor_Z.
  destruct (Qcompare_spec (inject_Z n - inject_Z n) (1 # 2)) as [H|H|H]; try lra. reflexivity.
Qed.

Lemma rne_mono (s t : Q) : (s <= t)%Q -> rne s <= rne t.
Proof.
  intros Hst. pose proof (Qfloor_resp_le _ _ Hst) as Hf.
  pose proof (Qfloor_le s) as Hs0. pose proof (Qlt_floor s) as Hs1.
  pose proof (Qfloor_le t) as Ht0. pose proof (Qlt_floor t) as Ht1.
  rewrite inject_Z_plus in Hs1, Ht1. change (inject_Z 1) with 1%Q in Hs1, Ht1.
  assert (Hs : Qfloor s <= rne s <= Qfloor s + 1).
  { unfold rne. destruct (_ ?= _)%Q; [destruct (Z.even _)|..]; lia. }
  assert (Ht : Qfloor t <= rne t <= Qfloor t + 1).
  { unfold rne. destruct (_ ?= _)%Q; [destruct (Z.even _)|..]; lia. }
  destruct (Z.eq_dec (Qfloor s) (Qfloor t)) as [He|Hne]; [|lia].
  unfold rne. rewrite <- He.
  destruct (Qcompare_spec (s - inject_Z (Qfloor s)) (1 # 2)) as [H|H|H];
    destruct (Qcompare_spec (t - inject_Z (Qfloor s)) (1 # 2)) as [H'|H'|H'];
    try lra; try lia; destruct (Z.even (Qfloor s)); lia.
Qed.

Lemma rne_le (s : Q) (n : Z) : (s <= inject_Z n)%Q -> rne s <= n.
Proof. intros H. rewrite <- (rne_Z n). now apply rne_mono. Qed.

Lemma rne_ge (s : Q) (n : Z) : (inject_Z n <= s)%Q -> n <= rne s.
Proof. intros H. rewrite <- (rne_Z n). now apply rne_mono. Qed.

Lemma rne_comp (s t : Q) : (s == t)%Q -> rne s = rne t.
Proof.
  intros H. unfold rne. rewrite (Qfloor_comp _ _ H).
  assert (H' : (s - inject_Z (Qfloor t) == t - inject_Z (Qfloor t))%Q) by (now rewrite H).
  now rewrite (Qcompare_comp _ _ H' _ _ (Qeq_refl (1 # 2))).
Qed.

Lemma ilog2_comp (x y : Q) : (x == y)%Q -> ilog2 x = ilog2 y.
Proof.
  intros H. unfold ilog2.
  assert (Hb : Qle_bool 1 x = Qle_bool 1 y).
  { apply eq_true_iff_eq. rewrite !Qle_bool_iff. now rewrite H. }
  rewrite Hb, (Qfloor_comp _ _ H).
  assert (Hi : (/ x == / y)%Q) by (now rewrite H).
  now rewrite (Qceiling_comp _ _ Hi).
Qed.

(** *** Rounding of a positive number *)

Lemma round_pos_big (x : Q) : (two ^ 53 <= x)%Q -> round_pos x = x.
Proof.
  intros H. unfold round_pos. apply Qle_bool_iff in H. now rewrite H.
Qed.

Lemma round_pos_small (x : Q) :
  (x < two ^ 53)%Q ->
  round_pos x = (inject_Z (rne (x / two ^ fexp x)) * two ^ fexp x)%Q.
Proof.
  intros H. unfold round_pos. destruct (Qle_bool (two ^ 53) x) eqn:Hb; [|reflexivity..].
  apply Qle_bool_iff in Hb. lra.
Qed.

Lemma fexp_nonpos (x : Q) : (0 < x)%Q -> (x < two ^ 53)%Q -> fexp x <= 0.
Proof.
  intros Hx H. pose proof (ilog2_lt x 53 Hx H). unfold fexp. lia.
Qed.

Lemma scaled_lt (x : Q) :
  (0 < x)%Q -> (x / two ^ fexp x < two ^ 53)%Q.
Proof.
  intros Hx. destruct (ilog2_spec x Hx) as [_ Hhi].
  apply Qlt_shift_div_r; [apply two_pos|].
  rewrite <- two_plus. eapply Qlt_le_trans; [exact Hhi|].
  apply two_le. unfold fexp. lia.
Qed.

Lemma scaled_ge (x : Q) :
  (0 < x)%Q -> fexp x = ilog2 x - 52 -> (two ^ 52 <= x / two ^ fexp x)%Q.
Proof.
  intros Hx He. destruct (ilog2_spec x Hx) as [Hlo _].
  apply Qle_shift_div_l; [apply two_pos|].
  rewrite <- two_plus. eapply Qle_trans; [|exact Hlo].
  apply two_le. lia.
Qed.

Lemma round_pos_upper (x : Q) :
  (0 < x)%Q -> (x < two ^ 53)%Q -> (round_pos x <= two ^ (53 + fexp x))%Q.
Proof.
  intros Hx H. rewrite round_pos_small by exact H.
  rewrite two_plus. apply Qmult_le_compat_r; [|apply Qlt_le_weak, two_pos].
  rewrite (two_Z 53) by lia. rewrite <- Zle_Qle. apply rne_le.
  rewrite <- two_Z by lia. apply Qlt_le_weak, scaled_lt, Hx.
Qed.

Lemma round_pos_lower (x : Q) :
  (0 < x)%Q -> (x < two ^ 53)%Q -> fexp x = ilog2 x - 52 ->
  (two ^ (52 + fexp x) <= round_pos x)%Q.
Proof.
  intros Hx H He. rewrite round_pos_small by exact H.
  rewrite two_plus. apply Qmult_le_compat_r; [|apply Qlt_le_weak, two_pos].
  rewrite (two_Z 52) by lia. rewrite <- Zle_Qle. apply rne_ge.
  rewrite <- two_Z by lia. now apply scaled_ge.
Qed.

Lemma round_pos_nonneg (x : Q) : (0 < x)%Q -> (0 <= round_pos x)%Q.
Proof.
  intros Hx. unfold round_pos. destruct (Qle_bool _ _); [lra|].
  apply Qmult_le_0_compat; [|apply Qlt_le_weak, two_pos].
  change 0%Q with (inject_Z 0). rewrite <- Zle_Qle. apply rne_ge.
  change (inject_Z 0) with 0%Q. apply Qle_shift_div_l; [apply two_pos|]. lra.
Qed.

Lemma round_pos_mono (x y : Q) :
  (0 < x)%Q -> (x <= y)%Q -> (round_pos x <= round_pos y)%Q.
Proof.
  intros Hx Hxy.
  destruct (Qlt_le_dec y (two ^ 53)) as [Hy|Hy].
  - assert (Hx53 : (x < two ^ 53)%Q) by lra.
    assert (He : fexp x <= fexp y).
    { pose proof (ilog2_mono x y Hx Hxy). unfold fexp. lia. }
    destruct (Z.eq_dec (fexp x) (fexp y)) as [Heq|Hne].
    + rewrite !round_pos_small by assumption. rewrite Heq.
      apply Qmult_le_compat_r; [|apply Qlt_le_weak, two_pos].
      rewrite <- Zle_Qle. apply rne_mono.
      apply Qmult_le_compat_r; [exact Hxy|].
      apply Qlt_le_weak, Qinv_lt_0_compat, two_pos.
    + assert (Hy' : fexp y = ilog2 y - 52) by (unfold fexp in *; lia).
      eapply Qle_trans; [apply round_pos_upper; assumption|].
      eapply Qle_trans; [|apply round_pos_lower; [lra|assumption..]].
      apply two_le. lia.
  - rewrite (round_pos_big y Hy).
    destruct (Qlt_le_dec x (two ^ 53)) as [Hx53|Hx53].
    + eapply Qle_trans; [apply round_pos_upper; assumption|].
      eapply Qle_trans; [|exact Hy]. apply two_le.
      pose proof (fexp_nonpos x Hx Hx53). lia.
    + rewrite (round_pos_big x Hx53). exact Hxy.
Qed.

Lemma round_pos_comp (x y : Q) : (x == y)%Q -> (round_pos x == round_pos y)%Q.
Proof.
  intros H. unfold round_pos.
  assert (Hb : Qle_bool (two ^ 53) x = Qle_bool (two ^ 53) y).
  { apply eq_true_iff_eq. rewrite !Qle_bool_iff. now rewrite H. }
  rewrite Hb. destruct (Qle_bool _ y); [exact H|].
  unfold fexp. rewrite (ilog2_comp _ _ H).
  assert (Hs : (x / two ^ Z.max (ilog2 y - 52) (-1074)
                == y / two ^ Z.max (ilog2 y - 52) (-1074))%Q) by (now rewrite H).
  now rewrite (rne_comp _ _ Hs).
Qed.

Lemma round_pos_Z (n : Z) : 0 < n -> (round_pos (inject_Z n) == inject_Z n)%Q.
Proof.
  intros Hn.
  assert (Hx : (0 < inject_Z n)%Q) by (change 0%Q with (inject_Z 0); now rewrite <- Zlt_Qlt).
  destruct (Qlt_le_dec (inject_Z n) (two ^ 53)) as [H|H];
    [|now rewrite round_pos_big].
  rewrite round_pos_small by exact H.
  pose proof (fexp_nonpos _ Hx H) as He.
  set (e := fexp (inject_Z n)) in *.
  assert (Hs : (inject_Z n / two ^ e == inject_Z (n * 2 ^ (- e)))%Q).
  { rewrite inject_Z_mult, <- two_Z by lia. rewrite Qpower_opp. reflexivity. }
  rewrite (rne_comp _ _ Hs), rne_Z, inject_Z_mult, <- two_Z by lia.
  rewrite <- Qmult_assoc, <- two_plus.
  replace (- e + e) with 0 by lia. change (two ^ 0)%Q with 1%Q. ring.
Qed.

(** *** binary64 *)

Lemma Qred_inject_Z (n : Z) : Qred (inject_Z n) = inject_Z n.
Proof.
  unfold Qred, inject_Z.
  pose proof (Z.ggcd_gcd n 1) as Hg. pose proof (Z.ggcd_correct_divisors n 1) as Hd.
  destruct (Z.ggcd n 1) as [g [a b]]. cbn [fst] in Hg.
  rewrite Z.gcd_1_r in Hg. subst g. destruct Hd as [Ha Hb].
  assert (a = n) as -> by lia. assert (b = 1) as -> by lia. reflexivity.
Qed.

Lemma binary64_comp (x y : Q) : (x == y)%Q -> binary64 x = binary64 y.
Proof. intros H. unfold binary64. now rewrite (Qred_complete _ _ H). Qed.

Lemma binary64_pos (x : Q) : (0 < x)%Q -> (binary64 x == round_pos x)%Q.
Proof.
  intros Hx. unfold binary64. cbv zeta.
  pose proof (Qred_correct x) as Hr.
  destruct (Qcompare_spec (Qred x) 0) as [H|H|H]; try lra.
  rewrite Qred_correct. apply round_pos_comp, Qred_correct.
Qed.

Lemma binary64_neg (x : Q) : (x < 0)%Q -> (binary64 x == - round_pos (- x))%Q.
Proof.
  intros Hx. unfold binary64. cbv zeta.
  pose proof (Qred_correct x) as Hr.
  destruct (Qcompare_spec (Qred x) 0) as [H|H|H]; try lra.
  rewrite Qred_correct. apply Qopp_comp, round_pos_comp, Qopp_comp, Qred_correct.
Qed.

Lemma binary64_zero (x : Q) : (x == 0)%Q -> binary64 x = 0%Q.
Proof.
  intros Hx. unfold binary64. cbv zeta.
  pose proof (Qred_correct x) as Hr.
  destruct (Qcompare_spec (Qred x) 0) as [H|H|H]; try lra. reflexivity.
Qed.

Lemma binary64_mono (x y : Q) : (x <= y)%Q -> (binary64 x <= binary64 y)%Q.
Proof.
  intros Hxy.
  destruct (Qcompare_spec x 0) as [Hx|Hx|Hx];
    destruct (Qcompare_spec y 0) as [Hy|Hy|Hy]; try lra.
  - rewrite (binary64_zero x Hx), (binary64_zero y Hy). lra.
  - rewrite (binary64_zero x Hx), (binary64_pos y Hy).
    now apply round_pos_nonneg.
  - rewrite (binary64_neg x Hx), (binary64_zero y Hy).
    assert (0 <= round_pos (- x))%Q by (apply round_pos_nonneg; lra). lra.
  - rewrite (binary64_neg x Hx), (binary64_neg y Hy).
    assert (round_pos (- y) <= round_pos (- x))%Q by (apply round_pos_mono; lra). lra.
  - rewrite (binary64_neg x Hx), (binary64_pos y Hy).
    assert (0 <= round_pos (- x))%Q by (apply round_pos_nonneg; lra).
    assert (0 <= round_pos y)%Q by (now apply round_pos_nonneg). lra.
  - rewrite (binary64_pos x Hx), (binary64_pos y Hy). now apply round_pos_mono.
Qed.

Lemma binary64_Z (n : Z) : binary64 (inject_Z n) = inject_Z n.
Proof.
  destruct (Z.lt_trichotomy n 0) as [Hn|[->|Hn]].
  - unfold binary64. cbv zeta. rewrite Qred_inject_Z.
    assert (H : (inject_Z n < 0)%Q) by (change 0%Q with (inject_Z 0); now rewrite <- Zlt_Qlt).
    destruct (Qcompare_spec (inject_Z n) 0) as [H'|H'|H']; try lra.
    transitivity (Qred (inject_Z n)); [|apply Qred_inject_Z].
    apply Qred_complete.
    change (- inject_Z n)%Q with (inject_Z (- n)).
    rewrite round_pos_Z by lia. rewrite inject_Z_opp. ring.
  - reflexivity.
  - unfold binary64. cbv zeta. rewrite Qred_inject_Z.
    assert (H : (0 < inject_Z n)%Q) by (change 0%Q with (inject_Z 0); now rewrite <- Zlt_Qlt).
    destruct (Qcompare_spec (inject_Z n) 0) as [H'|H'|H']; try lra.
    transitivity (Qred (inject_Z n)); [|apply Qred_inject_Z].
    apply Qred_complete. now apply round_pos_Z.
Qed.

Lemma binary64_opp (x : Q) : (binary64 (- x) == - binary64 x)%Q.
Proof.
  destruct (Qcompare_spec x 0) as [Hx|Hx|Hx].
  - rewrite (binary64_zero x Hx), (binary64_zero (- x)) by lra. reflexivity.
  - rewrite (binary64_neg x Hx), (binary64_pos (- x)) by lra. ring.
  - rewrite (binary64_pos x Hx), (binary64_neg (- x)) by lra.
    apply Qopp_comp, round_pos_comp. ring.
Qed.

(** What binary64 gives for 0.15, 0.15 * 10, 0.075 * 100, 0.285 * 100,
    0.1 + 0.2 and 1/3, and for the half of its smallest number. *)
Lemma binary64_examples :
  binary64 (15 # 100) = (5404319552844595 # 36028797018963968)%Q /\
  binary64 (binary64 (15 # 100) * 10) = (3 # 2)%Q /\
  binary64 (binary64 (75 # 1000) * 100) = (15 # 2)%Q /\
  Qfloor (binary64 (binary64 (285 # 1000) * 100) + (1 # 2)) = 28 /\
  binary64 (binary64 (1 # 10) + binary64 (2 # 10))
  = (1351079888211149 # 4503599627370496)%Q /\
  binary64 (1 # 3) = (6004799503160661 # 18014398509481984)%Q /\
  binary64 (1 # 2 ^ 1075) = 0%Q.
Proof. repeat split; vm_compute; reflexivity. Qed.

(** ** Numbers that are integers *)

Lemma truncate_inject_Z (z : Z) : truncate (inject_Z z) = z.
Proof. unfold truncate. simpl. apply Z.quot_1_r. Qed.

Lemma add_of_Z (a b : Z) : add (of_Z a) (of_Z b) = of_Z (a + b).
Proof.
  unfold add, of_Z. f_equal.
  rewrite (binary64_comp _ (inject_Z (a + b))) by (by rewrite inject_Z_plus).
  apply binary64_Z.
Qed.

Lemma sub_of_Z (a b : Z) : sub (of_Z a) (of_Z b) = of_Z (a - b).
Proof.
  unfold sub, neg, of_Z. change (- inject_Z b)%Q with (inject_Z (- b)).
  apply (add_of_Z a (- b)).
Qed.

Lemma gt_of_Z (a b : Z) : gt (of_Z a) (of_Z b) = (b <? a).
Proof.
  unfold gt, of_Z, Qle_bool. simpl. rewrite !Z.mul_1_r.
  destruct (Z.leb_spec a b), (Z.ltb_spec b a); simpl; lia.
Qed.

Lemma gt_sub_of_Z (a b : Z) : gt (sub (of_Z a) (of_Z b)) (of_Z 0) = (b <? a).
Proof.
  rewrite sub_of_Z, gt_of_Z.
  destruct (Z.ltb_spec 0 (a - b)), (Z.ltb_spec b a); lia.
Qed.

Lemma String_repeat_of_Z (s : string) (n : Z) :
  String_repeat s (of_Z n)
  = if n <? 0 then Throw RangeError else Normal (repeat_nat s (Z.to_nat n)).
Proof. unfold String_repeat, of_Z. by rewrite truncate_inject_Z. Qed.

Lemma String_repeat_sub (s : string) (a b : Z) :
  String_repeat s (sub (of_Z a) (of_Z b))
  = if a - b <? 0 then Throw RangeError else Normal (repeat_nat s (Z.to_nat (a - b))).
Proof. rewrite sub_of_Z. apply String_repeat_of_Z. Qed.

Lemma of_Z_inj (a b : Z) : of_Z a = of_Z b -> a = b.
Proof. unfold of_Z, inject_Z. congruence. Qed.

Lemma Math_round_cells (w : Z) (k : Q) :
  Math_round (mul (Num k) (of_Z w)) = of_Z (cells w k).
Proof. reflexivity. Qed.

Lemma Qfloor_half (w : Z) : Qfloor (inject_Z w + (1 # 2)) = w.
Proof.
  unfold Qfloor, Qplus, inject_Z. simpl.
  change (Z.pos (1 * 2)) with 2.
  rewrite Z.mul_1_r. replace (w * 2 + 1) with (1 + w * 2) by lia.
  rewrite Z.div_add by lia. change (1 `div` 2) with 0. lia.
Qed.

(** The cell count is the integer nearest to the rounded product, halves
    up. *)
Lemma cells_nearest (w : Z) (k : Q) :
  (inject_Z (cells w k) - (1 # 2) <= binary64 (k * inject_Z w))%Q /\
  (binary64 (k * inject_Z w) < inject_Z (cells w k) + (1 # 2))%Q.
Proof.
  unfold cells. set (x := (binary64 (k * inject_Z w) + (1 # 2))%Q).
  pose proof (Qfloor_le x) as Hlo. pose proof (Qlt_floor x) as Hhi.
  rewrite inject_Z_plus in Hhi. change (inject_Z 1) with 1%Q in Hhi.
  unfold x in *. split; lra.
Qed.

Lemma cells_mono (w : Z) (k1 k2 : Q) :
  0 <= w -> (k1 <= k2)%Q -> cells w k1 <= cells w k2.
Proof.
  intros Hw Hk. unfold cells. apply Qfloor_resp_le.
  apply Qplus_le_l. apply binary64_mono. apply Qmult_le_compat_r; [done|].
  change 0%Q with (inject_Z 0). by rewrite <- Zle_Qle.
Qed.

Lemma cells_zero (w : Z) (k : Q) : (k == 0)%Q -> cells w k = 0.
Proof.
  intros Hk. unfold cells. rewrite (binary64_zero (k * inject_Z w)); [done|].
  rewrite Hk. ring.
Qed.

Lemma cells_one (w : Z) (k : Q) : (k == 1)%Q -> cells w k = w.
Proof.
  intros Hk. unfold cells.
  rewrite (binary64_comp _ (inject_Z w)) by (rewrite Hk; ring).
  rewrite binary64_Z. apply Qfloor_half.
Qed.

Lemma cells_bounds (w : Z) (k : Q) :
  0 <= w -> (0 <= k)%Q -> (k <= 1)%Q -> 0 <= cells w k <= w.
Proof.
  intros Hw Hk0 Hk1.
  pose proof (cells_mono w 0 k Hw Hk0) as H0.
  pose proof (cells_mono w k 1 Hw Hk1) as H1.
  rewrite (cells_zero w 0) in H0 by done.
  rewrite (cells_one w 1) in H1 by done. done.
Qed.

(** ** Completions *)

Lemma bind_Normal {A B} (a : A) (f : A -> Completion B) : Normal a ≫= f = f a.
Proof. reflexivity. Qed.

Lemma bind_assoc {A B C} (m : Completion A) (f : A -> Completion B)
    (g : B -> Completion C) :
  (m ≫= f) ≫= g = m ≫= (fun a => f a ≫= g).
Proof. by destruct m. Qed.

Lemma fmap_bind {A B} (m : Completion A) (f : A -> B) :
  f <$> m = m ≫= (fun a => Normal (f a)).
Proof. by destruct m. Qed.

(** ** The parts of a bar *)

Lemma getBarParts_of_Z (this : BarItem) (n : Z) (progress : IProgress) :
  getBarParts this (of_Z n) progress
  = if (n <? 0) || (width (options this) <? n) then Throw RangeError
    else Normal {| left := repeat_nat (resumeChar (options this))
                             (Z.to_nat (width (options this) - n));
                   done := repeat_nat (completeChar (options this)) (Z.to_nat n) |}.
Proof.
  unfold getBarParts. rewrite String_repeat_of_Z, String_repeat_sub.
  destruct (Z.ltb_spec n 0); [done|]. simpl.
  destruct (Z.ltb_spec (width (options this) - n) 0),
    (Z.ltb_spec (width (options this)) n); try lia; done.
Qed.

(** ** Sorting *)

Section SortFacts.
Context {A : Type} (comparefn : A -> A -> number) (key : A -> Z) (idx : A -> nat).

Lemma sort_insert_perm (x : A) (l : list A) : sort_insert comparefn x l ≡ₚ x :: l.
Proof.
  induction l as [|y l IH]; [done|].
  simpl. destruct (comes_after comparefn x y); [|done..].
  rewrite IH. apply Permutation_swap.
Qed.

Lemma Array_sort_perm (l : list A) : Array_sort comparefn l ≡ₚ l.
Proof.
  induction l as [|x l IH]; [done|].
  simpl. by rewrite sort_insert_perm, IH.
Qed.

Lemma sort_insert_sorted (x : A) (l : list A) :
  (forall y, y ∈ l -> comes_after comparefn x y = (key y <? key x)) ->
  (forall y, y ∈ l -> (idx x < idx y)%nat) ->
  StronglySorted (precedes key idx) l ->
  StronglySorted (precedes key idx) (sort_insert comparefn x l).
Proof.
  intros Hcmp Hidx Hl.
  induction Hl as [|y l Hl IH Hy].
  - simpl. repeat constructor.
  - simpl. rewrite (Hcmp y) by set_solver.
    destruct (Z.ltb_spec (key y) (key x)) as [Hlt|Hge].
    + constructor.
      * apply IH; intros; [apply Hcmp|apply Hidx]; set_solver.
      * rewrite sort_insert_perm. constructor; [by left|done..].
    + assert (Hxy : precedes key idx x y).
      { destruct (decide (key x = key y)); [right|left; lia].
        split; [done|]. apply Hidx. set_solver. }
      constructor; [by constructor|].
      constructor; [done|].
      eapply Forall_impl; [exact Hy|].
      intros z [Hz|[Hz1 Hz2]]; (destruct (decide (key x = key z)); [right|left; lia]).
      * lia.
      * split; [done|]. destruct Hxy as [?|[? ?]]; lia.
Qed.

Lemma Array_sort_stable (l : list A) :
  (forall x y, x ∈ l -> y ∈ l -> comes_after comparefn x y = (key y <? key x)) ->
  StronglySorted (fun a b => (idx a < idx b)%nat) l ->
  StronglySorted (precedes key idx) (Array_sort comparefn l).
Proof.
  intros Hcmp Hl. induction Hl as [|x l Hl IH Hx]; [constructor|].
  simpl. apply sort_insert_sorted.
  - intros y Hy. rewrite Array_sort_perm in Hy. apply Hcmp; set_solver.
  - intros y Hy. rewrite Array_sort_perm in Hy.
    by apply (proj1 (Forall_forall _ _) Hx).
  - apply IH. intros; apply Hcmp; set_solver.
Qed.
End SortFacts.

(** ** The entries of renderBars *)

Lemma cellsOf_of_Z (e : Entry) (z : Z) : size e = of_Z z -> cellsOf e = z.
Proof. unfold cellsOf. intros ->. apply Qfloor_Z. Qed.

Lemma compare_sizes (a b : Z) :
  gt (Math_sign (sub (of_Z a) (of_Z b))) (of_Z 0) = (b <? a).
Proof.
  rewrite sub_of_Z.
  change (Math_sign (of_Z (a - b))) with (of_Z (Z.sgn (a - b))).
  rewrite gt_of_Z.
  destruct (Z.ltb_spec 0 (Z.sgn (a - b))), (Z.ltb_spec b a); lia.
Qed.

Lemma entries_elem (this : BarItem) (ps : list IProgress) (e : Entry) :
  e ∈ renderBars_entries this ps ->
  ps !! index e = Some (item e) /\
  size e = Math_round (mul (getProgress (item e)) (of_Z (width (options this)))).
Proof.
  unfold renderBars_entries. intros (i & p & -> & Hi)%elem_of_lookup_imap. done.
Qed.

Lemma entries_index_sorted (this : BarItem) (ps : list IProgress) :
  StronglySorted (fun a b => (index a < index b)%nat) (renderBars_entries this ps).
Proof.
  unfold renderBars_entries.
  set (sz := fun item => Math_round (mul (getProgress item) (of_Z (width (options this))))).
  enough (H : forall n,
    StronglySorted (fun a b => (index a < index b)%nat)
      (imap (fun i item => {| size := sz item; item := item; index := n + i |}) ps)
    /\ Forall (fun e => (n <= index e)%nat)
      (imap (fun i item => {| size := sz item; item := item; index := n + i |}) ps)).
  { apply (H 0%nat). }
  induction ps as [|p ps IH]; intros n; [split; constructor|].
  rewrite imap_cons.
  destruct (IH (S n)) as [IH1 IH2].
  rewrite (imap_ext _ (fun i item => {| size := sz item; item := item; index := S n + i |}))
    by (intros; simpl; f_equal; lia).
  split.
  - constructor; [done|]. eapply Forall_impl; [exact IH2|]. simpl. lia.
  - constructor; [simpl; lia|]. eapply Forall_impl; [exact IH2|]. simpl. lia.
Qed.

Lemma entries_finite (this : BarItem) (ps : list IProgress) :
  Forall finite_ratio ps ->
  Forall (fun e => size e = of_Z (cellsOf e)) (renderBars_entries this ps).
Proof.
  intros Hps. apply Forall_forall. intros e [Hi He]%entries_elem.
  assert (Hp : item e ∈ ps) by (eapply list_elem_of_lookup_2; done).
  destruct (proj1 (Forall_forall _ _) Hps _ Hp) as [k Hk].
  rewrite Hk, Math_round_cells in He.
  by rewrite (cellsOf_of_Z _ _ He).
Qed.

Lemma consistent_finite (sizes : list number) :
  Forall (fun s => exists z, s = of_Z z) sizes -> consistent sizes = true.
Proof.
  intros H. unfold consistent.
  assert (Hnan : existsb Number_isNaN sizes = false).
  { induction H as [|s sizes [z ->] _ IH]; [done|]. simpl. exact IH. }
  by rewrite Hnan.
Qed.

Lemma entries_consistent (this : BarItem) (ps : list IProgress) :
  Forall finite_ratio ps -> consistent (size <$> renderBars_entries this ps) = true.
Proof.
  intros Hps. apply consistent_finite, Forall_fmap.
  eapply Forall_impl; [by apply entries_finite|].
  intros e He. by exists (cellsOf e).
Qed.

Lemma entries_unit (this : BarItem) (ps : list IProgress) :
  0 <= width (options this) -> Forall unit_ratio ps ->
  Forall (fun e => size e = of_Z (cellsOf e) /\ 0 <= cellsOf e <= width (options this))
    (renderBars_entries this ps).
Proof.
  intros Hw Hps. apply Forall_forall. intros e [Hi He]%entries_elem.
  assert (Hp : item e ∈ ps) by (eapply list_elem_of_lookup_2; done).
  destruct (proj1 (Forall_forall _ _) Hps _ Hp) as (k & Hk & Hk0 & Hk1).
  rewrite Hk, Math_round_cells in He.
  rewrite (cellsOf_of_Z _ _ He). split; [done|]. by apply cells_bounds.
Qed.

Lemma sorted_perm (this : BarItem) (ps : list IProgress) :
  renderBars_sorted this ps ≡ₚ renderBars_entries this ps.
Proof. apply Array_sort_perm. Qed.

Lemma sorted_precedes (this : BarItem) (ps : list IProgress) :
  Forall finite_ratio ps ->
  StronglySorted (precedes cellsOf index) (renderBars_sorted this ps).
Proof.
  intros Hps. apply Array_sort_stable; [|apply entries_index_sorted].
  pose proof (entries_finite this ps Hps) as Hfin.
  intros x y Hx Hy. unfold comes_after.
  rewrite (proj1 (Forall_forall _ _) Hfin x Hx), (proj1 (Forall_forall _ _) Hfin y Hy).
  apply compare_sizes.
Qed.

Lemma precedes_ascending_stable (a b : Entry) :
  size a = of_Z (cellsOf a) -> size b = of_Z (cellsOf b) ->
  precedes cellsOf index a b -> ascending_stable a b.
Proof.
  intros Ha Hb Hab. unfold ascending_stable. rewrite Ha, Hb, gt_of_Z. split.
  - destruct (Z.ltb_spec (cellsOf b) (cellsOf a)); [|done..].
    destruct Hab as [?|[? ?]]; lia.
  - intros Heq%of_Z_inj. destruct Hab as [?|[? ?]]; lia.
Qed.

(** ** The reduce of renderBars *)

Lemma StronglySorted_weaken {A} (R R' : relation A) (l : list A) :
  (forall a b, a ∈ l -> b ∈ l -> R a b -> R' a b) ->
  StronglySorted R l -> StronglySorted R' l.
Proof.
  intros Himp Hl. induction Hl as [|x l Hl IH Hx]; [constructor|].
  constructor.
  - apply IH. intros; apply Himp; set_solver.
  - apply Forall_forall. intros y Hy. apply Himp; [set_solver..|].
    by apply (proj1 (Forall_forall _ _) Hx).
Qed.

Lemma sorted_finite (this : BarItem) (ps : list IProgress) :
  Forall finite_ratio ps ->
  Forall (fun e => size e = of_Z (cellsOf e)) (renderBars_sorted this ps).
Proof. intros Hps. rewrite sorted_perm. by apply entries_finite. Qed.

(** ** The length of the combined bar *)

Lemma getBarParts_sub (this : BarItem) (a b : Z) (progress : IProgress) :
  getBarParts this (sub (of_Z a) (of_Z b)) progress
  = getBarParts this (of_Z (a - b)) progress.
Proof. by rewrite sub_of_Z. Qed.

Lemma sorted_ascending (this : BarItem) (ps : list IProgress) :
  Forall finite_ratio ps ->
  StronglySorted (fun a b => cellsOf a <= cellsOf b) (renderBars_sorted this ps).
Proof.
  intros Hps. eapply StronglySorted_weaken; [|by apply sorted_precedes].
  intros a b _ _ [?|[? ?]]; lia.
Qed.

(** The reduce of [renderBars] over entries whose sizes are integers: it
    throws when a segment would be longer than the width, and otherwise
    pushes the segments of [drawn] and ends on the last size. *)
Lemma reduce_drawn (this : BarItem) (ps : list IProgress) (l : list Entry)
    (prev : Z) (lines : list string) :
  Forall (fun e => size e = of_Z (cellsOf e)) l ->
  Array_reduce (renderBars_step this ps) l (of_Z prev, lines)
  = if fits (width (options this)) prev (cellsOf <$> l)
    then Normal (of_Z (default prev (last (cellsOf <$> l))), lines ++ drawn this ps prev l)
    else Throw RangeError.
Proof.
  revert prev lines.
  induction l as [|e l IH]; intros prev lines Hl.
  { simpl. by rewrite app_nil_r. }
  apply Forall_cons in Hl as [He Hl].
  assert (Hlast : default prev (last (cellsOf <$> e :: l))
                  = default (cellsOf e) (last (cellsOf <$> l))).
  { rewrite fmap_cons, last_cons. by destruct (last (cellsOf <$> l)). }
  rewrite Hlast. cbn [Array_reduce renderBars_step fmap list_fmap drawn fits].
  rewrite He, gt_sub_of_Z.
  destruct (Z.ltb_spec prev (cellsOf e)) as [Hlt|Hge].
  - destruct (Z.leb_spec (cellsOf e) prev); [lia|]. cbn [orb].
    unfold renderBarsLine. rewrite getBarParts_sub, getBarParts_of_Z.
    destruct (Z.ltb_spec (cellsOf e - prev) 0); [lia|]. cbn [orb].
    destruct (Z.ltb_spec (width (options this)) (cellsOf e - prev));
      destruct (Z.leb_spec (cellsOf e - prev) (width (options this))); try lia; [done|].
    cbn [andb]. rewrite bind_Normal. cbn [done].
    cbn [mret Completion_ret]. rewrite !bind_Normal, IH by done.
    by rewrite <- app_assoc.
  - destruct (Z.leb_spec (cellsOf e) prev); [|lia]. cbn [orb andb].
    cbn [mret Completion_ret]. by rewrite bind_Normal, IH.
Qed.

(** The lines of [renderBars] over progresses with finite ratios. *)
Lemma renderBars_lines_drawn (this : BarItem) (ps : list IProgress) :
  Forall finite_ratio ps ->
  let w := width (options this) in
  let sorted := renderBars_sorted this ps in
  renderBars_lines this ps
  = if fits w 0 (cellsOf <$> sorted)
    then Normal (drawn this ps 0 sorted
                 ++ trailing_fill (resumeChar (options this)) w
                      (default 0 (last (cellsOf <$> sorted))))
    else Throw RangeError.
Proof.
  intros Hps w sorted.
  pose proof (sorted_finite this ps Hps) as Hfin. fold sorted in Hfin.
  unfold renderBars_lines. fold sorted.
  rewrite entries_consistent, (reduce_drawn this ps _ 0 [] Hfin) by done.
  fold w. destruct (fits w 0 (cellsOf <$> sorted)); [|done..].
  rewrite bind_Normal, gt_sub_of_Z, String_repeat_sub. unfold trailing_fill.
  destruct (Z.ltb_spec (default 0 (last (cellsOf <$> sorted))) w);
    [|by rewrite app_nil_r].
  destruct (Z.ltb_spec (w - default 0 (last (cellsOf <$> sorted))) 0); [lia|]. done.
Qed.

Lemma renderBarsLine_plain (this : BarItem) (ps : list IProgress) (item : IProgress)
    (a b : Z) :
  no_bar_formatter this ps -> item ∈ ps ->
  0 <= a - b <= width (options this) ->
  renderBarsLine this (sub (of_Z a) (of_Z b)) item ps
  = Normal (repeat_nat (completeChar (options this)) (Z.to_nat (a - b))).
Proof.
  intros [Hbar Htag] Hitem Hab. unfold renderBarsLine.
  rewrite getBarParts_sub, getBarParts_of_Z.
  destruct (Z.ltb_spec (a - b) 0); [lia|].
  destruct (Z.ltb_spec (width (options this)) (a - b)); [lia|].
  simpl. unfold segment_formatter. by rewrite (Htag item Hitem), Hbar.
Qed.

Lemma reduce_within_width (this : BarItem) (ps : list IProgress) (l : list Entry)
    (prev : Z) (lines : list string) :
  no_bar_formatter this ps ->
  (String.length (completeChar (options this)) <= 1)%nat ->
  0 <= prev <= width (options this) ->
  Forall (fun e => size e = of_Z (cellsOf e) /\ item e ∈ ps /\
                   prev <= cellsOf e <= width (options this)) l ->
  StronglySorted (fun a b => cellsOf a <= cellsOf b) l ->
  Z.of_nat (total_length lines) <= prev ->
  exists last lines',
    Array_reduce (renderBars_step this ps) l (of_Z prev, lines) = Normal (of_Z last, lines') /\
    prev <= last <= width (options this) /\
    Z.of_nat (total_length lines') <= last.
Proof.
  intros Hfmt Hc. revert prev lines.
  induction l as [|e l IH]; intros prev lines Hprev Hl Hs Hlen.
  { exists prev, lines. split; [done|]. lia. }
  apply Forall_cons in Hl as [(He & Hitem & Hz) Hl].
  apply StronglySorted_inv in Hs as [Hs Hle].
  assert (Hl' : Forall (fun e' => size e' = of_Z (cellsOf e') /\ item e' ∈ ps /\
                          cellsOf e <= cellsOf e' <= width (options this)) l).
  { apply Forall_forall. intros e' He'.
    destruct (proj1 (Forall_forall _ _) Hl e' He') as (? & ? & ?).
    pose proof (proj1 (Forall_forall _ _) Hle e' He') as Hee. simpl in Hee.
    repeat split; [done..|lia|lia]. }
  simpl. rewrite He, gt_sub_of_Z.
  destruct (Z.ltb_spec prev (cellsOf e)) as [Hlt|Hge].
  - rewrite (renderBarsLine_plain this ps) by (done || lia). simpl.
    destruct (IH (cellsOf e) (lines ++ [repeat_nat (completeChar (options this))
                                         (Z.to_nat (cellsOf e - prev))]))
      as (last & lines' & Hr & Hlast & Hlen'); [lia|done|done| |].
    { rewrite total_length_app. unfold total_length at 2. simpl.
      rewrite length_repeat_nat. nia. }
    exists last, lines'. split; [done|]. lia.
  - simpl.
    destruct (IH (cellsOf e) lines) as (last & lines' & Hr & Hlast & Hlen');
      [lia|done|done|lia|].
    exists last, lines'. split; [done|]. lia.
Qed.

(** ** The pieces of a template *)

Lemma source_text_app (l1 l2 : list piece) :
  source_text (l1 ++ l2) = source_text l1 +:+ source_text l2.
Proof.
  induction l1 as [|[c|g] l1 IH]; [done| |].
  - simpl. by rewrite IH.
  - simpl. by rewrite IH, app_assoc_string.
Qed.

Lemma source_text_text (s : string) : source_text (text s) = s.
Proof. induction s as [|c s IH]; [done|]. simpl. by rewrite IH. Qed.

(** The pieces are cut from the template and from nothing else. *)
Lemma matchAll_source (s : string) :
  source_text (matchAll None s) = s /\
  forall g, source_text (matchAll (Some g) s) = "{" +:+ g +:+ s.
Proof.
  induction s as [|c s [IHn IHs]].
  - split; [done|]. intros g. simpl. by rewrite source_text_text, app_empty_r.
  - split.
    + simpl. destruct (is_open c) eqn:Hc.
      * rewrite IHs. apply Ascii.eqb_eq in Hc as ->. done.
      * simpl. by rewrite IHn.
    + intros g. simpl. destruct (is_open c) eqn:Ho.
      * apply Ascii.eqb_eq in Ho as ->.
        change (Text "{"%char :: text g ++ matchAll (Some "") s)
          with ((Text "{"%char :: text g) ++ matchAll (Some "") s).
        rewrite source_text_app, IHs. simpl. rewrite source_text_text.
        rewrite !app_cons, !app_empty_l. done.
      * destruct (is_close c) eqn:Hc.
        -- apply Ascii.eqb_eq in Hc as ->.
           destruct g as [|c' g]; simpl; rewrite IHn; [done|].
           unfold matched. rewrite !app_cons, !app_empty_l, !app_cons.
           by rewrite app_assoc_string.
        -- rewrite IHs. rewrite !app_cons, !app_empty_l.
           by rewrite app_assoc_string.
Qed.

(** Every group is a non-empty string without braces. *)
Lemma matchAll_groups (s : string) :
  (forall g, Match g ∈ matchAll None s -> g <> "" /\ brace_free g = true) /\
  (forall g0 g, brace_free g0 = true ->
     Match g ∈ matchAll (Some g0) s -> g <> "" /\ brace_free g = true).
Proof.
  assert (Htext : forall t g, Match g ∉ text t).
  { induction t as [|c t IH]; intros g H; simpl in H; [by inversion H|].
    apply elem_of_cons in H as [H|H]; [done|]. by eapply IH. }
  induction s as [|c s [IHn IHs]].
  - split; intros; simpl in *.
    + by apply elem_of_nil in H.
    + apply elem_of_cons in H0 as [?|?]; [done|]. by apply Htext in H0.
  - split.
    + intros g H. simpl in H. destruct (is_open c).
      * by apply (IHs "").
      * apply elem_of_cons in H as [?|?]; [done|]. by apply IHn.
    + intros g0 g Hg0 H. simpl in H. destruct (is_open c) eqn:Ho.
      * apply elem_of_cons in H as [?|H]; [done|].
        apply elem_of_app in H as [H|H]; [by apply Htext in H|].
        by apply (IHs "").
      * destruct (is_close c) eqn:Hc.
        -- destruct g0 as [|c0 g0].
           ++ do 2 (apply elem_of_cons in H as [?|H]; [done|]). by apply IHn.
           ++ apply elem_of_cons in H as [H|H]; [|by apply IHn].
              inversion H; subst. done.
        -- apply (IHs (g0 +:+ String c "")); [|done..].
           clear -Hg0 Ho Hc. induction g0 as [|c0 g0 IH]; simpl in *.
           ++ by rewrite Ho, Hc.
           ++ apply andb_prop in Hg0 as [-> ?]. simpl. by apply IH.
Qed.

(** ** findIndex *)

Lemma Array_findIndex_range {A} (f : A -> bool) (l : list A) :
  -1 <= Array_findIndex f l < Z.of_nat (length l).
Proof.
  induction l as [|x l IH]; simpl; [lia|].
  destruct (f x); [lia|]. destruct (Z.ltb_spec (Array_findIndex f l) 0); lia.
Qed.

Lemma Array_findIndex_none {A} (f : A -> bool) (l : list A) :
  Forall (fun x => f x = false) l -> Array_findIndex f l = -1.
Proof.
  induction 1 as [|x l Hx _ IH]; [done|].
  simpl. by rewrite Hx, IH.
Qed.

Lemma Array_findIndex_first {A} (f : A -> bool) (l : list A) (i : nat) (x : A) :
  l !! i = Some x -> f x = true ->
  (forall j y, (j < i)%nat -> l !! j = Some y -> f y = false) ->
  Array_findIndex f l = Z.of_nat i.
Proof.
  revert i. induction l as [|y l IH]; intros i Hi Hx Hbefore; [done|].
  destruct i as [|i]; simpl in *.
  - inversion Hi; subst. by rewrite Hx.
  - rewrite (Hbefore 0%nat y) by (done || lia).
    rewrite (IH i Hi Hx).
    + destruct (Z.ltb_spec (Z.of_nat i) 0); lia.
    + intros j z Hj Hz. apply (Hbefore (S j)); [lia|done..].
Qed.

Lemma Array_findIndex_found {A} (f : A -> bool) (l : list A) (i : Z) :
  Array_findIndex f l = i -> 0 <= i ->
  exists x, l !! Z.to_nat i = Some x /\ f x = true.
Proof.
  revert i. induction l as [|y l IH]; intros i Hi Hpos; simpl in Hi; [lia|].
  destruct (f y) eqn:Hy.
  - subst i. by exists y.
  - destruct (Z.ltb_spec (Array_findIndex f l) 0); [lia|].
    destruct (IH (Array_findIndex f l)) as (x & Hx & Hfx); [done|lia|].
    exists x. split; [|done..]. subst i.
    replace (Z.to_nat (Array_findIndex f l + 1)) with (S (Z.to_nat (Array_findIndex f l))) by lia.
    done.
Qed.

Lemma Array_findIndex_fmap {A B} (f : A -> B) (test : B -> bool) (l : list A) :
  Array_findIndex test (f <$> l) = Array_findIndex (fun x => test (f x)) l.
Proof.
  induction l as [|x l IH]; [done|].
  rewrite fmap_cons. cbn [Array_findIndex]. by rewrite IH.
Qed.

(** ** The callback of render *)

Arguments render_callback : simpl never.
Arguments property_and_tag : simpl never.
Arguments resolve_index : simpl never.
Arguments matched : simpl never.

Lemma getCounterByProperty_eq (max : Z) (key : string) (map : gmap string Z) :
  getCounterByProperty max key map
  = (if default 0 (map !! key) <? max then default 0 (map !! key) else -1,
     <[key := default 0 (map !! key) + 1]> map).
Proof.
  unfold getCounterByProperty.
  destruct (Z.geb_spec (default 0 (map !! key)) max), (Z.ltb_spec (default 0 (map !! key)) max);
    (done || lia).
Qed.

(** The callback resolves an index, then returns the placeholder when the
    index is negative and the value of the progress at that index
    otherwise; its [Map] is the one left by the resolution. *)
Lemma render_callback_eq (digits : Q -> string) (this : BarItem) (g : string)
    (map : gmap string Z) (property : string) (tag : option string) :
  property_and_tag this g = (property, tag) ->
  render_callback digits this (matched g) g map
  = (let '(index, map') := resolve_index this property tag map in
     (if index <? 0 then Normal (matched g)
      else match progresses this !! Z.to_nat index with
           | None => Throw TypeError
           | Some progress => bound_to digits this g property progress
           end) ≫= fun r => Normal (r, map')).
Proof.
  intros Hg. unfold render_callback. rewrite Hg.
  destruct (resolve_index this property tag map) as [index map'].
  destruct (index <? 0); [done|].
  destruct (progresses this !! Z.to_nat index) as [progress|]; [|done..].
  unfold bound_to.
  destruct (getDataValue digits this property progress) as [[v|]| |]; [|done..].
  simpl. by destruct (format this g v progress).
Qed.

Lemma render_callback_map (digits : Q -> string) (this : BarItem) (g r : string)
    (map map' : gmap string Z) (property : string) (tag : option string) :
  property_and_tag this g = (property, tag) ->
  render_callback digits this (matched g) g map = Normal (r, map') ->
  map' = snd (resolve_index this property tag map).
Proof.
  intros Hg. rewrite (render_callback_eq _ _ _ _ _ _ Hg).
  destruct (resolve_index this property tag map) as [index map'']. simpl.
  destruct (if index <? 0 then _ else _); simpl; congruence.
Qed.

(** [replace] over a placeholder in the middle of the template. *)
Lemma String_replace_middle (digits : Q -> string) (this : BarItem)
    (pre post : list piece) (g : string) (map : gmap string Z) :
  String_replace (render_callback digits this) (pre ++ Match g :: post) map
  = String_replace (render_callback digits this) pre map ≫= fun s1 =>
    render_callback digits this (matched g) g (counters_after this pre map) ≫= fun '(r, map') =>
    String_replace (render_callback digits this) post map' ≫= fun s2 =>
    Normal (s1 +:+ r +:+ s2).
Proof.
  revert map. induction pre as [|[c|g'] pre IH]; intros map.
  - simpl. destruct (render_callback digits this (matched g) g map) as [[r map']| |]; [|done..].
    simpl. by destruct (String_replace _ post map').
  - simpl. rewrite IH, fmap_bind, !bind_assoc.
    destruct (String_replace _ pre map) as [s1| |]; [|done..]. simpl.
    destruct (render_callback _ _ _ _ _) as [[r map']| |]; [|done..]. simpl.
    by destruct (String_replace _ post map').
  - change ((Match g' :: pre) ++ Match g :: post)
      with (Match g' :: (pre ++ Match g :: post)).
    cbn [String_replace counters_after].
    destruct (property_and_tag this g') as [property tag] eqn:Hg'.
    destruct (render_callback digits this (matched g') g' map) as [[r' map']| |] eqn:Hcb; [|done..].
    rewrite !bind_Normal.
    rewrite <- (render_callback_map _ _ _ _ _ _ _ _ Hg' Hcb), IH.
    destruct (String_replace _ pre map') as [s1| |]; [|done..]. simpl.
    destruct (render_callback digits this (matched g) g _) as [[r map'']| |]; [|done..]. simpl.
    destruct (String_replace _ post map''); [|done..]. simpl.
    by rewrite app_assoc_string.
Qed.

Lemma occurrences_cons (this : BarItem) (property : string) (p : piece)
    (pieces : list piece) :
  occurrences this property (p :: pieces)
  = ((if is_untagged this property p then 1 else 0) + occurrences this property pieces)%nat.
Proof.
  unfold occurrences. destruct (is_untagged this property p) eqn:E.
  - rewrite filter_cons_True by (by apply Is_true_true). done.
  - rewrite filter_cons_False by (by apply Is_true_false). done.
Qed.

Lemma occurrences_app (this : BarItem) (property : string) (l1 l2 : list piece) :
  occurrences this property (l1 ++ l2)
  = (occurrences this property l1 + occurrences this property l2)%nat.
Proof. unfold occurrences. by rewrite filter_app, length_app. Qed.

(** The counter of a property counts its untagged occurrences. *)
Lemma counters_after_lookup (this : BarItem) (pieces : list piece)
    (map : gmap string Z) (property : string) :
  default 0 (counters_after this pieces map !! property)
  = default 0 (map !! property) + Z.of_nat (occurrences this property pieces).
Proof.
  revert map. induction pieces as [|[c|g] pieces IH]; intros map.
  - unfold occurrences. simpl. lia.
  - simpl. rewrite IH, occurrences_cons. simpl. lia.
  - rewrite occurrences_cons. cbn [counters_after is_untagged].
    destruct (property_and_tag this g) as [property' tag] eqn:Hg.
    rewrite IH. unfold resolve_index.
    destruct tag as [t|].
    + rewrite bool_decide_eq_false_2 by congruence. simpl. lia.
    + rewrite getCounterByProperty_eq. simpl.
      destruct (decide (property' = property)) as [->|Hne].
      * rewrite lookup_insert_eq, bool_decide_eq_true_2 by done. simpl. lia.
      * rewrite lookup_insert_ne by done.
        rewrite bool_decide_eq_false_2 by congruence. simpl. lia.
Qed.

Lemma counters_after_app (this : BarItem) (l1 l2 : list piece) (map : gmap string Z) :
  counters_after this (l1 ++ l2) map = counters_after this l2 (counters_after this l1 map).
Proof.
  revert map. induction l1 as [|[c|g] l1 IH]; intros map; [done|apply IH|].
  change ((Match g :: l1) ++ l2) with (Match g :: (l1 ++ l2)).
  cbn [counters_after]. destruct (property_and_tag this g). apply IH.
Qed.

(** Placeholders with a tag leave the counters as they are. *)
Lemma counters_after_untagged (this : BarItem) (pieces : list piece)
    (map : gmap string Z) :
  counters_after this pieces map
  = counters_after this (filter (fun p => ¬ is_tagged this p) pieces) map.
Proof.
  revert map. induction pieces as [|[c|g] pieces IH]; intros map; [done| |].
  - rewrite filter_cons_True by (simpl; auto). apply IH.
  - destruct (property_and_tag this g) as [property tag] eqn:Hg.
    destruct tag as [t|].
    + rewrite filter_cons_False.
      2:{ intros Hn. apply Hn. cbn [is_tagged]. rewrite Hg. by apply bool_decide_pack. }
      cbn [counters_after]. rewrite Hg. apply IH.
    + rewrite filter_cons_True.
      2:{ cbn [is_tagged]. rewrite Hg. intros [? ?]%bool_decide_unpack. done. }
      cbn [counters_after]. rewrite Hg. apply IH.
Qed.

Lemma occurrences_untagged (this : BarItem) (property : string) (pieces : list piece) :
  occurrences this property pieces
  = occurrences this property (filter (fun p => ¬ is_tagged this p) pieces).
Proof.
  induction pieces as [|p pieces IH]; [done|].
  rewrite occurrences_cons.
  destruct (is_tagged this p) eqn:Ht.
  - rewrite filter_cons_False by (intros Hn; apply Hn; by apply Is_true_true).
    destruct p as [c|g]; [done|]. cbn [is_tagged is_untagged] in *.
    apply bool_decide_eq_true in Ht as [t Ht].
    rewrite bool_decide_eq_false_2; [done|].
    intros Hg. rewrite Hg in Ht. done.
  - rewrite filter_cons_True by (by apply Is_true_false).
    by rewrite occurrences_cons, IH.
Qed.

(** What [next(property)] returns after the pieces [pre] of a template. *)
Lemma resolve_untagged (this : BarItem) (pre : list piece) (property : string) :
  resolve_index this property None (counters_after this pre ∅)
  = (if (occurrences this property pre <? length (progresses this))%nat
     then Z.of_nat (occurrences this property pre) else -1,
     <[property := Z.of_nat (occurrences this property pre) + 1]>
       (counters_after this pre ∅)).
Proof.
  unfold resolve_index. rewrite getCounterByProperty_eq.
  assert (default 0 (counters_after this pre ∅ !! property)
          = Z.of_nat (occurrences this property pre)) as ->.
  { rewrite counters_after_lookup, lookup_empty. simpl. lia. }
  destruct (Nat.ltb_spec (occurrences this property pre) (length (progresses this))),
    (Z.ltb_spec (Z.of_nat (occurrences this property pre))
       (Z.of_nat (length (progresses this)))); (done || lia).
Qed.

(** ** split *)

Lemma prefix_app (sep s : string) :
  String.prefix sep s = true -> exists rest, s = sep +:+ rest.
Proof.
  revert s. induction sep as [|c sep IH]; intros s H; [by exists s|].
  destruct s as [|c' s]; simpl in H; [done|].
  destruct (Ascii.ascii_dec c c') as [->|]; [|done..].
  destruct (IH s H) as [rest ->]. by exists rest.
Qed.

Lemma split_from_skip (sep t rest cur : string) :
  split_from sep (String.length t) cur (t +:+ rest) = split_from sep 0 cur rest.
Proof. induction t as [|c t IH]; [by destruct rest|]. simpl. apply IH. Qed.

Lemma split_from_nonempty (sep : string) (skip : nat) (cur s : string) :
  split_from sep skip cur s <> [].
Proof.
  revert skip cur. induction s as [|c s IH]; intros skip cur; [done|].
  cbn [split_from]. destruct skip; [|apply IH].
  destruct (String.prefix sep (String c s)); [done|apply IH].
Qed.

Lemma Array_join_cons (sep s : string) (l : list string) :
  l <> [] -> Array_join sep (s :: l) = s +:+ sep +:+ Array_join sep l.
Proof. by destruct l. Qed.

Lemma join_split_from (sep : string) (n : nat) (s cur : string) :
  sep <> "" -> (String.length s <= n)%nat ->
  Array_join sep (split_from sep 0 cur s) = cur +:+ s.
Proof.
  intros Hsep. revert s cur. induction n as [|n IH]; intros s cur Hn.
  { destruct s; [|simpl in Hn; lia]. simpl. by rewrite app_empty_r. }
  destruct s as [|c s]; [simpl; by rewrite app_empty_r|].
  cbn [split_from].
  destruct (String.prefix sep (String c s)) eqn:Hp.
  - apply prefix_app in Hp as [rest Hrest].
    destruct sep as [|c0 sep]; [done|].
    rewrite app_cons in Hrest. inversion Hrest; subst c0 s.
    cbn [String.length Nat.pred]. rewrite split_from_skip.
    rewrite Array_join_cons by apply split_from_nonempty.
    rewrite IH; [done|].
    simpl in Hn. rewrite length_app_string in Hn. lia.
  - rewrite IH by (simpl in Hn; lia).
    by rewrite app_assoc_string.
Qed.

(** For a separator that is not empty, the pieces of [split] joined by
    the separator give the string back. *)
Lemma join_split (s sep : string) :
  sep <> "" -> Array_join sep (String_split s sep) = s.
Proof.
  intros Hsep. unfold String_split. destruct sep as [|c sep]; [done|].
  by rewrite (join_split_from _ (String.length s)).
Qed.

Lemma String_split_nonempty (s sep : string) :
  sep <> "" -> String_split s sep <> [].
Proof.
  intros Hsep. unfold String_split. destruct sep; [done|]. apply split_from_nonempty.
Qed.

(** The property is the last piece of the interior, the tag the piece
    before it when that piece is not empty. *)
Lemma property_and_tag_last (this : BarItem) (g : string) (front : list string)
    (property : string) :
  String_split g (tagDelimiter this) = front ++ [property] ->
  property_and_tag this g
  = (property, match last front with
               | Some "" | None => None
               | Some t => Some t
               end).
Proof.
  intros Hsplit. unfold property_and_tag.
  rewrite Hsplit, reverse_app. simpl.
  change (reverse [property]) with [property]. simpl.
  by rewrite <- head_lookup, head_reverse.
Qed.

(** ** Rendering without the clock *)

Lemma Array_sort_fmap {A B} (f : A -> B) (cmpA : A -> A -> number)
    (cmpB : B -> B -> number) (l : list A) :
  (forall x y, cmpB (f x) (f y) = cmpA x y) ->
  Array_sort cmpB (f <$> l) = f <$> Array_sort cmpA l.
Proof.
  intros Hcmp.
  assert (Hins : forall x l', sort_insert cmpB (f x) (f <$> l') = f <$> sort_insert cmpA x l').
  { intros x l'. induction l' as [|y l' IH]; [done|].
    rewrite fmap_cons. cbn [sort_insert]. unfold comes_after. rewrite Hcmp.
    destruct (gt (cmpA x y) (of_Z 0)); [|by rewrite !fmap_cons].
    rewrite fmap_cons. f_equal. apply IH. }
  induction l as [|x l IH]; [done|].
  rewrite fmap_cons. cbn [Array_sort]. by rewrite IH, Hins.
Qed.

Lemma entries_still (this : BarItem) (ps : list IProgress) :
  renderBars_entries this (still <$> ps) = still_entry <$> renderBars_entries this ps.
Proof. unfold renderBars_entries. rewrite imap_fmap, fmap_imap. by apply imap_ext. Qed.

Lemma sorted_still (this : BarItem) (ps : list IProgress) :
  renderBars_sorted this (still <$> ps) = still_entry <$> renderBars_sorted this ps.
Proof. unfold renderBars_sorted. rewrite entries_still. by apply Array_sort_fmap. Qed.

Section Still.
Context (this : BarItem).
Hypothesis formatters_still :
  forall key f, formatters this !! key = Some f ->
    forall s p ps, f s p ps = f s (still p) (still <$> ps).

Lemma renderBarsLine_still (len : number) (p : IProgress) (ps : list IProgress) :
  renderBarsLine this len (still p) (still <$> ps) = renderBarsLine this len p ps.
Proof.
  unfold renderBarsLine, segment_formatter.
  change (getBarParts this len (still p)) with (getBarParts this len p).
  change (getTag (still p)) with (getTag p).
  destruct (getBarParts this len p) as [parts| |]; [|done..].
  rewrite !bind_Normal.
  destruct (formatters this !! (tagText (getTag p) +:+ tagDelimiter this +:+ "bar"))
    as [f|] eqn:Hf.
  - by rewrite <- (formatters_still _ _ Hf).
  - destruct (formatters this !! "bar") as [f|] eqn:Hbar; [|done..].
    by rewrite <- (formatters_still _ _ Hbar).
Qed.

Lemma reduce_still (ps : list IProgress) (l : list Entry) (acc : number * list string) :
  Array_reduce (renderBars_step this (still <$> ps)) (still_entry <$> l) acc
  = Array_reduce (renderBars_step this ps) l acc.
Proof.
  revert acc. induction l as [|e l IH]; intros [prev lines]; [done|].
  simpl. destruct (gt (sub (size e) prev) (of_Z 0)).
  - rewrite renderBarsLine_still.
    destruct (renderBarsLine this _ (item e) ps); [apply IH|done..].
  - apply IH.
Qed.

Lemma renderBars_still (ps : list IProgress) :
  renderBars this (still <$> ps) = renderBars this ps.
Proof.
  unfold renderBars, renderBars_lines.
  rewrite sorted_still, reduce_still, entries_still, <- list_fmap_compose.
  done.
Qed.
End Still.

Lemma builtin_still (digits : Q -> string) (this : BarItem) (ps : list IProgress)
    (property : string) (p : IProgress) :
  (forall key f, formatters this !! key = Some f ->
     forall s p ps, f s p ps = f s (still p) (still <$> ps)) ->
  property ∉ clock_properties ->
  match builtinProviders digits (with_progresses this (still <$> ps)) property,
        builtinProviders digits (with_progresses this ps) property with
  | Some f', Some f => f' (still p) (still <$> ps) = f p ps
  | None, None => True
  | _, _ => False
  end.
Proof.
  intros Hfmt Hclock. unfold builtinProviders.
  destruct (String.eqb_spec property "bars").
  { apply (renderBars_still (with_progresses this ps) Hfmt). }
  destruct (String.eqb_spec property "bar"); [done|].
  destruct (String.eqb_spec property "speed") as [->|_].
  { exfalso. apply Hclock. unfold clock_properties. set_solver. }
  destruct (String.eqb_spec property "eta") as [->|_].
  { exfalso. apply Hclock. unfold clock_properties. set_solver. }
  destruct (String.eqb_spec property "value"); [done|].
  destruct (String.eqb_spec property "total"); [done|].
  destruct (String.eqb_spec property "percentage"); [done|].
  destruct (String.eqb_spec property "duration") as [->|_]; [|done..].
  exfalso. apply Hclock. unfold clock_properties. set_solver.
Qed.

Lemma getDataValue_still (digits : Q -> string) (this : BarItem) (ps : list IProgress)
    (property : string) (p : IProgress) :
  (forall key f, formatters this !! key = Some f ->
     forall s p ps, f s p ps = f s (still p) (still <$> ps)) ->
  (forall key f, customProviders this !! key = Some f ->
     forall p ps, f p ps = f (still p) (still <$> ps)) ->
  property ∉ clock_properties ->
  getDataValue digits (with_progresses this (still <$> ps)) property (still p)
  = getDataValue digits (with_progresses this ps) property p.
Proof.
  intros Hfmt Hprov Hclock. unfold getDataValue, dataProviders.
  change (getPayload (still p)) with (getPayload p).
  destruct (get (getPayload p) property) as [v|name|]; [done..|].
  change (customProviders (with_progresses this (still <$> ps)))
    with (customProviders this).
  change (customProviders (with_progresses this ps)) with (customProviders this).
  change (progresses (with_progresses this (still <$> ps))) with (still <$> ps).
  change (progresses (with_progresses this ps)) with ps.
  destruct (customProviders this !! property) as [f|] eqn:Hf.
  { by rewrite <- (Hprov _ _ Hf). }
  pose proof (builtin_still digits this ps property p Hfmt Hclock) as Hb.
  destruct (builtinProviders digits (with_progresses this (still <$> ps)) property),
    (builtinProviders digits (with_progresses this ps) property); try done.
  - by rewrite Hb.
  - by destruct (bool_decide (property ∈ inherited)).
Qed.

Lemma format_still (this : BarItem) (ps : list IProgress) (g : string) (v : Value)
    (p : IProgress) :
  (forall key f, formatters this !! key = Some f ->
     forall s p ps, f s p ps = f s (still p) (still <$> ps)) ->
  format (with_progresses this (still <$> ps)) g v (still p)
  = format (with_progresses this ps) g v p.
Proof.
  intros Hfmt. unfold format, get.
  change (formatters (with_progresses this (still <$> ps))) with (formatters this).
  change (formatters (with_progresses this ps)) with (formatters this).
  change (progresses (with_progresses this (still <$> ps))) with (still <$> ps).
  change (progresses (with_progresses this ps)) with ps.
  destruct (formatters this !! g) as [f|] eqn:Hf; [|by destruct (bool_decide _)].
  destruct v as [s|name]; [|done]. by rewrite <- (Hfmt _ _ Hf).
Qed.

Lemma render_callback_still (digits : Q -> string) (this : BarItem) (ps : list IProgress)
    (g : string) (map : gmap string Z) :
  (forall key f, formatters this !! key = Some f ->
     forall s p ps, f s p ps = f s (still p) (still <$> ps)) ->
  (forall key f, customProviders this !! key = Some f ->
     forall p ps, f p ps = f (still p) (still <$> ps)) ->
  fst (property_and_tag this g) ∉ clock_properties ->
  render_callback digits (with_progresses this (still <$> ps)) (matched g) g map
  = render_callback digits (with_progresses this ps) (matched g) g map.
Proof.
  intros Hfmt Hprov Hclock.
  destruct (property_and_tag this g) as [property tag] eqn:Hg. simpl in Hclock.
  rewrite (render_callback_eq digits (with_progresses this (still <$> ps)) g map property tag Hg).
  rewrite (render_callback_eq digits (with_progresses this ps) g map property tag Hg).
  assert (Hidx : resolve_index (with_progresses this (still <$> ps)) property tag map
                 = resolve_index (with_progresses this ps) property tag map).
  { unfold resolve_index. simpl. destruct tag as [t|]; [|by rewrite length_fmap].
    by rewrite Array_findIndex_fmap. }
  rewrite Hidx. destruct (resolve_index (with_progresses this ps) property tag map) as [i map'].
  destruct (i <? 0); [done|]. simpl. rewrite list_lookup_fmap.
  destruct (ps !! Z.to_nat i) as [p|]; [|done..]. simpl.
  unfold bound_to. rewrite (getDataValue_still digits this ps property p Hfmt Hprov Hclock).
  destruct (getDataValue digits (with_progresses this ps) property p) as [[v|]| |]; [|done..].
  rewrite !bind_Normal. by rewrite format_still.
Qed.

Lemma String_replace_still (digits : Q -> string) (this : BarItem) (ps : list IProgress)
    (pieces : list piece) (map : gmap string Z) :
  (forall key f, formatters this !! key = Some f ->
     forall s p ps, f s p ps = f s (still p) (still <$> ps)) ->
  (forall key f, customProviders this !! key = Some f ->
     forall p ps, f p ps = f (still p) (still <$> ps)) ->
  Forall (fun piece => match piece with
                       | Match g => fst (property_and_tag this g) ∉ clock_properties
                       | Text _ => True
                       end) pieces ->
  String_replace (render_callback digits (with_progresses this (still <$> ps))) pieces map
  = String_replace (render_callback digits (with_progresses this ps)) pieces map.
Proof.
  intros Hfmt Hprov Hpieces. revert map.
  induction Hpieces as [|[c|g] pieces Hpiece _ IH]; intros map; [done| |].
  - simpl. by rewrite IH.
  - cbn [String_replace]. rewrite (render_callback_still digits this ps g map) by done.
    destruct (render_callback digits (with_progresses this ps) (matched g) g map)
      as [[r map']| |]; [|done..].
    simpl. by rewrite IH.
Qed.

(** ** Calls in a world *)

Lemma referenced_increment (w : World) (refs : list nat) (ref : nat) (amount : number) :
  ref ∉ refs ->
  omap (fun r => alter (increment amount) ref (heap w) !! r) refs
  = omap (fun r => heap w !! r) refs.
Proof.
  induction refs as [|r refs IH]; intros Href; [done|].
  apply not_elem_of_cons in Href as [Hne Href].
  cbn [omap list_omap]. rewrite list_lookup_alter_ne by done.
  destruct (heap w !! r); by rewrite <- IH.
Qed.

Lemma BarItem_at_frame (w w' : World) (h : Handle) :
  heap w' = heap w -> now w' = now w -> BarItem_at w' h = BarItem_at w h.
Proof.
  intros Hheap Hnow. unfold BarItem_at, views, referenced. by rewrite Hheap, Hnow.
Qed.

(** The callback of [render] in a world writes to its counter only, and
    returns what the callback over the views of the progresses returns. *)
Lemma render_callback_in_spec (digits : Q -> string) (h : Handle) (counter : nat)
    (match_ prop : string) (w : World) :
  (counter < length (maps w))%nat ->
  let this := BarItem_at w h in
  let max := Z.of_nat (length (progresses this)) in
  let w' := fst (render_callback_in digits h max counter match_ prop w) in
  heap w' = heap w /\ now w' = now w /\ length (maps w') = length (maps w) /\
  (forall i, i <> counter -> maps w' !! i = maps w !! i) /\
  render_callback digits this match_ prop (Map_at w counter)
  = (fun r => (r, Map_at w' counter))
      <$> snd (render_callback_in digits h max counter match_ prop w).
Proof.
  intros Hcounter this max w'. subst w'. unfold render_callback_in, render_callback.
  change (property_and_tag this prop) with (property_and_tag (fields h) prop).
  destruct (property_and_tag (fields h) prop) as [property [tag|]].
  - unfold resolve_index. cbn [fst snd]. fold this.
    repeat split; [done..|].
    destruct (Array_findIndex (has_tag tag) (progresses this) <? 0); [done|].
    destruct (progresses this !! Z.to_nat (Array_findIndex (has_tag tag) (progresses this)))
      as [progress|]; [|done].
    destruct (getDataValue digits this property progress) as [[v|]| |]; [|done..].
    cbn [mbind Completion_bind]. by destruct (format this prop v progress).
  - unfold resolve_index, next. fold max.
    destruct (getCounterByProperty max property (Map_at w counter)) as [index map] eqn:Hnext.
    cbn [fst snd now heap maps].
    set (w1 := {| now := now w; heap := heap w;
                  maps := <[counter := map]> (maps w) |}).
    assert (Hthis : BarItem_at w1 h = this) by (by apply BarItem_at_frame).
    assert (Hmap : Map_at w1 counter = map).
    { unfold Map_at, w1. cbn [maps]. by rewrite list_lookup_insert_eq. }
    rewrite Hthis, Hmap.
    split; [done|]. split; [done|]. split; [by rewrite length_insert|].
    split; [intros i Hi; by rewrite list_lookup_insert_ne|].
    destruct (index <? 0); [done|].
    destruct (progresses this !! Z.to_nat index) as [progress|]; [|done].
    destruct (getDataValue digits this property progress) as [[v|]| |]; [|done..].
    cbn [mbind Completion_bind]. by destruct (format this prop v progress).
Qed.

Lemma String_replace_in_spec (digits : Q -> string) (h : Handle) (counter : nat)
    (pieces : list piece) (w : World) :
  (counter < length (maps w))%nat ->
  let this := BarItem_at w h in
  let max := Z.of_nat (length (progresses this)) in
  let result := String_replace_in (render_callback_in digits h max counter) pieces w in
  heap (fst result) = heap w /\ now (fst result) = now w /\
  length (maps (fst result)) = length (maps w) /\
  (forall i, i <> counter -> maps (fst result) !! i = maps w !! i) /\
  snd result = String_replace (render_callback digits this) pieces (Map_at w counter).
Proof.
  revert w. induction pieces as [|[c|g] rest IH]; intros w Hcounter this max result;
    subst result.
  - done.
  - cbn [String_replace_in String_replace].
    destruct (IH w Hcounter) as (Hheap & Hnow & Hlen & Hmaps & Hout).
    fold this max in Hheap, Hnow, Hlen, Hmaps, Hout.
    destruct (String_replace_in (render_callback_in digits h max counter) rest w)
      as [w' out].
    cbn [fst snd] in *. by rewrite Hout.
  - cbn [String_replace_in String_replace].
    destruct (render_callback_in_spec digits h counter (matched g) g w Hcounter)
      as (Hheap & Hnow & Hlen & Hmaps & Hcall).
    fold this max in Hheap, Hnow, Hlen, Hmaps, Hcall.
    rewrite Hcall.
    destruct (render_callback_in digits h max counter (matched g) g w) as [w1 r].
    cbn [fst snd] in *.
    destruct r as [r| |]; [|done..].
    assert (Hthis : BarItem_at w1 h = this) by (by apply BarItem_at_frame).
    assert (Hcounter1 : (counter < length (maps w1))%nat) by (by rewrite Hlen).
    destruct (IH w1 Hcounter1) as (Hheap' & Hnow' & Hlen' & Hmaps' & Hout).
    rewrite Hthis in Hheap', Hnow', Hlen', Hmaps', Hout.
    fold max in Hheap', Hnow', Hlen', Hmaps', Hout.
    destruct (String_replace_in (render_callback_in digits h max counter) rest w1)
      as [w2 out].
    cbn [fst snd fmap Completion_fmap mbind Completion_bind] in *.
    split; [congruence|]. split; [congruence|]. split; [congruence|].
    split; [intros i Hi; by rewrite Hmaps', Hmaps|].
    rewrite Hout.
    by destruct (String_replace (render_callback digits this) rest (Map_at w1 counter)).
Qed.

(** [render] in a world leaves the progresses, the clock and the Maps of
    the world as they are, creates one Map, and returns what [render]
    returns over the views of the progresses. *)
Lemma render_in_spec (digits : Q -> string) (h : Handle) (w : World) :
  heap (fst (render_in digits h w)) = heap w /\
  now (fst (render_in digits h w)) = now w /\
  length (maps (fst (render_in digits h w))) = S (length (maps w)) /\
  (forall i, (i < length (maps w))%nat ->
     maps (fst (render_in digits h w)) !! i = maps w !! i) /\
  snd (render_in digits h w) = render digits (BarItem_at w h).
Proof.
  unfold render_in, new_Map.
  set (w0 := {| now := now w; heap := heap w; maps := maps w ++ [∅] |}).
  assert (Hthis : BarItem_at w0 h = BarItem_at w h) by (by apply BarItem_at_frame).
  assert (Hcounter : (length (maps w) < length (maps w0))%nat).
  { unfold w0. cbn [maps]. rewrite length_app. simpl. lia. }
  destruct (String_replace_in_spec digits h (length (maps w))
              (matchAll None (template (fields h))) w0 Hcounter)
    as (Hheap & Hnow & Hlen & Hmaps & Hout).
  rewrite Hthis in Hheap, Hnow, Hlen, Hmaps, Hout.
  split; [done|]. split; [done|]. split.
  { rewrite Hlen. unfold w0. cbn [maps]. rewrite length_app. simpl. lia. }
  split.
  { intros i Hi. rewrite Hmaps by lia. unfold w0. cbn [maps].
    by rewrite lookup_app_l. }
  rewrite Hout. unfold render. do 2 f_equal.
  unfold Map_at, w0. cbn [maps].
  by rewrite lookup_app_r, Nat.sub_diag by lia.
Qed.

(** With the same referenced progresses on the heap, a clock-free BarItem
    renders the same string whatever the clock shows. *)
Lemma render_any_time (digits : Q -> string) (h : Handle) (w1 w2 : World) :
  clock_free (fields h) -> referenced w1 (refs h) = referenced w2 (refs h) ->
  render digits (BarItem_at w1 h) = render digits (BarItem_at w2 h).
Proof.
  intros (Hfmt & Hprov & Hpieces) Hheap.
  assert (Hstill : forall w, render digits (BarItem_at w h)
            = render digits (with_progresses (fields h) (still <$> views w (refs h)))).
  { intros w. unfold render, BarItem_at. simpl. symmetry.
    by apply String_replace_still. }
  rewrite (Hstill w1), (Hstill w2). do 2 f_equal.
  unfold views. rewrite Hheap, <- !list_fmap_compose. by apply list_fmap_ext.
Qed.

(** The [Render] calls of a sequence return the same string as long as
    every call keeps what the string is read from. *)
Lemma outputs_constant (digits : Q -> string) (h : Handle) (keeps : Call -> Prop)
    (same : World -> World -> Prop) (w : World) :
  (forall w1, same w w1 ->
     render digits (BarItem_at w1 h) = render digits (BarItem_at w h)) ->
  (forall w1 c, keeps c -> same w w1 -> same w (fst (call digits h w1 c))) ->
  forall cs w1, Forall keeps cs -> same w w1 ->
    outputs digits h w1 cs = replicate (renders cs) (render digits (BarItem_at w h)).
Proof.
  intros Hrender Hcall cs.
  induction cs as [|c cs IH]; intros w1 Hcs Hsame; [done|].
  apply Forall_cons in Hcs as [Hc Hcs].
  pose proof (Hcall w1 c Hc Hsame) as Hnext.
  cbn [outputs]. destruct c as [ref amount|ms|].
  - cbn [call renders] in *. by apply IH.
  - cbn [call renders] in *. by apply IH.
  - cbn [call renders] in *.
    pose proof (render_in_spec digits h w1) as (_ & _ & _ & _ & Hout).
    destruct (render_in digits h w1) as [w2 out]. cbn [fst snd] in *.
    rewrite Hout, (Hrender w1 Hsame). cbn [replicate]. f_equal. by apply IH.
Qed.

(** ** A bar past its width *)

(** [bar] throws as soon as the rounded size is negative or larger than
    the width. *)
Lemma bar_outside_width (this : BarItem) (k : Q) (progress : IProgress) :
  cells (width (options this)) k < 0 \/ width (options this) < cells (width (options this)) k ->
  bar this (Num k) progress = Throw RangeError.
Proof.
  intros Hout. unfold bar. rewrite Math_round_cells, getBarParts_of_Z.
  destruct (Z.ltb_spec (cells (width (options this)) k) 0); [done|].
  destruct (Z.ltb_spec (width (options this)) (cells (width (options this)) k)); [done|lia].
Qed.

(** ** The claims *)

Section Claims.
Variable digits : Q -> string.

(** C1, as amended.  When no formatter applies to the segments,
    completeChar and resumeChar are at most one character long and the
    width is not negative, then for progresses whose ratios all lie in
    [0,1] [renderBars] returns its lines joined by glue, and the total
    length of the lines (segments and trailing fill, glue excluded) is at
    most width. *)
Theorem renderBars_within_width (this : BarItem) (ps : list IProgress) :
  0 <= width (options this) ->
  (String.length (completeChar (options this)) <= 1)%nat ->
  (String.length (resumeChar (options this)) <= 1)%nat ->
  no_bar_formatter this ps ->
  Forall unit_ratio ps ->
  exists lines,
    renderBars_lines this ps = Normal lines /\
    renderBars this ps = Normal (Array_join (glue (options this)) lines) /\
    Z.of_nat (total_length lines) <= width (options this).
Proof.
  intros Hw Hc Hr Hfmt Hps.
  assert (Hfin : Forall finite_ratio ps).
  { eapply Forall_impl; [exact Hps|]. intros p (k & Hk & _). by exists k. }
  pose proof (sorted_precedes this ps Hfin) as Hsorted.
  assert (Hall : Forall (fun e => size e = of_Z (cellsOf e) /\ item e ∈ ps /\
                           0 <= cellsOf e <= width (options this))
                   (renderBars_sorted this ps)).
  { rewrite sorted_perm. apply Forall_forall. intros e He.
    destruct (proj1 (Forall_forall _ _) (entries_unit this ps Hw Hps) e He) as [? ?].
    apply entries_elem in He as [He _].
    repeat split; [done| |lia..]. by eapply list_elem_of_lookup_2. }
  destruct (reduce_within_width this ps (renderBars_sorted this ps) 0 [])
    as (last & lines & Hred & Hlast & Hlen); [done|done|lia|done| |done|].
  { eapply StronglySorted_weaken; [|exact Hsorted].
    intros a b _ _ [?|[? ?]]; lia. }
  assert (Hlines : exists lines', renderBars_lines this ps = Normal lines' /\
                     Z.of_nat (total_length lines') <= width (options this)).
  { unfold renderBars_lines. rewrite entries_consistent, Hred by done.
    unfold mbind, Completion_bind. cbv beta iota.
    rewrite gt_sub_of_Z, String_repeat_sub.
    destruct (Z.ltb_spec last (width (options this))) as [Hlt|Hge].
    - destruct (Z.ltb_spec (width (options this) - last) 0); [lia|].
      eexists. split; [reflexivity|].
      rewrite total_length_app. unfold total_length at 2. simpl.
      rewrite length_repeat_nat. nia.
    - exists lines. split; [done|]. lia. }
  destruct Hlines as (lines' & Hl & Hlen').
  exists lines'. split; [done|]. split; [|done..].
  unfold renderBars. by rewrite Hl.
Qed.

(** C2.  The code has no guard: for a progress at 1500 of 1000 and the
    default width of 40, [bar] asks for resumeChar repeated -20 times and
    throws a RangeError, and so do the [bar] provider, [render] on the
    default template, and [renderBars]. *)
Theorem bar_overshoot_throws :
  let this := new_BarItem (inl overshoot) None in
  Math_round (mul (getProgress overshoot) (of_Z (width (options this)))) = of_Z 60 /\
  sub (of_Z (width (options this))) (of_Z 60) = Num (-20 # 1) /\
  String_repeat (resumeChar (options this)) (Num (-20 # 1)) = Throw RangeError /\
  bar this (getProgress overshoot) overshoot = Throw RangeError /\
  render digits this = Throw RangeError /\
  renderBars this [overshoot] = Throw RangeError.
Proof. repeat split; vm_compute; reflexivity. Qed.

(** C3.  For a progress whose ratio is k with 0 <= k <= 1, the [bar] data
    provider, the one that [getDataValue] calls for the property bar
    when the payload has no entry for it and the application gave no
    provider for it, returns completeChar repeated n times, then glue,
    then resumeChar repeated width - n times, where n = round(k*width) is
    the integer nearest to the product as binary64 rounds it, halves up,
    and lies between 0 and the width (a number of cells, not negative).
    At the binary64 ratio 0.15 and width 10 the product is 1.5 and the bar
    has 2 complete cells. *)
Theorem bar_provider_cells (this : BarItem) (progress : IProgress)
    (progresses : list IProgress) (k : Q) :
  getProgress progress = Num k -> (0 <= k)%Q -> (k <= 1)%Q ->
  0 <= width (options this) ->
  exists provider n,
    builtinProviders digits this "bar" = Some provider /\
    (customProviders this !! "bar" = None ->
     dataProviders digits this "bar" = Own provider) /\
    (inject_Z n - (1 # 2) <= binary64 (k * inject_Z (width (options this))))%Q /\
    (binary64 (k * inject_Z (width (options this))) < inject_Z n + (1 # 2))%Q /\
    0 <= n <= width (options this) /\
    provider progress progresses
    = Normal (repeat_nat (completeChar (options this)) (Z.to_nat n)
              +:+ glue (options this)
              +:+ repeat_nat (resumeChar (options this))
                    (Z.to_nat (width (options this) - n))) /\
    (getPayload progress !! "bar" = None -> customProviders this !! "bar" = None ->
     getDataValue digits this "bar" progress
     = Normal (Some (Str (repeat_nat (completeChar (options this)) (Z.to_nat n)
                          +:+ glue (options this)
                          +:+ repeat_nat (resumeChar (options this))
                                (Z.to_nat (width (options this) - n)))))) /\
    getProgress three_twentieths = Num (5404319552844595 # 36028797018963968) /\
    bar (new_BarItem (inl three_twentieths) (Some width_ten))
      (getProgress three_twentieths) three_twentieths
    = Normal "==|--------".
Proof.
  intros Hk Hk0 Hk1 Hw.
  pose proof (cells_bounds _ _ Hw Hk0 Hk1) as Hn.
  destruct (cells_nearest (width (options this)) k) as [Hlo Hhi].
  assert (Hbar : bar this (getProgress progress) progress
    = Normal (repeat_nat (completeChar (options this))
                (Z.to_nat (cells (width (options this)) k))
              +:+ glue (options this)
              +:+ repeat_nat (resumeChar (options this))
                    (Z.to_nat (width (options this) - cells (width (options this)) k)))).
  { unfold bar. rewrite Hk, Math_round_cells, getBarParts_of_Z.
    destruct (Z.ltb_spec (cells (width (options this)) k) 0); [lia|].
    destruct (Z.ltb_spec (width (options this)) (cells (width (options this)) k)); [lia|].
    done. }
  eexists _, (cells (width (options this)) k). split; [reflexivity|].
  split; [by unfold dataProviders; intros ->|].
  split; [exact Hlo|]. split; [exact Hhi|]. split; [exact Hn|].
  split; [exact Hbar|]. split.
  - intros Hpayload Hcustom. unfold getDataValue, get, dataProviders.
    rewrite Hpayload, Hcustom. cbn [bool_decide]. 
    change (bool_decide ("bar" ∈ inherited)) with false. cbv iota.
    change (builtinProviders digits this "bar")
      with (Some (fun (progress : IProgress) (_ : list IProgress) =>
                    bar this (getProgress progress) progress)).
    cbv beta iota. by rewrite Hbar.
  - split; vm_compute; reflexivity.
Qed.

(** C4.  Within one [render], an untagged placeholder of a property that
    has n untagged occurrences of the same property to its left in the
    template is replaced by what progresses[n] gives for it, and is left
    as the literal placeholder when n reaches or exceeds the length of the
    progress list; the rendered string is the replacement of what
    precedes, this replacement, and the replacement of what follows.
    "{value} {value}" over progresses at 100 and 200 renders "100 200". *)
Theorem positional_binding (this : BarItem) (pre post : list piece)
    (g property : string) :
  matchAll None (template this) = pre ++ Match g :: post ->
  property_and_tag this g = (property, None) ->
  let n := occurrences this property pre in
  let map := counters_after this pre ∅ in
  let counted := <[property := Z.of_nat n + 1]> map in
  let callback := render_callback digits this in
  render digits this
  = (String_replace callback pre ∅ ≫= fun s1 =>
     callback (matched g) g map ≫= fun '(r, map') =>
     String_replace callback post map' ≫= fun s2 =>
     Normal (s1 +:+ r +:+ s2)) /\
  (forall progress, progresses this !! n = Some progress ->
     callback (matched g) g map
     = bound_to digits this g property progress ≫= fun r => Normal (r, counted)) /\
  ((length (progresses this) <= n)%nat ->
     callback (matched g) g map = Normal (matched g, counted)) /\
  render digits (new_BarItem (inr two_progresses) (Some (params_of_template "{value} {value}")))
  = Normal "100 200".
Proof.
  intros Hpieces Hg n map counted callback.
  split; [|split; [|split]].
  - unfold render. rewrite Hpieces. apply String_replace_middle.
  - intros progress Hn. unfold callback.
    rewrite (render_callback_eq _ _ _ _ _ _ Hg). unfold map.
    rewrite resolve_untagged. fold n.
    apply lookup_lt_Some in Hn as Hlt.
    destruct (Nat.ltb_spec n (length (progresses this))); [|lia].
    destruct (Z.ltb_spec (Z.of_nat n) 0); [lia|].
    by rewrite Nat2Z.id, Hn.
  - intros Hge. unfold callback.
    rewrite (render_callback_eq _ _ _ _ _ _ Hg). unfold map.
    rewrite resolve_untagged. fold n.
    by destruct (Nat.ltb_spec n (length (progresses this))); [lia|].
  - vm_compute. reflexivity.
Qed.

(** C5, as amended.  The interior of a placeholder is split at every
    occurrence of the (non-empty) tag delimiter: the pieces joined by the
    delimiter give the interior back, the property is the last piece and
    the tag is the piece just before it, when there is one and it is not
    empty; the pieces before that one are ignored.  So {worker1_bar} has
    property bar under tag worker1, {bar} has property bar and no tag,
    and {x_a_value} has property value under tag a.  A placeholder with a
    tag is bound to the first progress whose getTag() is that tag,
    wherever it is in the list, reads no counter, and is left as the
    literal placeholder when no progress has that tag. *)
Theorem tagged_binding (this : BarItem) (g : string) :
  tagDelimiter this <> "" ->
  (exists front property,
     String_split g (tagDelimiter this) = front ++ [property] /\
     Array_join (tagDelimiter this) (front ++ [property]) = g /\
     property_and_tag this g
     = (property, match last front with
                  | Some "" | None => None
                  | Some t => Some t
                  end)) /\
  (forall property t map,
     property_and_tag this g = (property, Some t) ->
     (Forall (fun p => getTag p <> Some t) (progresses this) ->
      render_callback digits this (matched g) g map = Normal (matched g, map)) /\
     (forall i progress,
        progresses this !! i = Some progress ->
        getTag progress = Some t ->
        (forall j p, (j < i)%nat -> progresses this !! j = Some p -> getTag p <> Some t) ->
        render_callback digits this (matched g) g map
        = bound_to digits this g property progress ≫= fun r => Normal (r, map))) /\
  property_and_tag (new_BarItem (inr []) None) "worker1_bar" = ("bar", Some "worker1") /\
  property_and_tag (new_BarItem (inr []) None) "bar" = ("bar", None) /\
  property_and_tag (new_BarItem (inr []) None) "x_a_value" = ("value", Some "a") /\
  render digits (new_BarItem (inr tagged_pair) (Some (params_of_template "{a_value} {b_value}")))
  = Normal "100 200" /\
  render digits (new_BarItem (inr (reverse tagged_pair))
                   (Some (params_of_template "{a_value} {b_value}")))
  = Normal "100 200".
Proof.
  intros Hsep. split; [|split].
  - destruct (String_split g (tagDelimiter this)) as [|s l] eqn:Hsplit using rev_ind.
    { by apply String_split_nonempty in Hsplit. }
    exists l, s. split; [done|]. split.
    + rewrite <- Hsplit. by apply join_split.
    + by apply property_and_tag_last.
  - intros property t map Hg. split.
    + intros Hnone. rewrite (render_callback_eq _ _ _ _ _ _ Hg).
      unfold resolve_index. rewrite Array_findIndex_none; [done|].
      eapply Forall_impl; [exact Hnone|]. intros p Hp.
      by apply bool_decide_eq_false_2.
    + intros i progress Hi Htag Hfirst.
      rewrite (render_callback_eq _ _ _ _ _ _ Hg). unfold resolve_index.
      rewrite (Array_findIndex_first _ _ i progress).
      * destruct (Z.ltb_spec (Z.of_nat i) 0); [lia|]. by rewrite Nat2Z.id, Hi.
      * done.
      * by apply bool_decide_eq_true_2.
      * intros j p Hj Hp. apply bool_decide_eq_false_2. by eapply Hfirst.
  - repeat split; vm_compute; reflexivity.
Qed.


(** C7.  The value of a placeholder bound to a progress is the payload
    entry of the progress for the property when there is one, and the
    data provider is called only when [payload[key]] gives nothing: with
    an entry the value does not depend on the provider, even on one that
    would throw, and is shown as it is or as the formatter registered for
    the placeholder returns it.  For a property that is the name of a
    member of Object.prototype, [payload[key]] gives that member when
    there is no entry, and no provider is called either; for every other
    property without an entry the value is what the provider returns, and
    null when there is no provider.  With payload { value: "custom" },
    "{value}" renders "custom"; without it, the value 300. *)
Theorem payload_before_provider (this : BarItem) (key : string) (item : IProgress) :
  (forall v, getPayload item !! key = Some v ->
     getDataValue digits this key item = Normal (Some (Str v)) /\
     forall g, g ∉ inherited ->
       bound_to digits this g key item
       = Normal (match formatters this !! g with
                 | Some formatter => formatter v item (progresses this)
                 | None => v
                 end)) /\
  (getPayload item !! key = None -> key ∈ inherited ->
     getDataValue digits this key item = Normal (Some (Member key))) /\
  (getPayload item !! key = None -> key ∉ inherited ->
     getDataValue digits this key item
     = match customProviders this !! key, builtinProviders digits this key with
       | Some provider, _ => Normal (Some (Str (provider item (progresses this))))
       | None, Some provider => (fun s => Some (Str s)) <$> provider item (progresses this)
       | None, None => Normal None
       end) /\
  render digits (new_BarItem (inl with_custom_value) (Some (params_of_template "{value}")))
  = Normal "custom" /\
  render digits (new_BarItem (inl (progress_of None ∅ 300 1000))
                   (Some (params_of_template "{value}")))
  = Normal "300" /\
  getDataValue digits (new_BarItem (inl overshoot_with_bar) None) "bar" overshoot_with_bar
  = Normal (Some (Str "custom")) /\
  getDataValue digits (new_BarItem (inl overshoot) None) "bar" overshoot
  = Throw RangeError.
Proof.
  split; [|split; [|split]].
  - intros v Hv. unfold bound_to, getDataValue, get. rewrite Hv.
    split; [done|]. intros g Hg. rewrite bind_Normal. unfold format, get.
    destruct (formatters this !! g); [done|].
    by rewrite (bool_decide_eq_false_2 _ Hg).
  - intros Hnone Hkey. unfold getDataValue, get.
    by rewrite Hnone, (bool_decide_eq_true_2 _ Hkey).
  - intros Hnone Hkey. unfold getDataValue, get, dataProviders.
    rewrite Hnone, (bool_decide_eq_false_2 _ Hkey).
    destruct (customProviders this !! key); [done|].
    by destruct (builtinProviders digits this key).
  - repeat split; vm_compute; reflexivity.
Qed.



(** C10.  A placeholder with a tag leaves the occurrence counter as it
    is: the counters that an untagged placeholder finds, the number of
    untagged occurrences before it, the index it resolves to and what the
    callback returns for it are the same as if the tagged placeholders to
    its left were not in the template.  Over progresses tagged a and b,
    "{b_value} {value} {a_value} {value}" renders "200 100 100 200". *)
Theorem tagged_do_not_count (this : BarItem) (pre post : list piece)
    (g property : string) :
  matchAll None (template this) = pre ++ Match g :: post ->
  property_and_tag this g = (property, None) ->
  let untagged_only := filter (fun p => ¬ is_tagged this p) pre in
  let n := occurrences this property untagged_only in
  (forall g' r map map',
     is_tagged this (Match g') = true ->
     render_callback digits this (matched g') g' map = Normal (r, map') ->
     map' = map) /\
  counters_after this pre ∅ = counters_after this untagged_only ∅ /\
  occurrences this property pre = n /\
  fst (resolve_index this property None (counters_after this pre ∅))
  = (if (n <? length (progresses this))%nat then Z.of_nat n else -1) /\
  render_callback digits this (matched g) g (counters_after this pre ∅)
  = render_callback digits this (matched g) g (counters_after this untagged_only ∅) /\
  render digits (new_BarItem (inr tagged_pair)
                   (Some (params_of_template "{b_value} {value} {a_value} {value}")))
  = Normal "200 100 100 200".
Proof.
  intros Hpieces Hg untagged_only n.
  split; [|split; [|split; [|split; [|split]]]].
  - intros g' r map map' Ht Hcb. cbn [is_tagged] in Ht.
    apply bool_decide_eq_true in Ht.
    destruct (property_and_tag this g') as [property' tag] eqn:Hg'.
    destruct Ht as [t Ht]. simpl in Ht. subst tag.
    by rewrite (render_callback_map _ _ _ _ _ _ _ _ Hg' Hcb).
  - apply counters_after_untagged.
  - apply occurrences_untagged.
  - rewrite resolve_untagged. simpl. by rewrite (occurrences_untagged this property pre).
  - unfold untagged_only. by rewrite <- counters_after_untagged.
  - vm_compute. reflexivity.
Qed.

End Claims.

(** ** Witnesses and counterexamples *)

(** C1 as stated fails when a formatter lengthens the segments: with the
    bracketing formatter and width 2, one completed progress (ratio 1)
    draws the four characters of its formatted segment. *)
Lemma renderBars_formatter_exceeds_width :
  Forall unit_ratio [completed] /\
  renderBars_lines bracketed [completed] = Normal ["<==>"] /\
  renderBars bracketed [completed] = Normal "<==>" /\
  ~ Z.of_nat (total_length ["<==>"]) <= width (options bracketed).
Proof.
  split.
  { repeat constructor. eexists. split; [vm_compute; reflexivity|]. split; vm_compute; discriminate. }
  repeat split; [vm_compute; reflexivity..|].
  vm_compute. intros H. by apply H.
Qed.

(** C1 as amended, at ratios 50%, 20% and 80% and width 10. *)
Lemma renderBars_within_width_witness :
  exists lines,
    renderBars_lines (new_BarItem (inr three_progresses) (Some width_ten)) three_progresses
      = Normal lines /\
    renderBars (new_BarItem (inr three_progresses) (Some width_ten)) three_progresses
      = Normal (Array_join "|" lines) /\
    Z.of_nat (total_length lines) <= 10.
Proof.
  apply (renderBars_within_width (new_BarItem (inr three_progresses) (Some width_ten))
           three_progresses).
  - vm_compute. discriminate.
  - vm_compute. lia.
  - vm_compute. lia.
  - split; [reflexivity|]. intros p Hp. vm_compute. reflexivity.
  - repeat constructor.
    + eexists. split; [vm_compute; reflexivity|]. split; vm_compute; discriminate.
    + eexists. split; [vm_compute; reflexivity|]. split; vm_compute; discriminate.
    + eexists. split; [vm_compute; reflexivity|]. split; vm_compute; discriminate.
Defined.

(** C3 at 300 of 1000 and the default options: 12 complete cells, 28
    left. *)
Lemma bar_provider_cells_witness :
  let p := progress_of None ∅ 300 1000 in
  let this := new_BarItem (inl p) None in
  exists provider n,
    builtinProviders (fun _ => "") this "bar" = Some provider /\
    provider p [] = Normal "============----------------------------" /\
    0 <= n <= 40.
Proof.
  intros p this.
  destruct (bar_provider_cells (fun _ => "") this p [] (binary64 (300 # 1000)))
    as (provider & n & Hbuiltin & _ & Hlo & Hhi & Hn & Hbar & _).
  - vm_compute. reflexivity.
  - vm_compute. discriminate.
  - vm_compute. discriminate.
  - vm_compute. discriminate.
  - exists provider, n. split; [exact Hbuiltin|]. split; [|exact Hn].
    assert (n = 12) as ->; [|exact Hbar].
    assert (Hx : binary64 (binary64 (300 # 1000) * inject_Z (width (options this)))
                 = inject_Z 12) by (vm_compute; reflexivity).
    rewrite Hx in Hlo, Hhi.
    assert (H1 : (inject_Z n < inject_Z 13)%Q).
    { change (inject_Z 13) with (inject_Z 12 + 1)%Q. lra. }
    assert (H2 : (inject_Z 11 < inject_Z n)%Q).
    { change (inject_Z 11) with (inject_Z 12 - 1)%Q. lra. }
    rewrite <- Zlt_Qlt in H1, H2. lia.
Defined.

(** C4 at the second placeholder of "{value} {value}": one untagged
    occurrence of value precedes it, and it shows the value of the second
    progress. *)
Lemma positional_binding_witness :
  let this := new_BarItem (inr two_progresses) (Some (params_of_template "{value} {value}")) in
  matchAll None (template this) = before_second_value ++ Match "value" :: [] /\
  property_and_tag this "value" = ("value", None) /\
  occurrences this "value" before_second_value = 1%nat /\
  (forall progress, progresses this !! 1%nat = Some progress ->
     render_callback (fun _ => "") this (matched "value") "value"
       (counters_after this before_second_value ∅)
     = bound_to (fun _ => "") this "value" "value" progress ≫= fun r =>
       Normal (r, <["value" := 2]> (counters_after this before_second_value ∅))).
Proof.
  intros this.
  assert (H1 : matchAll None (template this) = before_second_value ++ Match "value" :: [])
    by (vm_compute; reflexivity).
  assert (H2 : property_and_tag this "value" = ("value", None))
    by (vm_compute; reflexivity).
  split; [exact H1|]. split; [exact H2|]. split; [vm_compute; reflexivity|].
  exact (proj1 (proj2 (positional_binding (fun _ => "") this before_second_value []
                         "value" "value" H1 H2))).
Defined.

(** C5 as stated fails when the interior holds the delimiter twice: cut
    once from the right, {x_a_value} would have the tag x_a and show the
    1 of the progress tagged x_a; the code takes the tag a and shows the
    2 of the progress tagged a. *)
Lemma tag_is_one_piece :
  split_once_from_right "_" "x_a_value" = ("value", Some "x_a") /\
  property_and_tag nested_tags "x_a_value" = ("value", Some "a") /\
  getTag <$> progresses nested_tags = [Some "x_a"; Some "a"] /\
  render (fun _ => "") nested_tags = Normal "2".
Proof. repeat split; vm_compute; reflexivity. Qed.

(** C5 at {b_value} over the progresses tagged a and b. *)
Lemma tagged_binding_witness :
  let this := new_BarItem (inr tagged_pair) None in
  tagDelimiter this <> "" /\
  exists front property,
    String_split "b_value" (tagDelimiter this) = front ++ [property] /\
    Array_join (tagDelimiter this) (front ++ [property]) = "b_value" /\
    property_and_tag this "b_value"
    = (property, match last front with
                 | Some "" | None => None
                 | Some t => Some t
                 end).
Proof.
  intros this.
  assert (H : tagDelimiter this <> "") by (vm_compute; discriminate).
  split; [exact H|].
  exact (proj1 (tagged_binding (fun _ => "") this "b_value" H)).
Defined.



(** C7 at the payload { value: "custom" }. *)
Lemma payload_before_provider_witness :
  let this := new_BarItem (inl with_custom_value) (Some (params_of_template "{value}")) in
  getPayload with_custom_value !! "value" = Some "custom" /\
  getDataValue (fun _ => "") this "value" with_custom_value = Normal (Some (Str "custom")) /\
  bound_to (fun _ => "") this "value" "value" with_custom_value = Normal "custom".
Proof.
  intros this.
  assert (H : getPayload with_custom_value !! "value" = Some "custom")
    by (vm_compute; reflexivity).
  assert (Hg : "value" ∉ inherited)
    by (apply (bool_decide_eq_false_1 ("value" ∈ inherited)); vm_compute; reflexivity).
  destruct (proj1 (payload_before_provider (fun _ => "") this "value" with_custom_value)
              "custom" H) as [Hvalue Hshown].
  split; [exact H|]. split; [exact Hvalue|]. exact (Hshown "value" Hg).
Defined.





(** C10 at the last placeholder of "{b_value} {value} {a_value} {value}":
    the two tagged placeholders before it do not count. *)
Lemma tagged_do_not_count_witness :
  let this := new_BarItem (inr tagged_pair)
                (Some (params_of_template "{b_value} {value} {a_value} {value}")) in
  matchAll None (template this) = before_last_value ++ Match "value" :: [] /\
  property_and_tag this "value" = ("value", None) /\
  occurrences this "value" before_last_value = 1%nat /\
  fst (resolve_index this "value" None (counters_after this before_last_value ∅)) = 1 /\
  render (fun _ => "") this = Normal "200 100 100 200".
Proof.
  intros this.
  assert (H1 : matchAll None (template this) = before_last_value ++ Match "value" :: [])
    by (vm_compute; reflexivity).
  assert (H2 : property_and_tag this "value" = ("value", None))
    by (vm_compute; reflexivity).
  split; [exact H1|]. split; [exact H2|].
  destruct (tagged_do_not_count (fun _ => "") this before_last_value [] "value" "value" H1 H2)
    as (_ & _ & Hocc & Hidx & _).
  split; [rewrite Hocc; vm_compute; reflexivity|].
  split; [rewrite Hidx; vm_compute; reflexivity|].
  vm_compute. reflexivity.
Defined.

(** * Further properties of the code *)

(** ** Placeholders that stay as they are *)

(** When the callback returns every match as it is, [replace] returns the
    text the pieces were cut from. *)
Lemma String_replace_literal {S} (f : string -> string -> S -> Completion (string * S))
    (pieces : list piece) (st : S) :
  (forall g st, exists st', f (matched g) g st = Normal (matched g, st')) ->
  String_replace f pieces st = Normal (source_text pieces).
Proof.
  intros Hf. revert st. induction pieces as [|[c|g] pieces IH]; intros st; [done| |].
  - simpl. by rewrite IH.
  - cbn [String_replace source_text]. destruct (Hf g st) as [st' ->].
    rewrite bind_Normal, IH. done.
Qed.

Lemma matchAll_brace_free (s : string) :
  brace_free s = true -> matchAll None s = text s.
Proof.
  induction s as [|c s IH]; [done|]. simpl.
  intros [[Ho Hc]%andb_prop Hs]%andb_prop.
  apply negb_true_iff in Ho. rewrite Ho. by rewrite IH.
Qed.

(** The index that a placeholder resolves to is below the length of the
    progress array: when it is not negative it is a position of the
    array. *)
Lemma resolve_index_in_range (this : BarItem) (property : string) (tag : option string)
    (map : gmap string Z) :
  fst (resolve_index this property tag map) < Z.of_nat (length (progresses this)).
Proof.
  unfold resolve_index. destruct tag as [t|]; simpl.
  - apply Array_findIndex_range.
  - rewrite getCounterByProperty_eq. simpl.
    destruct (Z.ltb_spec (default 0 (map !! property)) (Z.of_nat (length (progresses this))));
      lia.
Qed.

(** X1.  A BarItem without progresses renders its template as it is: no
    placeholder can be bound, with or without a tag. *)
Theorem render_without_progresses (digits : Q -> string) (this : BarItem) :
  progresses this = [] -> render digits this = Normal (template this).
Proof.
  intros Hps. unfold render.
  rewrite String_replace_literal; [by rewrite (proj1 (matchAll_source _))|].
  intros g map.
  destruct (property_and_tag this g) as [property tag] eqn:Hg.
  rewrite (render_callback_eq _ _ _ _ _ _ Hg).
  pose proof (resolve_index_in_range this property tag map) as Hrange.
  destruct (resolve_index this property tag map) as [i map'].
  rewrite Hps in Hrange. simpl in Hrange.
  destruct (Z.ltb_spec i 0); [|lia]. by exists map'.
Qed.

Lemma render_without_progresses_witness :
  render (fun _ => "") no_progress = Normal "{bar} {a_value} {value}".
Proof. apply (render_without_progresses (fun _ => "") no_progress). reflexivity. Defined.

(** X2.  A template without braces is rendered as it is, whatever the
    progresses, formatters and providers. *)
Theorem render_plain_text (digits : Q -> string) (this : BarItem) :
  brace_free (template this) = true -> render digits this = Normal (template this).
Proof.
  intros Hfree. unfold render. rewrite (matchAll_brace_free _ Hfree).
  generalize (∅ : gmap string Z).
  induction (template this) as [|c s IH]; intros map; [done|].
  simpl in *. apply andb_prop in Hfree as [_ Hs]. by rewrite (IH Hs).
Qed.

Lemma render_plain_text_witness :
  render (fun _ => "") plain_label = Normal "loading...".
Proof. apply (render_plain_text (fun _ => "") plain_label). reflexivity. Defined.

(** X3.  [render] never reads outside the progress array: the index
    that a placeholder resolves to, by its tag or by the counter of its
    property, is negative or the position of a progress.  The callback
    of [render] so returns the placeholder as it is, for a negative
    index, or goes on with the progress at that index: the branch of a
    progress that is undefined is never taken. *)
Theorem render_index_in_range (digits : Q -> string) (this : BarItem) :
  (forall property tag map,
     let index := fst (resolve_index this property tag map) in
     index < 0 \/ exists progress, progresses this !! Z.to_nat index = Some progress) /\
  (forall g map,
     let property := fst (property_and_tag this g) in
     let tag := snd (property_and_tag this g) in
     let index := fst (resolve_index this property tag map) in
     let map' := snd (resolve_index this property tag map) in
     (index < 0 /\
      render_callback digits this (matched g) g map = Normal (matched g, map')) \/
     (exists progress,
        progresses this !! Z.to_nat index = Some progress /\
        render_callback digits this (matched g) g map
        = (bound_to digits this g property progress ≫= fun r => Normal (r, map')))).
Proof.
  split.
  - intros property tag map index.
    pose proof (resolve_index_in_range this property tag map) as Hrange.
    fold index in Hrange.
    destruct (Z.ltb_spec index 0); [by left|right].
    apply lookup_lt_is_Some_2. lia.
  - intros g map property tag index map'. subst index map'.
    rewrite (render_callback_eq digits this g map property tag)
      by (subst property tag; apply surjective_pairing).
    pose proof (resolve_index_in_range this property tag map) as Hrange.
    destruct (resolve_index this property tag map) as [i m]. cbn [fst snd] in *.
    destruct (Z.ltb_spec i 0); [by left|right].
    destruct (progresses this !! Z.to_nat i) as [p|] eqn:Hp.
    + by exists p.
    + apply lookup_ge_None in Hp. lia.
Qed.

(** ** Rendering never fails for ratios between 0 and 1 *)

Lemma bar_unit (this : BarItem) (k : Q) (p : IProgress) :
  0 <= width (options this) -> (0 <= k)%Q -> (k <= 1)%Q ->
  bar this (Num k) p
  = Normal (repeat_nat (completeChar (options this)) (Z.to_nat (cells (width (options this)) k))
            +:+ glue (options this)
            +:+ repeat_nat (resumeChar (options this))
                  (Z.to_nat (width (options this) - cells (width (options this)) k))).
Proof.
  intros Hw Hk0 Hk1. pose proof (cells_bounds _ _ Hw Hk0 Hk1).
  unfold bar. rewrite Math_round_cells, getBarParts_of_Z.
  destruct (Z.ltb_spec (cells (width (options this)) k) 0); [lia|].
  destruct (Z.ltb_spec (width (options this)) (cells (width (options this)) k)); [lia|].
  done.
Qed.

Lemma fits_within (w prev : Z) (sizes : list Z) :
  0 <= prev -> Forall (fun z => 0 <= z <= w) sizes -> fits w prev sizes = true.
Proof.
  revert prev. induction sizes as [|z sizes IH]; intros prev Hprev Hs; [done|].
  apply Forall_cons in Hs as [Hz Hs]. cbn [fits]. rewrite IH by (done || lia).
  destruct (Z.leb_spec z prev); [done|]. cbn [orb].
  destruct (Z.leb_spec (z - prev) w); [done|lia].
Qed.

Lemma unit_is_finite (ps : list IProgress) :
  Forall unit_ratio ps -> Forall finite_ratio ps.
Proof. intros H. eapply Forall_impl; [exact H|]. intros p (k & Hk & _). by exists k. Qed.

Lemma sorted_unit (this : BarItem) (ps : list IProgress) :
  0 <= width (options this) -> Forall unit_ratio ps ->
  Forall (fun z => 0 <= z <= width (options this)) (cellsOf <$> renderBars_sorted this ps).
Proof.
  intros Hw Hps. apply Forall_fmap. rewrite sorted_perm.
  eapply Forall_impl; [by apply entries_unit|]. by intros e [_ ?].
Qed.

Lemma renderBars_lines_unit (this : BarItem) (ps : list IProgress) :
  0 <= width (options this) -> Forall unit_ratio ps ->
  renderBars_lines this ps
  = Normal (drawn this ps 0 (renderBars_sorted this ps)
            ++ trailing_fill (resumeChar (options this)) (width (options this))
                 (default 0 (last (cellsOf <$> renderBars_sorted this ps)))).
Proof.
  intros Hw Hps.
  rewrite renderBars_lines_drawn by (by apply unit_is_finite).
  by rewrite fits_within by (done || by apply sorted_unit).
Qed.

Lemma renderBars_unit (this : BarItem) (ps : list IProgress) :
  0 <= width (options this) -> Forall unit_ratio ps ->
  exists s, renderBars this ps = Normal s.
Proof.
  intros Hw Hps. unfold renderBars. rewrite renderBars_lines_unit by done. by eexists.
Qed.

Lemma getDataValue_unit (digits : Q -> string) (this : BarItem) (key : string)
    (p : IProgress) :
  0 <= width (options this) -> Forall unit_ratio (progresses this) -> unit_ratio p ->
  key ∉ inherited ->
  exists v : option string, getDataValue digits this key p = Normal (Str <$> v).
Proof.
  intros Hw Hps (k & Hk & Hk0 & Hk1) Hkey.
  unfold getDataValue, get.
  destruct (getPayload p !! key) as [s|]; [by exists (Some s)|].
  rewrite (bool_decide_eq_false_2 _ Hkey).
  unfold dataProviders.
  destruct (customProviders this !! key) as [f|];
    [by exists (Some (f p (progresses this)))|].
  unfold builtinProviders.
  destruct (String.eqb key "bars").
  { destruct (renderBars_unit this (progresses this) Hw Hps) as [s ->]. by exists (Some s). }
  destruct (String.eqb key "bar").
  { rewrite Hk, bar_unit by done. by eexists (Some _). }
  repeat (destruct (String.eqb key _); [by eexists (Some _)|]).
  rewrite (bool_decide_eq_false_2 _ Hkey). by exists None.
Qed.

Lemma format_own (this : BarItem) (g s : string) (progress : IProgress) :
  g ∉ inherited -> exists r, format this g (Str s) progress = Normal r.
Proof.
  intros Hg. unfold format, get.
  destruct (formatters this !! g); [by eexists|].
  rewrite (bool_decide_eq_false_2 _ Hg). by eexists.
Qed.

(** X4.  For a width that is not negative and progresses whose ratios all
    lie in [0,1], [render] returns a string, whatever the formatters and
    the providers of the application, for every template whose
    placeholders do not take the name of a member of Object.prototype:
    no repeat count goes out of range. *)
Theorem render_unit_ratios (digits : Q -> string) (this : BarItem) :
  0 <= width (options this) -> Forall unit_ratio (progresses this) ->
  own_names this = true ->
  exists s, render digits this = Normal s.
Proof.
  intros Hw Hps. unfold render, own_names. generalize (∅ : gmap string Z).
  induction (matchAll None (template this)) as [|[c|g] pieces IH]; intros map Hnames.
  - by eexists.
  - simpl. destruct (IH map Hnames) as [s ->]. by eexists.
  - cbn [forallb] in Hnames.
    apply andb_prop in Hnames as [[Hg Hproperty]%andb_prop Hnames].
    apply negb_true_iff, bool_decide_eq_false in Hg.
    apply negb_true_iff, bool_decide_eq_false in Hproperty.
    cbn [String_replace].
    destruct (property_and_tag this g) as [property tag] eqn:Hpt.
    rewrite (render_callback_eq _ _ _ _ _ _ Hpt).
    pose proof (resolve_index_in_range this property tag map) as Hrange.
    destruct (resolve_index this property tag map) as [i map'].
    cbn [fst] in Hrange, Hproperty.
    assert (Hcb : exists r,
      (if i <? 0 then Normal (matched g)
       else match progresses this !! Z.to_nat i with
            | Some progress => bound_to digits this g property progress
            | None => Throw TypeError
            end) = Normal r).
    { destruct (Z.ltb_spec i 0); [by eexists|].
      destruct (progresses this !! Z.to_nat i) as [p|] eqn:Hp.
      - assert (Hunit : unit_ratio p).
        { apply (proj1 (Forall_forall _ _) Hps). by eapply list_elem_of_lookup_2. }
        unfold bound_to.
        destruct (getDataValue_unit digits this property p Hw Hps Hunit Hproperty)
          as [[v|] ->]; [|by eexists].
        rewrite bind_Normal. cbn [fmap option_fmap option_map]. by apply format_own.
      - apply lookup_ge_None in Hp. lia. }
    destruct Hcb as [r ->]. rewrite !bind_Normal.
    destruct (IH map' Hnames) as [s ->]. by eexists.
Qed.

Lemma three_progresses_unit : Forall unit_ratio three_progresses.
Proof.
  repeat constructor.
  - eexists. split; [vm_compute; reflexivity|]. split; vm_compute; discriminate.
  - eexists. split; [vm_compute; reflexivity|]. split; vm_compute; discriminate.
  - eexists. split; [vm_compute; reflexivity|]. split; vm_compute; discriminate.
Qed.

Lemma render_unit_ratios_witness :
  exists s, render (fun _ => "") three_bracketed = Normal s.
Proof.
  apply (render_unit_ratios (fun _ => "") three_bracketed).
  - vm_compute. discriminate.
  - exact three_progresses_unit.
  - vm_compute. reflexivity.
Defined.

(** ** The combined bar as a function of the sorted sizes *)

Lemma drawn_plain (this : BarItem) (ps : list IProgress) (prev : Z) (l : list Entry) :
  no_bar_formatter this ps ->
  Forall (fun e => item e ∈ ps) l ->
  drawn this ps prev l = segments (completeChar (options this)) prev (cellsOf <$> l).
Proof.
  intros [Hbar Htag]. revert prev. induction l as [|e l IH]; intros prev Hl; [done|].
  apply Forall_cons in Hl as [He Hl].
  cbn [drawn segments fmap list_fmap]. rewrite IH by done.
  unfold segment_formatter. by rewrite (Htag _ He), Hbar.
Qed.

Lemma sorted_items (this : BarItem) (ps : list IProgress) :
  Forall (fun e => item e ∈ ps) (renderBars_sorted this ps).
Proof.
  rewrite sorted_perm. apply Forall_forall. intros e [He _]%entries_elem.
  by eapply list_elem_of_lookup_2.
Qed.

Lemma entries_cells (this : BarItem) (ps : list IProgress) :
  cellsOf <$> renderBars_entries this ps = ratio_cells (width (options this)) <$> ps.
Proof.
  unfold renderBars_entries.
  assert (H : forall (f : nat -> nat),
    cellsOf <$> imap (fun index item =>
        {| size := Math_round (mul (getProgress item) (of_Z (width (options this))));
           item := item; index := f index |}) ps
    = ratio_cells (width (options this)) <$> ps).
  { induction ps as [|p ps IH]; intros f; [done|].
    cbn [imap fmap list_fmap]. f_equal.
    - unfold cellsOf, ratio_cells. cbn [size].
      destruct (getProgress p) as [| | |k]; try done.
      + unfold mul, of_Z, of_sign. cbn [sgn]. by repeat case_match.
      + unfold mul, of_Z, of_sign. cbn [sgn]. by repeat case_match.
      + rewrite Math_round_cells. apply Qfloor_Z.
    - apply (IH (fun i => f (S i))). }
  apply (H (fun i => i)).
Qed.

Lemma sorted_cells (this : BarItem) (ps : list IProgress) (sizes : list Z) :
  Forall finite_ratio ps ->
  StronglySorted Z.le sizes ->
  sizes ≡ₚ ratio_cells (width (options this)) <$> ps ->
  cellsOf <$> renderBars_sorted this ps = sizes.
Proof.
  intros Hps Hsorted Hperm.
  apply (StronglySorted_unique Z.le); [|done|].
  - eapply StronglySorted_fmap; [|by apply sorted_ascending]. done.
  - by rewrite sorted_perm, entries_cells.
Qed.

Lemma renderBars_lines_finite (this : BarItem) (ps : list IProgress) (sizes : list Z) :
  no_bar_formatter this ps ->
  Forall finite_ratio ps ->
  StronglySorted Z.le sizes ->
  sizes ≡ₚ ratio_cells (width (options this)) <$> ps ->
  renderBars_lines this ps
  = if fits (width (options this)) 0 sizes
    then Normal (segments (completeChar (options this)) 0 sizes
                 ++ trailing_fill (resumeChar (options this)) (width (options this))
                      (default 0 (last sizes)))
    else Throw RangeError.
Proof.
  intros Hfmt Hfin Hsorted Hperm.
  rewrite renderBars_lines_drawn by done. cbv zeta.
  rewrite (drawn_plain this ps 0 _ Hfmt (sorted_items this ps)).
  by rewrite (sorted_cells this ps sizes Hfin Hsorted Hperm).
Qed.

Lemma renderBars_plain (this : BarItem) (ps : list IProgress) (sizes : list Z) :
  0 <= width (options this) ->
  no_bar_formatter this ps ->
  Forall unit_ratio ps ->
  StronglySorted Z.le sizes ->
  sizes ≡ₚ ratio_cells (width (options this)) <$> ps ->
  renderBars_lines this ps
  = Normal (segments (completeChar (options this)) 0 sizes
            ++ trailing_fill (resumeChar (options this)) (width (options this))
                 (default 0 (last sizes))) /\
  0 <= default 0 (last sizes) <= width (options this).
Proof.
  intros Hw Hfmt Hps Hsorted Hperm.
  pose proof (unit_is_finite ps Hps) as Hfin.
  assert (Hall : Forall (fun z => 0 <= z <= width (options this)) sizes).
  { rewrite <- (sorted_cells this ps sizes Hfin Hsorted Hperm). by apply sorted_unit. }
  split.
  - rewrite (renderBars_lines_finite this ps sizes) by done.
    by rewrite fits_within by done.
  - destruct (last sizes) as [z|] eqn:Hz; [|simpl; lia].
    apply last_Some_elem_of in Hz.
    apply (proj1 (Forall_forall _ _) Hall z Hz).
Qed.

Lemma sorted_sizes_exist (this : BarItem) (ps : list IProgress) :
  Forall finite_ratio ps ->
  StronglySorted Z.le (cellsOf <$> renderBars_sorted this ps) /\
  cellsOf <$> renderBars_sorted this ps ≡ₚ ratio_cells (width (options this)) <$> ps.
Proof.
  intros Hps. split.
  - eapply StronglySorted_fmap; [|by apply sorted_ascending]. done.
  - by rewrite sorted_perm, entries_cells.
Qed.

Lemma no_bar_formatter_perm (this : BarItem) (ps ps' : list IProgress) :
  ps ≡ₚ ps' -> no_bar_formatter this ps -> no_bar_formatter this ps'.
Proof.
  intros Hperm [Hbar Htag]. split; [done|].
  intros p Hp. apply Htag. by rewrite Hperm.
Qed.

Lemma segments_length (c : string) (prev : Z) (sizes : list Z) :
  StronglySorted Z.le (prev :: sizes) ->
  Z.of_nat (total_length (segments c prev sizes))
  = Z.of_nat (String.length c) * (default prev (last sizes) - prev) /\
  (length (segments c prev sizes) <= length sizes)%nat.
Proof.
  revert prev. induction sizes as [|z sizes IH]; intros prev Hs.
  { simpl. split; [unfold total_length; simpl; lia|lia]. }
  apply StronglySorted_inv in Hs as [Hs Hle].
  apply Forall_cons in Hle as [Hz Hle].
  destruct (IH z Hs) as [IHlen IHcount].
  assert (Hlast : default prev (last (z :: sizes)) = default z (last sizes)).
  { rewrite last_cons. by destruct (last sizes). }
  rewrite Hlast. cbn [segments].
  rewrite total_length_app, length_app, Nat2Z.inj_add, IHlen.
  destruct (Z.ltb_spec prev z).
  - unfold total_length at 1. cbn [sum_list_with length].
    rewrite length_repeat_nat. split; [nia|lia].
  - unfold total_length at 1. cbn [sum_list_with length].
    assert (z = prev) as -> by lia. split; lia.
Qed.

(** X5.  Without a formatter on the segments and for ratios in [0,1],
    the combined bar does not depend on the order of the progresses. *)
Theorem renderBars_permutation (this : BarItem) (ps ps' : list IProgress) :
  0 <= width (options this) ->
  no_bar_formatter this ps ->
  Forall unit_ratio ps ->
  ps ≡ₚ ps' ->
  renderBars this ps = renderBars this ps'.
Proof.
  intros Hw Hfmt Hps Hperm.
  destruct (sorted_sizes_exist this ps (unit_is_finite ps Hps)) as [Hsorted Hsizes].
  unfold renderBars.
  rewrite (proj1 (renderBars_plain this ps _ Hw Hfmt Hps Hsorted Hsizes)).
  assert (Hfmt' : no_bar_formatter this ps') by (by eapply no_bar_formatter_perm).
  assert (Hps' : Forall unit_ratio ps') by (by rewrite <- Hperm).
  assert (Hsizes' : cellsOf <$> renderBars_sorted this ps
                    ≡ₚ ratio_cells (width (options this)) <$> ps')
    by (by rewrite Hsizes, Hperm).
  by rewrite (proj1 (renderBars_plain this ps' _ Hw Hfmt' Hps' Hsorted Hsizes')).
Qed.

(** X6.  With completeChar and resumeChar of one character each, no
    formatter on the segments and ratios in [0,1], the lines of the
    combined bar are at most one per progress plus the fill, and they
    occupy exactly [width] characters: the rendered bar is [width]
    characters and one glue between consecutive lines. *)
Theorem renderBars_fills_width (this : BarItem) (ps : list IProgress) :
  0 <= width (options this) ->
  String.length (completeChar (options this)) = 1%nat ->
  String.length (resumeChar (options this)) = 1%nat ->
  no_bar_formatter this ps ->
  Forall unit_ratio ps ->
  exists lines,
    renderBars_lines this ps = Normal lines /\
    (length lines <= S (length ps))%nat /\
    Z.of_nat (total_length lines) = width (options this) /\
    exists s,
      renderBars this ps = Normal s /\
      String.length s
      = (Z.to_nat (width (options this))
         + String.length (glue (options this)) * Nat.pred (length lines))%nat.
Proof.
  intros Hw Hc Hr Hfmt Hps.
  destruct (sorted_sizes_exist this ps (unit_is_finite ps Hps)) as [Hsorted Hsizes].
  destruct (renderBars_plain this ps _ Hw Hfmt Hps Hsorted Hsizes) as [Hlines Hlast].
  set (sizes := cellsOf <$> renderBars_sorted this ps) in *.
  assert (Hfrom0 : StronglySorted Z.le (0 :: sizes)).
  { constructor; [done|]. rewrite Hsizes. apply Forall_fmap, Forall_forall.
    intros p Hp. destruct (proj1 (Forall_forall _ _) Hps p Hp) as (k & Hk & Hk0 & Hk1).
    simpl. unfold ratio_cells. rewrite Hk.
    by apply (cells_bounds _ _ Hw Hk0 Hk1). }
  destruct (segments_length (completeChar (options this)) 0 sizes Hfrom0) as [Hlen Hcount].
  assert (Hn : length sizes = length ps).
  { by rewrite (Permutation_length Hsizes), length_fmap. }
  eexists. split; [exact Hlines|].
  assert (Htotal : Z.of_nat (total_length
            (segments (completeChar (options this)) 0 sizes
             ++ trailing_fill (resumeChar (options this)) (width (options this))
                  (default 0 (last sizes)))) = width (options this)).
  { rewrite total_length_app, Nat2Z.inj_add, Hlen, Hc. unfold trailing_fill.
    destruct (Z.ltb_spec (default 0 (last sizes)) (width (options this))).
    - unfold total_length. cbn [sum_list_with]. rewrite length_repeat_nat, Hr. lia.
    - unfold total_length. cbn [sum_list_with]. lia. }
  split; [|split; [exact Htotal|]].
  - rewrite length_app. unfold trailing_fill.
    destruct (_ <? _); simpl; lia.
  - eexists. split; [unfold renderBars; by rewrite Hlines|].
    rewrite length_Array_join. lia.
Qed.

Lemma no_formatters (this : BarItem) (ps : list IProgress) :
  formatters this = ∅ -> no_bar_formatter this ps.
Proof. intros H. unfold no_bar_formatter. rewrite H. split; [done|]. by intros. Qed.

Lemma renderBars_permutation_witness :
  renderBars (new_BarItem (inr three_progresses) (Some width_ten)) three_progresses
  = renderBars (new_BarItem (inr three_progresses) (Some width_ten))
      (reverse three_progresses).
Proof.
  apply (renderBars_permutation (new_BarItem (inr three_progresses) (Some width_ten))).
  - vm_compute. discriminate.
  - by apply no_formatters.
  - exact three_progresses_unit.
  - symmetry. apply reverse_Permutation.
Defined.

Lemma renderBars_fills_width_witness :
  exists lines,
    renderBars_lines (new_BarItem (inr three_progresses) (Some width_ten)) three_progresses
    = Normal lines /\
    (length lines <= 4)%nat /\
    Z.of_nat (total_length lines) = 10 /\
    exists s,
      renderBars (new_BarItem (inr three_progresses) (Some width_ten)) three_progresses
      = Normal s /\
      String.length s = (10 + 1 * Nat.pred (length lines))%nat.
Proof.
  apply (renderBars_fills_width (new_BarItem (inr three_progresses) (Some width_ten))
           three_progresses).
  - vm_compute. discriminate.
  - reflexivity.
  - reflexivity.
  - by apply no_formatters.
  - exact three_progresses_unit.
Defined.

(** ** One progress: [bar] and [renderBars] *)

Lemma bar_finite (this : BarItem) (k : Q) (p : IProgress) :
  bar this (Num k) p
  = if (cells (width (options this)) k <? 0)
       || (width (options this) <? cells (width (options this)) k)
    then Throw RangeError
    else Normal (repeat_nat (completeChar (options this))
                   (Z.to_nat (cells (width (options this)) k))
                 +:+ glue (options this)
                 +:+ repeat_nat (resumeChar (options this))
                       (Z.to_nat (width (options this) - cells (width (options this)) k))).
Proof.
  unfold bar. rewrite Math_round_cells, getBarParts_of_Z.
  by destruct (_ || _).
Qed.

(** X7.  The complete part of [bar] never shrinks when the ratio grows:
    for ratios k1 <= k2 in [0,1] the bar of k1 has n1 cells of
    completeChar and that of k2 has n2, with n1 <= n2 <= width; a ratio of
    0 gives no cell of completeChar and a ratio of 1 gives no cell of
    resumeChar.  The glue sits between the two parts in every case. *)
Theorem bar_monotone (this : BarItem) (k1 k2 : Q) (p1 p2 : IProgress) :
  0 <= width (options this) ->
  (0 <= k1)%Q -> (k1 <= k2)%Q -> (k2 <= 1)%Q ->
  let w := width (options this) in
  let shape n :=
    Normal (repeat_nat (completeChar (options this)) n
            +:+ glue (options this)
            +:+ repeat_nat (resumeChar (options this)) (Z.to_nat w - n)) in
  (exists n1 n2 : nat,
     bar this (Num k1) p1 = shape n1 /\ bar this (Num k2) p2 = shape n2 /\
     (n1 <= n2 <= Z.to_nat w)%nat) /\
  ((k1 == 0)%Q -> bar this (Num k1) p1 = shape 0%nat) /\
  ((k2 == 1)%Q -> bar this (Num k2) p2 = shape (Z.to_nat w)).
Proof.
  intros Hw Hk0 Hk12 Hk1 w shape.
  assert (Hk1' : (k1 <= 1)%Q) by lra.
  assert (Hk0' : (0 <= k2)%Q) by lra.
  pose proof (cells_bounds _ _ Hw Hk0 Hk1') as H1.
  pose proof (cells_bounds _ _ Hw Hk0' Hk1) as H2.
  pose proof (cells_mono _ _ _ Hw Hk12) as H12.
  fold w in H1, H2, H12.
  assert (Hshape : forall k p, (0 <= k)%Q -> (k <= 1)%Q ->
            bar this (Num k) p = shape (Z.to_nat (cells w k))).
  { intros k p Hk Hk'. pose proof (cells_bounds _ _ Hw Hk Hk').
    rewrite bar_unit by done. unfold shape. by rewrite Z2Nat.inj_sub by lia. }
  split; [|split].
  - exists (Z.to_nat (cells w k1)), (Z.to_nat (cells w k2)).
    rewrite !Hshape by done. split; [done|split; [done|lia]].
  - intros Hz. rewrite Hshape by done. by rewrite (cells_zero _ _ Hz).
  - intros Hz. rewrite Hshape by done. by rewrite (cells_one _ _ Hz).
Qed.

Lemma bar_monotone_witness :
  let this := new_BarItem (inr three_progresses) (Some width_ten) in
  let shape n := Normal (repeat_nat "=" n +:+ "|" +:+ repeat_nat "-" (10 - n)) in
  (exists n1 n2 : nat,
     bar this (Num (200 # 1000)) completed = shape n1 /\
     bar this (Num (800 # 1000)) completed = shape n2 /\
     (n1 <= n2 <= 10)%nat) /\
  ((200 # 1000 == 0)%Q -> bar this (Num (200 # 1000)) completed = shape 0%nat) /\
  ((800 # 1000 == 1)%Q -> bar this (Num (800 # 1000)) completed = shape 10%nat).
Proof.
  apply (bar_monotone (new_BarItem (inr three_progresses) (Some width_ten))
           (200 # 1000) (800 # 1000) completed completed).
  - vm_compute. discriminate.
  - vm_compute. discriminate.
  - vm_compute. discriminate.
  - vm_compute. discriminate.
Defined.

(** X8.  [bar] has no guard of its own, and fails exactly when a repeat
    count is out of range.  For a finite ratio k the number of cells is
    the integer nearest to k * width as binary64 rounds the product,
    halves up; [bar] throws a RangeError when it is negative or exceeds
    the width, and returns the two parts around the glue otherwise.  For
    a ratio that is NaN (0 of 0) it returns the glue alone; for an
    infinite ratio and a positive width it throws a RangeError.  At the
    default width of 40 the ratio nearest to 1.0125 has the product 40.5
    and 41 cells, and throws; the ratio nearest to -0.0125 has the
    product -0.5 and no cell, and returns the 40 cells of resumeChar. *)
Theorem bar_throws_iff (this : BarItem) (p : IProgress) :
  let w := width (options this) in
  (forall k,
     let n := cells w k in
     (inject_Z n - (1 # 2) <= binary64 (k * inject_Z w))%Q /\
     (binary64 (k * inject_Z w) < inject_Z n + (1 # 2))%Q /\
     (bar this (Num k) p = Throw RangeError <-> n < 0 \/ w < n) /\
     (0 <= n <= w ->
      bar this (Num k) p
      = Normal (repeat_nat (completeChar (options this)) (Z.to_nat n)
                +:+ glue (options this)
                +:+ repeat_nat (resumeChar (options this)) (Z.to_nat (w - n))))) /\
  bar this NaN p = Normal (glue (options this)) /\
  (0 < w -> bar this Infinity p = Throw RangeError /\
            bar this NegInfinity p = Throw RangeError) /\
  binary64 (binary64 (10125 # 10000) * 40) = 81 # 2 /\
  bar (new_BarItem (inl p) None) (Num (binary64 (10125 # 10000))) p = Throw RangeError /\
  binary64 (binary64 (-125 # 10000) * 40) = -1 # 2 /\
  bar (new_BarItem (inl p) None) (Num (binary64 (-125 # 10000))) p
  = Normal "----------------------------------------".
Proof.
  intros w. split; [|split; [|split]].
  - intros k n. destruct (cells_nearest w k) as [Hlow Hhigh].
    split; [exact Hlow|]. split; [exact Hhigh|].
    rewrite bar_finite. fold w. fold n. split.
    + destruct (Z.ltb_spec n 0); destruct (Z.ltb_spec w n);
        cbn [orb]; split; intros Hx; try done; lia.
    + intros Hr.
      destruct (Z.ltb_spec n 0); [lia|].
      destruct (Z.ltb_spec w n); [lia|]. done.
  - unfold bar. cbn. by rewrite app_empty_r.
  - intros Hw. unfold bar, mul, of_Z, of_sign. cbn [sgn Qnum inject_Z].
    fold w. destruct w; try lia. done.
  - repeat split; vm_compute; reflexivity.
Qed.

Lemma bar_throws_iff_witness :
  let this := new_BarItem (inl overshoot) None in
  (40 < cells 40 (3 # 2)) /\
  bar this (getProgress overshoot) overshoot = Throw RangeError /\
  bar this (Num (1 # 4)) overshoot
  = Normal "==========------------------------------".
Proof.
  intros this.
  destruct (bar_throws_iff this overshoot) as (Hk & _ & _).
  assert (H : 40 < cells 40 (3 # 2)) by (vm_compute; reflexivity).
  assert (Hr : getProgress overshoot = Num (3 # 2)) by (vm_compute; reflexivity).
  split; [exact H|]. split.
  - rewrite Hr. apply (proj2 (proj1 (proj2 (proj2 (Hk (3 # 2)))))). right. exact H.
  - apply (proj2 (proj2 (proj2 (Hk (1 # 4))))). vm_compute. split; discriminate.
Defined.

(** X9.  Over a single progress with a ratio in [0,1] and no formatter
    on the segments, [renderBars] gives what [bar] gives as long as both
    parts are present; at 0 cells and at [width] cells [bar] keeps the
    glue beside its empty part and [renderBars] drops it, and at width 0
    [renderBars] gives the empty string. *)
Theorem renderBars_single (this : BarItem) (p : IProgress) (k : Q) :
  0 <= width (options this) ->
  no_bar_formatter this [p] ->
  getProgress p = Num k -> (0 <= k)%Q -> (k <= 1)%Q ->
  let w := width (options this) in
  let n := cells w k in
  let complete := repeat_nat (completeChar (options this)) (Z.to_nat n) in
  let resume := repeat_nat (resumeChar (options this)) (Z.to_nat (w - n)) in
  0 <= n <= w /\
  bar this (getProgress p) p = Normal (complete +:+ glue (options this) +:+ resume) /\
  renderBars this [p]
  = Normal (if (0 <? n) && (n <? w) then complete +:+ glue (options this) +:+ resume
            else if 0 <? n then complete
            else if n <? w then resume
            else "").
Proof.
  intros Hw Hfmt Hk Hk0 Hk1 w n complete resume.
  pose proof (cells_bounds _ _ Hw Hk0 Hk1) as Hn. fold w in Hn. fold n in Hn.
  assert (Hunit : Forall unit_ratio [p]).
  { constructor; [|constructor]. by exists k. }
  assert (Hsizes : [n] ≡ₚ ratio_cells (width (options this)) <$> [p]).
  { simpl. unfold ratio_cells. by rewrite Hk. }
  assert (Hsorted : StronglySorted Z.le [n]) by (repeat constructor).
  split; [exact Hn|]. split.
  { rewrite Hk. by apply bar_unit. }
  unfold renderBars.
  rewrite (proj1 (renderBars_plain this [p] [n] Hw Hfmt Hunit Hsorted Hsizes)).
  cbn [segments last default]. unfold trailing_fill, id. fold w.
  rewrite app_nil_r, Z.sub_0_r, bind_Normal. fold complete resume.
  clearbody complete resume.
  destruct (0 <? n), (n <? w); cbn; by rewrite ?app_empty_r.
Qed.

Lemma renderBars_single_witness :
  let p := progress_of None ∅ 300 1000 in
  let this := new_BarItem (inl p) (Some width_ten) in
  0 <= cells 10 (binary64 (300 # 1000)) <= 10 /\
  bar this (getProgress p) p = Normal "===|-------" /\
  renderBars this [p] = Normal "===|-------".
Proof.
  intros p this.
  destruct (renderBars_single this p (binary64 (300 # 1000))) as (Hn & Hbar & Hbars).
  - vm_compute. discriminate.
  - by apply no_formatters.
  - vm_compute. reflexivity.
  - vm_compute. discriminate.
  - vm_compute. discriminate.
  - split; [exact Hn|]. rewrite Hbar, Hbars. split; vm_compute; reflexivity.
Defined.

(** ** Numbers printed by the providers *)

Lemma Number_toString_of_Z (digits : Q -> string) (n : Z) :
  Z.abs n <= 2 ^ 53 -> Number_toString digits (of_Z n) = Z_toString n.
Proof.
  intros Hn. unfold Number_toString, of_Z.
  rewrite Qred_inject_Z. cbn [Qden Qnum inject_Z]. rewrite Pos.eqb_refl.
  destruct (Z.leb_spec (Z.abs n) (2 ^ 53)); [done|lia].
Qed.

(** X10.  For a ratio in [0,1] the percentage shown is the decimal
    writing of an integer from 0 to 100 followed by the percent sign: the
    integer nearest to ratio * 100 as binary64 rounds the product, halves
    up.  It never has a fractional part, whatever the ratio, and it is 0%
    and 100% at the two ends; at 75 of 1000 the product is 7.5 and the
    percentage 8%.  A payload entry or a provider of the application for
    "percentage" takes its place. *)
Theorem percentage_is_integer (digits : Q -> string) (this : BarItem) (p : IProgress)
    (k : Q) :
  getProgress p = Num k -> (0 <= k)%Q -> (k <= 1)%Q ->
  getPayload p !! "percentage" = None ->
  customProviders this !! "percentage" = None ->
  (exists n,
     0 <= n <= 100 /\
     (inject_Z n - (1 # 2) <= binary64 (k * 100))%Q /\
     (binary64 (k * 100) < inject_Z n + (1 # 2))%Q /\
     getDataValue digits this "percentage" p = Normal (Some (Str (Z_toString n +:+ "%"))) /\
     ((k == 0)%Q -> n = 0) /\ ((k == 1)%Q -> n = 100)) /\
  getProgress (progress_of None ∅ 75 1000) = Num (binary64 (75 # 1000)) /\
  binary64 (binary64 (75 # 1000) * 100) = 15 # 2 /\
  getDataValue digits (new_BarItem (inl (progress_of None ∅ 75 1000)) None)
    "percentage" (progress_of None ∅ 75 1000)
  = Normal (Some (Str "8%")).
Proof.
  intros Hk Hk0 Hk1 Hpayload Hcustom. split.
  - pose proof (cells_bounds 100 k ltac:(lia) Hk0 Hk1) as Hn.
    destruct (cells_nearest 100 k) as [Hlow Hhigh].
    exists (cells 100 k).
    split; [done|]. split; [exact Hlow|]. split; [exact Hhigh|]. split; [|split].
    + unfold getDataValue, get, dataProviders. rewrite Hpayload, Hcustom.
      change (bool_decide ("percentage" ∈ inherited)) with false. cbv iota.
      cbn [builtinProviders String.eqb Ascii.eqb Bool.eqb fmap Completion_fmap mret
           Completion_ret].
      rewrite Hk, Math_round_cells, Number_toString_of_Z; [done|].
      apply Z.abs_le. lia.
    + apply cells_zero.
    + apply cells_one.
  - repeat split; vm_compute; reflexivity.
Qed.

Lemma percentage_is_integer_witness :
  let p := progress_of None ∅ 300 1000 in
  getDataValue (fun _ => "") (new_BarItem (inl p) None) "percentage" p
  = Normal (Some (Str "30%")).
Proof.
  intros p.
  destruct (percentage_is_integer (fun _ => "") (new_BarItem (inl p) None) p
              (binary64 (300 # 1000)))
    as [(n & Hn & Hlow & Hhigh & Hvalue & _) _].
  - vm_compute. reflexivity.
  - vm_compute. discriminate.
  - vm_compute. discriminate.
  - reflexivity.
  - reflexivity.
  - rewrite Hvalue. f_equal. f_equal. f_equal.
    assert (n = 30) as ->; [|reflexivity].
    assert (H30 : binary64 (binary64 (300 # 1000) * 100) = 30 # 1)
      by (vm_compute; reflexivity).
    rewrite H30 in Hlow, Hhigh.
    unfold Qle, Qlt in *. cbn in Hlow, Hhigh. lia.
Defined.

(** ** Templates written from their pieces *)

Lemma matchAll_pending (g0 g rest : string) :
  brace_free g = true -> g0 +:+ g <> "" ->
  matchAll (Some g0) (g +:+ String "}" rest) = Match (g0 +:+ g) :: matchAll None rest.
Proof.
  revert g0. induction g as [|c g IH]; intros g0 Hfree Hne.
  - rewrite app_empty_l, app_empty_r in *. cbn [matchAll].
    change (is_open "}") with false. change (is_close "}") with true.
    cbv beta iota. by destruct g0.
  - cbn [brace_free] in Hfree.
    apply andb_prop in Hfree as [[Ho Hc]%andb_prop Hfree].
    rewrite app_cons. cbn [matchAll].
    apply negb_true_iff in Ho as ->. apply negb_true_iff in Hc as ->.
    rewrite IH; [|done|].
    + by rewrite app_assoc_string, app_cons, app_empty_l.
    + rewrite app_assoc_string, app_cons, app_empty_l. done.
Qed.

Lemma matchAll_writable (pieces : list piece) :
  forallb writable pieces = true -> matchAll None (source_text pieces) = pieces.
Proof.
  intros Hw.
  induction pieces as [|[c|g] pieces IH]; [done| |].
  - cbn [forallb writable] in Hw.
    apply andb_prop in Hw as [[Ho Hc]%andb_prop Hw].
    cbn [source_text matchAll]. apply negb_true_iff in Ho as ->. by rewrite IH.
  - cbn [forallb writable] in Hw.
    apply andb_prop in Hw as [[Hne Hfree]%andb_prop Hw].
    apply negb_true_iff, String.eqb_neq in Hne.
    cbn [source_text]. unfold matched.
    rewrite !app_assoc_string.
    change ("{" +:+ g +:+ "}" +:+ source_text pieces)
      with (String "{" (g +:+ String "}" (source_text pieces))).
    cbn [matchAll]. change (is_open "{") with true. cbv beta iota.
    rewrite matchAll_pending by done. by rewrite app_empty_l, IH.
Qed.

(** X11.  The scan of a template finds its placeholders and nothing
    else: a template written from characters other than braces and from
    placeholders whose names are not empty and have no brace is cut into
    these very pieces, and the pieces of any template spell it out
    again. *)
Theorem matchAll_source_text (pieces : list piece) :
  forallb writable pieces = true ->
  matchAll None (source_text pieces) = pieces /\
  source_text (matchAll None (source_text pieces)) = source_text pieces.
Proof.
  intros Hw. split; [by apply matchAll_writable|apply matchAll_source].
Qed.

Lemma matchAll_source_text_witness :
  matchAll None (source_text before_last_value) = before_last_value /\
  source_text (matchAll None (source_text before_last_value))
  = source_text before_last_value.
Proof. apply (matchAll_source_text before_last_value). reflexivity. Defined.

(** ** The default template *)

Lemma String_replace_text {S} (f : string -> string -> S -> Completion (string * S))
    (s : string) (rest : list piece) (st : S) :
  String_replace f (text s ++ rest) st
  = String_replace f rest st ≫= fun r => Normal (s +:+ r).
Proof.
  induction s as [|c s IH].
  - cbn [text app]. by destruct (String_replace f rest st).
  - cbn [text app String_replace]. rewrite IH.
    by destruct (String_replace f rest st).
Qed.

Lemma callback_positional (digits : Q -> string) (this : BarItem) (g : string)
    (map : gmap string Z) (pre rest : list IProgress) (p : IProgress) :
  property_and_tag this g = (g, None) ->
  progresses this = pre ++ p :: rest ->
  default 0 (map !! g) = Z.of_nat (length pre) ->
  render_callback digits this (matched g) g map
  = bound_to digits this g g p ≫= fun r =>
    Normal (r, <[g := Z.of_nat (S (length pre))]> map).
Proof.
  intros Hg Hps Hmap. rewrite (render_callback_eq _ _ _ _ _ _ Hg).
  unfold resolve_index. rewrite getCounterByProperty_eq, Hmap, Hps, length_app.
  cbn [length].
  destruct (Z.ltb_spec (Z.of_nat (length pre)) (Z.of_nat (length pre + S (length rest))));
    [|lia].
  destruct (Z.ltb_spec (Z.of_nat (length pre)) 0); [lia|].
  rewrite Nat2Z.id, lookup_app_r, Nat.sub_diag by lia. cbn [lookup list_lookup].
  by replace (Z.of_nat (length pre) + 1) with (Z.of_nat (S (length pre))) by lia.
Qed.

Lemma replace_placeholders (digits : Q -> string) (this : BarItem) (sep g : string)
    (v : IProgress -> string) (post : list piece) (rest : list IProgress) :
  property_and_tag this g = (g, None) ->
  rest <> [] ->
  Forall (fun p => bound_to digits this g g p = Normal (v p)) rest ->
  forall (pre : list IProgress) (map : gmap string Z),
    progresses this = pre ++ rest ->
    default 0 (map !! g) = Z.of_nat (length pre) ->
    String_replace (render_callback digits this)
      (placeholders sep g (length rest) ++ post) map
    = String_replace (render_callback digits this) post
        (<[g := Z.of_nat (length pre + length rest)]> map) ≫= fun s =>
      Normal (Array_join sep (v <$> rest) +:+ s).
Proof.
  intros Hg. induction rest as [|p rest IH]; intros Hne Hv pre map Hps Hmap; [done|].
  apply Forall_cons in Hv as [Hp Hv].
  destruct rest as [|q rest].
  - cbn [length placeholders app String_replace].
    rewrite (callback_positional digits this g map pre [] p Hg Hps Hmap), Hp, !bind_Normal.
    replace (length pre + 1)%nat with (S (length pre)) by lia. done.
  - change (placeholders sep g (length (p :: q :: rest)))
      with (Match g :: text sep ++ placeholders sep g (length (q :: rest))).
    rewrite <- app_comm_cons, <- app_assoc. cbn [String_replace].
    rewrite (callback_positional digits this g map pre (q :: rest) p Hg Hps Hmap), Hp,
      !bind_Normal.
    rewrite String_replace_text.
    rewrite (IH ltac:(done) Hv (pre ++ [p]));
      [|by rewrite <- app_assoc
       |rewrite lookup_insert_eq, length_app; cbn [default length]; unfold id; lia].
    rewrite insert_insert_eq.
    replace (length (pre ++ [p]) + length (q :: rest))%nat
      with (length pre + length (p :: q :: rest))%nat
      by (rewrite length_app; cbn [length]; lia).
    destruct (String_replace _ post _) as [s| |]; [|reflexivity..].
    rewrite !bind_Normal. rewrite !fmap_cons.
    rewrite (Array_join_cons sep (v p)) by done. by rewrite !app_assoc_string.
Qed.

Lemma replace_value_total (digits : Q -> string) (this : BarItem)
    (v1 v2 : IProgress -> string) (rest : list IProgress) :
  property_and_tag this "value" = ("value", None) ->
  property_and_tag this "total" = ("total", None) ->
  rest <> [] ->
  Forall (fun p => bound_to digits this "value" "value" p = Normal (v1 p) /\
                   bound_to digits this "total" "total" p = Normal (v2 p)) rest ->
  forall (pre : list IProgress) (map : gmap string Z),
    progresses this = pre ++ rest ->
    default 0 (map !! "value") = Z.of_nat (length pre) ->
    default 0 (map !! "total") = Z.of_nat (length pre) ->
    String_replace (render_callback digits this) (value_total_pieces (length rest)) map
    = Normal (Array_join " " ((fun p => v1 p +:+ "/" +:+ v2 p) <$> rest)).
Proof.
  intros Hvalue Htotal.
  induction rest as [|p rest IH]; intros Hne Hv pre map Hps Hmap1 Hmap2; [done|].
  apply Forall_cons in Hv as [[Hp1 Hp2] Hv].
  assert (Hmap2' : default 0 (<["value" := Z.of_nat (S (length pre))]> map !! "total")
                   = Z.of_nat (length pre)) by (by rewrite lookup_insert_ne).
  destruct rest as [|q rest].
  - cbn [length value_total_pieces String_replace].
    rewrite (callback_positional digits this "value" map pre [] p Hvalue Hps Hmap1), Hp1,
      !bind_Normal.
    cbn [fmap Completion_fmap].
    rewrite (callback_positional digits this "total" _ pre [] p Htotal Hps Hmap2'), Hp2,
      !bind_Normal.
    cbn [fmap list_fmap Array_join]. by rewrite app_empty_r.
  - change (value_total_pieces (length (p :: q :: rest)))
      with (Match "value" :: Text "/" :: Match "total" :: Text " "
            :: value_total_pieces (length (q :: rest))).
    cbn [String_replace].
    rewrite (callback_positional digits this "value" map pre (q :: rest) p Hvalue Hps Hmap1),
      Hp1, !bind_Normal.
    rewrite (callback_positional digits this "total" _ pre (q :: rest) p Htotal Hps Hmap2'),
      Hp2, !bind_Normal.
    rewrite (IH ltac:(done) Hv (pre ++ [p]));
      [|by rewrite <- app_assoc
       |rewrite lookup_insert_ne, lookup_insert_eq, length_app by done;
        cbn [default length]; unfold id; lia
       |rewrite lookup_insert_eq, length_app; cbn [default length]; unfold id; lia].
    cbn [fmap Completion_fmap]. rewrite !bind_Normal, !fmap_cons.
    rewrite (Array_join_cons " " (v1 p +:+ "/" +:+ v2 p)) by done.
    by rewrite !app_assoc_string.
Qed.

Lemma source_placeholders {A} (sep g : string) (l : list A) :
  source_text (placeholders sep g (length l))
  = Array_join sep ((fun _ => matched g) <$> l).
Proof.
  induction l as [|x [|y l] IH]; [done| |].
  - cbn. apply app_empty_r.
  - change (placeholders sep g (length (x :: y :: l)))
      with (Match g :: text sep ++ placeholders sep g (length (y :: l))).
    cbn [source_text]. rewrite source_text_app, source_text_text, IH, !fmap_cons.
    reflexivity.
Qed.

Lemma source_value_total {A} (l : list A) :
  source_text (value_total_pieces (length l))
  = Array_join " " ((fun _ => "{value}/{total}") <$> l).
Proof.
  induction l as [|x [|y l] IH]; [done|done|].
  change (value_total_pieces (length (x :: y :: l)))
    with (Match "value" :: Text "/" :: Match "total" :: Text " "
          :: value_total_pieces (length (y :: l))).
  cbn [source_text]. rewrite IH, !fmap_cons.
  reflexivity.
Qed.

Lemma writable_text (s : string) : brace_free s = true -> forallb writable (text s) = true.
Proof.
  induction s as [|c s IH]; [done|]. cbn [brace_free text forallb writable].
  intros [-> Hs]%andb_prop. by rewrite IH.
Qed.

Lemma writable_placeholders (sep g : string) (n : nat) :
  brace_free sep = true -> writable (Match g) = true ->
  forallb writable (placeholders sep g n) = true.
Proof.
  intros Hsep Hg. induction n as [|[|n] IH]; [done|by cbn [placeholders forallb]; rewrite Hg|].
  change (placeholders sep g (S (S n)))
    with (Match g :: text sep ++ placeholders sep g (S n)).
  cbn [forallb]. by rewrite Hg, forallb_app, writable_text, IH.
Qed.

Lemma writable_value_total (n : nat) : forallb writable (value_total_pieces n) = true.
Proof.
  induction n as [|[|n] IH]; [done|done|].
  change (value_total_pieces (S (S n)))
    with (Match "value" :: Text "/" :: Match "total" :: Text " "
          :: value_total_pieces (S n)).
  cbn [forallb]. by rewrite IH.
Qed.

Lemma default_template_pieces {A} (ps : list A) (n : nat) :
  n = length ps ->
  source_text (default_pieces n)
  = "[{bars}] " +:+ Array_join "/" ((fun _ => "{percentage}") <$> ps)
    +:+ " ETA: " +:+ Array_join "/" ((fun _ => "{eta}") <$> ps)
    +:+ " speed: " +:+ Array_join "/" ((fun _ => "{speed}") <$> ps)
    +:+ " duration: " +:+ Array_join "/" ((fun _ => "{duration}") <$> ps)
    +:+ " " +:+ Array_join " " ((fun _ => "{value}/{total}") <$> ps) /\
  matchAll None (source_text (default_pieces n)) = default_pieces n.
Proof.
  intros ->. split.
  - unfold default_pieces.
    rewrite !source_text_app, !source_text_text, !source_placeholders, source_value_total.
    reflexivity.
  - apply matchAll_writable. unfold default_pieces.
    by rewrite !forallb_app, !writable_text, !writable_placeholders, writable_value_total.
Qed.

Lemma bound_to_shown (digits : Q -> string) (this : BarItem) (key : string)
    (p : IProgress) :
  key <> "bar" -> key <> "bars" -> bool_decide (key ∈ inherited) = false ->
  bound_to digits this key key p = Normal (shown digits this key p).
Proof.
  intros Hbar Hbars Hkey%bool_decide_eq_false. unfold shown.
  assert (H : exists v : option string,
            getDataValue digits this key p = Normal (Str <$> v)).
  { unfold getDataValue, get. destruct (getPayload p !! key) as [s|]; [by exists (Some s)|].
    rewrite (bool_decide_eq_false_2 _ Hkey).
    unfold dataProviders.
    destruct (customProviders this !! key) as [f|];
      [by exists (Some (f p (progresses this)))|].
    unfold builtinProviders.
    rewrite (proj2 (String.eqb_neq _ _) Hbar), (proj2 (String.eqb_neq _ _) Hbars).
    repeat (destruct (String.eqb key _); [by eexists (Some _)|]).
    rewrite (bool_decide_eq_false_2 _ Hkey). by exists None. }
  unfold bound_to. destruct H as [[v|] ->]; [|done].
  rewrite bind_Normal. cbn [fmap option_fmap option_map].
  by destruct (format_own this key v p Hkey) as [r ->].
Qed.

Lemma default_key_untagged (this : BarItem) (key : string) :
  tagDelimiter this = "_" -> key ∈ default_keys ->
  property_and_tag this key = (key, None).
Proof.
  intros Hd Hkey. unfold property_and_tag. rewrite Hd.
  unfold default_keys in Hkey.
  repeat (apply elem_of_cons in Hkey as [->|Hkey]; [reflexivity|]).
  by apply elem_of_nil in Hkey.
Qed.

(** X12.  The default template of a BarItem over two progresses or more,
    under the default tag delimiter, renders the combined bar between
    square brackets, then the percentages of all the progresses in their
    order separated by slashes, then their etas, speeds and durations in
    the same way, then value/total of each one separated by spaces.  The
    combined bar is the one bound to the first progress; [render] returns
    this string as soon as that bar does not throw. *)
Theorem default_template_render (digits : Q -> string) (this : BarItem)
    (first : IProgress) (bars : string) :
  tagDelimiter this = "_" ->
  template this = getDefaultTemplate (progresses this) ->
  (1 < length (progresses this))%nat ->
  head (progresses this) = Some first ->
  bound_to digits this "bars" "bars" first = Normal bars ->
  let each key := shown digits this key <$> progresses this in
  render digits this
  = Normal ("[" +:+ bars +:+ "] " +:+ Array_join "/" (each "percentage")
            +:+ " ETA: " +:+ Array_join "/" (each "eta")
            +:+ " speed: " +:+ Array_join "/" (each "speed")
            +:+ " duration: " +:+ Array_join "/" (each "duration")
            +:+ " " +:+ Array_join " "
                  ((fun p => shown digits this "value" p +:+ "/"
                             +:+ shown digits this "total" p) <$> progresses this)).
Proof.
  intros Hd Htemplate Hn Hfirst Hbars each. subst each. cbv beta.
  assert (Hkey : forall key, key ∈ default_keys -> property_and_tag this key = (key, None))
    by (intros; by apply default_key_untagged).
  assert (Hne : progresses this <> []) by (intros H; rewrite H in Hn; simpl in Hn; lia).
  assert (Hall : forall key, key <> "bar" -> key <> "bars" ->
            bool_decide (key ∈ inherited) = false ->
            Forall (fun p => bound_to digits this key key p
                             = Normal (shown digits this key p)) (progresses this)).
  { intros key ? ? ?. apply Forall_forall. intros p _. by apply bound_to_shown. }
  assert (Hps : progresses this = [] ++ progresses this) by done.
  unfold render. rewrite Htemplate. unfold getDefaultTemplate.
  destruct (Nat.ltb_spec 1 (length (progresses this))); [|lia].
  destruct (default_template_pieces (progresses this) _ eq_refl) as [<- ->].
  unfold default_pieces.
  rewrite String_replace_text. cbn [app String_replace].
  destruct (progresses this) as [|p0 tl] eqn:Hp0; [done|]. injection Hfirst as ->.
  rewrite <- Hp0 in *.
  rewrite (callback_positional digits this "bars" ∅ [] tl first);
    [|apply Hkey; set_solver|by rewrite Hp0|done..].
  rewrite Hbars, !bind_Normal, String_replace_text.
  rewrite (replace_placeholders digits this "/" "percentage" (shown digits this "percentage")
             _ (progresses this) ltac:(apply Hkey; set_solver) Hne
             ltac:(by apply Hall) [] _ Hps);
    [|by rewrite !lookup_insert_ne by done].
  rewrite String_replace_text.
  rewrite (replace_placeholders digits this "/" "eta" (shown digits this "eta")
             _ (progresses this) ltac:(apply Hkey; set_solver) Hne
             ltac:(by apply Hall) [] _ Hps);
    [|by rewrite !lookup_insert_ne by done].
  rewrite String_replace_text.
  rewrite (replace_placeholders digits this "/" "speed" (shown digits this "speed")
             _ (progresses this) ltac:(apply Hkey; set_solver) Hne
             ltac:(by apply Hall) [] _ Hps);
    [|by rewrite !lookup_insert_ne by done].
  rewrite String_replace_text.
  rewrite (replace_placeholders digits this "/" "duration" (shown digits this "duration")
             _ (progresses this) ltac:(apply Hkey; set_solver) Hne
             ltac:(by apply Hall) [] _ Hps);
    [|by rewrite !lookup_insert_ne by done].
  rewrite String_replace_text.
  rewrite (replace_value_total digits this (shown digits this "value")
             (shown digits this "total") (progresses this)
             ltac:(apply Hkey; set_solver) ltac:(apply Hkey; set_solver) Hne
             ltac:(apply Forall_forall; intros p _; split; by apply bound_to_shown)
             [] _ Hps);
    [|by rewrite !lookup_insert_ne by done..].
  by rewrite !bind_Normal.
Qed.

Lemma default_template_render_witness :
  render (fun _ => "") (new_BarItem (inr two_progresses) None)
  = Normal "[========--------------------------------] 10%/20% ETA: NaN/NaN speed: 0/s/0/s duration: 0s/0s 100/1000 200/1000".
Proof.
  apply (default_template_render (fun _ => "") (new_BarItem (inr two_progresses) None)
           (progress_of None ∅ 100 1000) "========--------------------------------").
  - reflexivity.
  - reflexivity.
  - simpl. lia.
  - reflexivity.
  - vm_compute. reflexivity.
Defined.

(** X13.  The default template of a BarItem over a single progress,
    under the default tag delimiter, renders the bar of that progress
    between square brackets, then its percentage, eta, speed, duration and
    value/total, each one after its label; [render] returns this string as
    soon as the bar does not throw. *)
Theorem default_template_single (digits : Q -> string) (this : BarItem)
    (p : IProgress) (bar_ : string) :
  tagDelimiter this = "_" ->
  template this = getDefaultTemplate (progresses this) ->
  progresses this = [p] ->
  bound_to digits this "bar" "bar" p = Normal bar_ ->
  render digits this
  = Normal ("[" +:+ bar_ +:+ "] " +:+ shown digits this "percentage" p
            +:+ " ETA: " +:+ shown digits this "eta" p
            +:+ " speed: " +:+ shown digits this "speed" p
            +:+ " duration: " +:+ shown digits this "duration" p
            +:+ " " +:+ shown digits this "value" p
            +:+ "/" +:+ shown digits this "total" p).
Proof.
  intros Hd Htemplate Hps Hbar.
  assert (Hkey : forall key, key ∈ default_keys -> property_and_tag this key = (key, None))
    by (intros; by apply default_key_untagged).
  assert (Hps' : progresses this = [] ++ [p]) by done.
  assert (Hpieces :
    matchAll None (getDefaultTemplate [p])
    = text "[" ++ Match "bar" :: text "] " ++ Match "percentage"
      :: text " ETA: " ++ Match "eta" :: text " speed: " ++ Match "speed"
      :: text " duration: " ++ Match "duration" :: text " " ++ Match "value"
      :: text "/" ++ Match "total" :: []) by reflexivity.
  unfold render. rewrite Htemplate, Hps, Hpieces.
  rewrite String_replace_text. cbn [String_replace].
  rewrite (callback_positional digits this "bar" ∅ [] [] p);
    [|apply Hkey; set_solver|done|done..].
  rewrite Hbar, !bind_Normal, String_replace_text. cbn [String_replace].
  rewrite (callback_positional digits this "percentage" _ [] [] p);
    [|apply Hkey; set_solver|done|by rewrite !lookup_insert_ne by done].
  rewrite bound_to_shown, !bind_Normal, String_replace_text by done. cbn [String_replace].
  rewrite (callback_positional digits this "eta" _ [] [] p);
    [|apply Hkey; set_solver|done|by rewrite !lookup_insert_ne by done].
  rewrite bound_to_shown, !bind_Normal, String_replace_text by done. cbn [String_replace].
  rewrite (callback_positional digits this "speed" _ [] [] p);
    [|apply Hkey; set_solver|done|by rewrite !lookup_insert_ne by done].
  rewrite bound_to_shown, !bind_Normal, String_replace_text by done. cbn [String_replace].
  rewrite (callback_positional digits this "duration" _ [] [] p);
    [|apply Hkey; set_solver|done|by rewrite !lookup_insert_ne by done].
  rewrite bound_to_shown, !bind_Normal, String_replace_text by done. cbn [String_replace].
  rewrite (callback_positional digits this "value" _ [] [] p);
    [|apply Hkey; set_solver|done|by rewrite !lookup_insert_ne by done].
  rewrite bound_to_shown, !bind_Normal, String_replace_text by done. cbn [String_replace].
  rewrite (callback_positional digits this "total" _ [] [] p);
    [|apply Hkey; set_solver|done|by rewrite !lookup_insert_ne by done].
  rewrite bound_to_shown, !bind_Normal by done.
  by rewrite app_empty_r.
Qed.

Lemma default_template_single_witness :
  render (fun _ => "") (new_BarItem (inl (progress_of None ∅ 300 1000)) (Some width_ten))
  = Normal "[===|-------] 30% ETA: NaN speed: 0/s duration: 0s 300/1000".
Proof.
  rewrite (default_template_single (fun _ => "")
             (new_BarItem (inl (progress_of None ∅ 300 1000)) (Some width_ten))
             (progress_of None ∅ 300 1000) "===|-------").
  - vm_compute. reflexivity.
  - reflexivity.
  - reflexivity.
  - reflexivity.
  - vm_compute. reflexivity.
Defined.

(** ** The combined bar for ratios outside [0,1] *)





(** ** The syntax of a placeholder *)

Lemma prefix_char (c d : ascii) (s : string) :
  String.prefix (String c "") (String d s) = Ascii.eqb d c.
Proof.
  cbn [String.prefix]. destruct (ascii_dec c d) as [->|Hne].
  - rewrite Ascii.eqb_refl. by destruct s.
  - symmetry. apply Ascii.eqb_neq. congruence.
Qed.

Lemma split_lacks (c : ascii) (cur s : string) :
  lacks c s = true -> split_from (String c "") 0 cur s = [cur +:+ s].
Proof.
  revert cur. induction s as [|d s IH]; intros cur Hs.
  - by rewrite app_empty_r.
  - cbn [lacks] in Hs. apply andb_prop in Hs as [Hd Hs].
    cbn [split_from]. rewrite prefix_char. apply negb_true_iff in Hd as ->.
    rewrite IH by done. by rewrite app_assoc_string.
Qed.

Lemma split_at_delimiter (c : ascii) (cur t p : string) :
  lacks c t = true ->
  split_from (String c "") 0 cur (t +:+ String c p)
  = (cur +:+ t) :: split_from (String c "") 0 "" p.
Proof.
  revert cur. induction t as [|d t IH]; intros cur Ht.
  - rewrite app_empty_l, app_empty_r. cbn [split_from].
    by rewrite prefix_char, Ascii.eqb_refl.
  - cbn [lacks] in Ht. apply andb_prop in Ht as [Hd Ht].
    rewrite app_cons. cbn [split_from]. rewrite prefix_char.
    apply negb_true_iff in Hd as ->.
    rewrite IH by done. by rewrite app_assoc_string.
Qed.

(** X16.  Under a tag delimiter of one character, a placeholder written
    as a tag, the delimiter and a property, none of the two containing
    the delimiter, is read back as that property under that tag, and as
    the property without a tag when the tag is empty; a placeholder that
    does not contain the delimiter is a property without a tag. *)
Theorem placeholder_round_trip (this : BarItem) (c : ascii) (tag property : string) :
  tagDelimiter this = String c "" ->
  lacks c tag = true -> lacks c property = true ->
  property_and_tag this (tag +:+ tagDelimiter this +:+ property)
  = (property, if String.eqb tag "" then None else Some tag) /\
  property_and_tag this property = (property, None).
Proof.
  intros Hd Htag Hproperty. unfold property_and_tag. rewrite Hd.
  unfold String_split. rewrite app_cons, app_empty_l.
  rewrite split_at_delimiter, !split_lacks by done.
  rewrite !app_empty_l. split; [|done..].
  by destruct tag.
Qed.

Lemma placeholder_round_trip_witness :
  property_and_tag (new_BarItem (inr tagged_pair) None) ("worker1" +:+ "_" +:+ "bar")
  = ("bar", Some "worker1") /\
  property_and_tag (new_BarItem (inr tagged_pair) None) "bar" = ("bar", None).
Proof.
  apply (placeholder_round_trip (new_BarItem (inr tagged_pair) None) "_" "worker1" "bar").
  - reflexivity.
  - reflexivity.
  - reflexivity.
Defined.

